(** * Inverted index

    A shallow embedding of [task_Nesterenko_Anton_inverted_index.py]:
    - [load_documents]          (corpus lines -> id/text dict),
    - [build_inverted_index]    (id/text dict -> term/postings dict),
    - [StructStoragePolicy]     (binary [dump] / [load] through [struct]),
    - [InvertedIndex.query]     (multi-term AND by set intersection),
    and the properties of the design document proved against them.

    Python values are modelled as follows.
    - [int]   : [Z] (unbounded).
    - [str]   : a list of Unicode code points ([list Z]).
    - [bytes] : [list byte].
    - [dict]  : an association list in insertion order with unique keys
                ([dict_wf]); [d[k] = v] is [dict_set].
    - [set]   : a duplicate-free list ([ListSet.set Z]).
    - exceptions : the [Raise] branch of [result].
    - files and the heap : the state of a state monad with exceptions
                ([stateM]); [Store] is the heap of objects with identity
                on which [query] is run a second time, to follow what it
                reads and writes. *)

From Stdlib Require Import ZArith List Bool Lia String Ascii ListSet.
From Stdlib Require Import Strings.Byte DecimalString.
Import ListNotations.
Local Open Scope Z_scope.

(** ** Exceptions and results *)

Inductive exn : Type :=
| ValueError
| IndexError
| TypeError
| KeyError
| StructError          (* struct.error *)
| UnicodeEncodeError
| UnicodeDecodeError
| FileNotFoundError
| MemoryError.

Inductive result (A : Type) : Type :=
| Ok (a : A)
| Raise (e : exn).
Arguments Ok {A} a.
Arguments Raise {A} e.


Definition rbind {A B} (r : result A) (k : A -> result B) : result B :=
  match r with Ok a => k a | Raise e => Raise e end.

(** ** Strings *)

Definition str : Type := list Z.
Definition bytes : Type := list byte.

(** ASCII literals for examples: ["The"] becomes its code points. *)
Definition py (s : string) : str :=
  map (fun a => Z.of_N (N_of_ascii a)) (list_ascii_of_string s).

Definition str_eqb (a b : str) : bool :=
  if list_eq_dec Z.eq_dec a b then true else false.

(** [str.isspace] on one character: the code points CPython treats as
    whitespace. *)
Definition isspace (c : Z) : bool :=
  ((0x09 <=? c) && (c <=? 0x0D)) || ((0x1C <=? c) && (c <=? 0x20))
  || (c =? 0x85) || (c =? 0xA0) || (c =? 0x1680)
  || ((0x2000 <=? c) && (c <=? 0x200A))
  || (c =? 0x2028) || (c =? 0x2029) || (c =? 0x202F) || (c =? 0x205F)
  || (c =? 0x3000).

Fixpoint lstrip (s : str) : str :=
  match s with
  | c :: s' => if isspace c then lstrip s' else s
  | [] => []
  end.

(** [s.strip()] *)
Definition strip (s : str) : str := rev (lstrip (rev (lstrip s))).

(** [s.split()]: maximal runs of non-whitespace characters.  [cur] is the
    token being read, most recent character first. *)
Fixpoint split_from (cur : str) (s : str) : list str :=
  match s with
  | [] => match cur with [] => [] | _ => [rev cur] end
  | c :: s' =>
      if isspace c
      then match cur with
           | [] => split_from [] s'
           | _ => rev cur :: split_from [] s'
           end
      else split_from (c :: cur) s'
  end.

Definition split (s : str) : list str := split_from [] s.

(** [sep.join(parts)] *)
Fixpoint join (sep : str) (parts : list str) : str :=
  match parts with
  | [] => []
  | [p] => p
  | p :: rest => p ++ sep ++ join sep rest
  end.

(** ** Bytes and [struct] *)

Definition Z_of_byte (b : byte) : Z := Z.of_N (Byte.to_N b).

Definition byte_of_Z (z : Z) : byte :=
  match Byte.of_N (Z.to_N z) with
  | Some b => b
  | None => x00
  end.

(** The [n] low-order bytes of [z], least significant first. *)
Fixpoint le_bytes (n : nat) (z : Z) : bytes :=
  match n with
  | O => []
  | S k => byte_of_Z (z mod 256) :: le_bytes k (z / 256)
  end.

Fixpoint le_value (bs : bytes) : Z :=
  match bs with
  | [] => 0
  | b :: rest => Z_of_byte b + 256 * le_value rest
  end.

Definition be_bytes (n : nat) (z : Z) : bytes := rev (le_bytes n z).
Definition be_value (bs : bytes) : Z := le_value (rev bs).

(** The two unsigned formats the module uses: ["H"] and ["I"]. *)
Inductive fmt : Type := FmtH | FmtI.

Definition calcsize (f : fmt) : nat :=
  match f with FmtH => 2%nat | FmtI => 4%nat end.

(** [">"] (big-endian) or no prefix (native order, [sys.byteorder]). *)
Inductive byteorder : Type := Little | Big.

Definition order_bytes (bo : byteorder) (n : nat) (z : Z) : bytes :=
  match bo with Little => le_bytes n z | Big => be_bytes n z end.

Definition order_value (bo : byteorder) (bs : bytes) : Z :=
  match bo with Little => le_value bs | Big => be_value bs end.

(** [struct.pack(<order> + f, z)]: [struct.error] unless
    [0 <= z < 256 ^ calcsize f]. *)
Definition pack (bo : byteorder) (f : fmt) (z : Z) : result bytes :=
  if (0 <=? z) && (z <? 256 ^ Z.of_nat (calcsize f))
  then Ok (order_bytes bo (calcsize f) z)
  else Raise StructError.

(** [struct.pack(<order> + f * len(zs), *zs)] *)
Fixpoint pack_all (bo : byteorder) (f : fmt) (zs : list Z) : result bytes :=
  match zs with
  | [] => Ok []
  | z :: rest =>
      rbind (pack bo f z) (fun b =>
      rbind (pack_all bo f rest) (fun bs => Ok (b ++ bs)))
  end.

(** [struct.unpack(<order> + f, data)]: [struct.error] unless
    [len(data) = calcsize f]. *)
Definition unpack (bo : byteorder) (f : fmt) (data : bytes) : result Z :=
  if Nat.eqb (List.length data) (calcsize f)
  then Ok (order_value bo data)
  else Raise StructError.

Fixpoint chunks (size count : nat) (data : bytes) : list bytes :=
  match count with
  | O => []
  | S k => firstn size data :: chunks size k (skipn size data)
  end.

(** [struct.unpack(<order> + f * count, data)]: [struct.error] unless
    [len(data) = count * calcsize f]. *)
Definition unpack_all (bo : byteorder) (f : fmt) (count : nat) (data : bytes)
  : result (list Z) :=
  if Nat.eqb (List.length data) (count * calcsize f)
  then Ok (map (order_value bo) (chunks (calcsize f) count data))
  else Raise StructError.

(** ** UTF-8 ([str.encode('utf8')], [bytes.decode('utf8')]) *)

(** Code points [str.encode] accepts: scalar values, i.e. not surrogates. *)
Definition encodable (c : Z) : bool :=
  (0 <=? c) && (c <=? 0x10FFFF) && negb ((0xD800 <=? c) && (c <=? 0xDFFF)).

Definition utf8_char (c : Z) : bytes :=
  if c <? 0x80 then [byte_of_Z c]
  else if c <? 0x800 then
    [byte_of_Z (0xC0 + c / 64); byte_of_Z (0x80 + c mod 64)]
  else if c <? 0x10000 then
    [byte_of_Z (0xE0 + c / 4096); byte_of_Z (0x80 + (c / 64) mod 64);
     byte_of_Z (0x80 + c mod 64)]
  else
    [byte_of_Z (0xF0 + c / 262144); byte_of_Z (0x80 + (c / 4096) mod 64);
     byte_of_Z (0x80 + (c / 64) mod 64); byte_of_Z (0x80 + c mod 64)].

Definition utf8_bytes (s : str) : bytes := flat_map utf8_char s.

Definition utf8_encode (s : str) : result bytes :=
  if forallb encodable s then Ok (utf8_bytes s) else Raise UnicodeEncodeError.

(** Continuation byte [10xxxxxx]. *)
Definition is_cont (x : Z) : bool := (0x80 <=? x) && (x <? 0xC0).

(** Strict decoding: truncated or stray bytes, overlong forms, surrogates
    and values above U+10FFFF raise [UnicodeDecodeError]. *)
Fixpoint utf8_decode (bs : bytes) : result str :=
  match bs with
  | [] => Ok []
  | b0 :: r0 =>
      let x0 := Z_of_byte b0 in
      if x0 <? 0x80 then rbind (utf8_decode r0) (fun s => Ok (x0 :: s))
      else if x0 <? 0xC0 then Raise UnicodeDecodeError
      else
        match r0 with
        | [] => Raise UnicodeDecodeError
        | b1 :: r1 =>
            let x1 := Z_of_byte b1 in
            if negb (is_cont x1) then Raise UnicodeDecodeError
            else if x0 <? 0xE0 then
              let c := (x0 - 0xC0) * 64 + (x1 - 0x80) in
              if c <? 0x80 then Raise UnicodeDecodeError
              else rbind (utf8_decode r1) (fun s => Ok (c :: s))
            else
              match r1 with
              | [] => Raise UnicodeDecodeError
              | b2 :: r2 =>
                  let x2 := Z_of_byte b2 in
                  if negb (is_cont x2) then Raise UnicodeDecodeError
                  else if x0 <? 0xF0 then
                    let c := (x0 - 0xE0) * 4096 + (x1 - 0x80) * 64
                             + (x2 - 0x80) in
                    if (c <? 0x800) || ((0xD800 <=? c) && (c <=? 0xDFFF))
                    then Raise UnicodeDecodeError
                    else rbind (utf8_decode r2) (fun s => Ok (c :: s))
                  else
                    match r2 with
                    | [] => Raise UnicodeDecodeError
                    | b3 :: r3 =>
                        let x3 := Z_of_byte b3 in
                        if negb (is_cont x3) then Raise UnicodeDecodeError
                        else if x0 <? 0xF8 then
                          let c := (x0 - 0xF0) * 262144 + (x1 - 0x80) * 4096
                                   + (x2 - 0x80) * 64 + (x3 - 0x80) in
                          if (c <? 0x10000) || (0x10FFFF <? c)
                          then Raise UnicodeDecodeError
                          else rbind (utf8_decode r3) (fun s => Ok (c :: s))
                        else Raise UnicodeDecodeError
                    end
              end
        end
  end.

(** ** Dictionaries *)

(** Hashable keys: a decidable equality. *)
Class Key (K : Type) : Type := {
  key_eqb : K -> K -> bool;
  key_eqb_eq : forall a b, key_eqb a b = true <-> a = b
}.

#[export] Instance Z_Key : Key Z :=
  {| key_eqb := Z.eqb; key_eqb_eq := Z.eqb_eq |}.

#[export] Instance str_Key : Key str.
Proof.
  refine {| key_eqb := str_eqb |}.
  intros a b. unfold str_eqb.
  destruct (list_eq_dec Z.eq_dec a b); split; congruence.
Defined.

Definition dict (K V : Type) : Type := list (K * V).

Section Dict.
Context {K V : Type} `{Key K}.

(** [d.get(k)] *)
Fixpoint dict_get (d : dict K V) (k : K) : option V :=
  match d with
  | [] => None
  | (k', v) :: rest => if key_eqb k' k then Some v else dict_get rest k
  end.

(** [k in d] *)
Definition dict_mem (d : dict K V) (k : K) : bool :=
  match dict_get d k with Some _ => true | None => false end.

(** [d[k]] *)
Definition dict_item (d : dict K V) (k : K) : result V :=
  match dict_get d k with Some v => Ok v | None => Raise KeyError end.

(** [d[k] = v]: an existing key keeps its position, a new one goes last. *)
Fixpoint dict_set (d : dict K V) (k : K) (v : V) : dict K V :=
  match d with
  | [] => [(k, v)]
  | (k', v') :: rest =>
      if key_eqb k' k then (k', v) :: rest
      else (k', v') :: dict_set rest k v
  end.

Definition keys (d : dict K V) : list K := map fst d.
Definition values (d : dict K V) : list V := map snd d.

(** The representation invariant of a dict: no key occurs twice. *)
Definition dict_wf (d : dict K V) : Prop := NoDup (keys d).
End Dict.

(** ** Sets of ints *)

(** [set(l)] *)
Definition py_set (l : list Z) : set Z :=
  fold_left (fun s x => set_add Z.eq_dec x s) l (empty_set Z).

(** [list(s)].  CPython enumerates a set in hash-table order; the model
    enumerates in insertion order.  The order of the list [query]
    returns, of the posting lists [build_inverted_index] makes and of the
    ids [callback_query] prints is therefore the model's, not the
    program's: the statements about them speak of membership and
    repetition only, never of order. *)
Definition py_list (s : set Z) : list Z := s.

(** [max(l)]: [ValueError] on an empty sequence. *)
Definition py_max (l : list Z) : result Z :=
  match l with
  | [] => Raise ValueError
  | x :: rest => Ok (fold_left Z.max rest x)
  end.

(** [[f(x) for x in l]], stopping at the first exception. *)
Fixpoint comprehension {A B} (f : A -> result B) (l : list A)
  : result (list B) :=
  match l with
  | [] => Ok []
  | x :: rest =>
      rbind (f x) (fun y =>
      rbind (comprehension f rest) (fun ys => Ok (y :: ys)))
  end.

(** ** State and exceptions

    Code that threads a mutable object through many calls is a state
    monad with exceptions; an exception leaves the state as it was when it
    was raised. *)

Definition stateM (S A : Type) : Type := S -> result A * S.

Definition ret {S A} (a : A) : stateM S A := fun s => (Ok a, s).

Definition bind {S A B} (m : stateM S A) (k : A -> stateM S B)
  : stateM S B :=
  fun s =>
    match m s with
    | (Ok a, s') => k a s'
    | (Raise e, s') => (Raise e, s')
    end.

Definition lift {S A} (r : result A) : stateM S A := fun s => (r, s).

Notation "x <- m ;; k" := (bind m (fun x => k))
  (at level 61, m at next level, right associativity).
Notation "m ;;; k" := (bind m (fun _ => k))
  (at level 61, right associativity).

(** ** File objects

    The state of a binary file object is the bytes it holds: those written
    so far for a file opened with ['wb'], those not yet read for one
    opened with ['rb']. *)

Definition io (A : Type) : Type := stateM bytes A.

(** [fio.write(b)] *)
Definition fio_write (b : bytes) : io unit := fun s => (Ok tt, s ++ b).

(** [fio.read(n)]: at most [n] bytes, fewer at the end of the file. *)
Definition fio_read (n : nat) : io bytes :=
  fun s => (Ok (firstn n s), skipn n s).

(** [len(x)] as a Python int. *)
Definition len {A} (l : list A) : Z := Z.of_nat (List.length l).

(** Memory.  A read of [n] bytes builds a bytes object of that size
    before it looks at the file.  The content of a file is a value here,
    so an object no larger than the bytes the file still holds is taken to
    fit in memory; a request for more is granted or refused by the
    machine ([can_alloc n]: it grants objects of [n] bytes), and a
    refusal is [MemoryError]. *)
Definition request (can_alloc : Z -> bool) (n : Z) : io unit :=
  fun s =>
    if (n <=? len s) || can_alloc n then (Ok tt, s)
    else (Raise MemoryError, s).

(** ** StructStoragePolicy *)

Definition index_t : Type := dict str (list Z).

Module StructStoragePolicy.

(** The body of [for key, value in index.items()] in [dump]. *)
Definition dump_item (value_fmt : fmt) (key : str) (value : list Z)
  : io unit :=
  key_bytes <- lift (utf8_encode key) ;;
  b <- lift (pack Big FmtH (len key_bytes)) ;; fio_write b ;;;
  fio_write key_bytes ;;;
  b <- lift (pack Big value_fmt (len value)) ;; fio_write b ;;;
  b <- lift (pack_all Big value_fmt value) ;; fio_write b.

Fixpoint dump_items (value_fmt : fmt) (items : list (str * list Z))
  : io unit :=
  match items with
  | [] => ret tt
  | (key, value) :: rest =>
      dump_item value_fmt key value ;;; dump_items value_fmt rest
  end.

(** [dump(filepath, index)].  [file] is what [filepath] holds before the
    call ([None]: no such file); the second component of the value is what
    it holds afterwards.  [max] is computed before the file is opened;
    opening with ['wb'] truncates. *)
Definition dump (sys_byteorder : byteorder) (file : option bytes)
    (index : index_t) : result unit * option bytes :=
  match rbind (comprehension py_max (values index)) py_max with
  | Raise e => (Raise e, file)
  | Ok max_value =>
      let value_fmt := if max_value <? 65535 then FmtH else FmtI in
      let '(r, content) :=
        (b <- lift (pack sys_byteorder FmtI max_value) ;; fio_write b ;;;
         dump_items value_fmt index) [] in
      (r, Some content)
  end.

(** One turn of [while file_size > 0] in [load]: the new [file_size] and
    [index].  The last [struct.unpack] is given a format string of
    [values_len] codes and the result of a read of
    [values_len * value_size] bytes: both are built from the declared
    count, before any length is checked ([request]). *)
Definition load_record (can_alloc : Z -> bool) (value_fmt : fmt)
    (value_size : Z) (file_size : Z) (index : index_t) : io (Z * index_t) :=
  b <- fio_read 2 ;;
  bytes_len <- lift (unpack Big FmtH b) ;;
  let file_size := file_size - 2 in
  b <- fio_read (Z.to_nat bytes_len) ;;
  key <- lift (utf8_decode b) ;;
  let file_size := file_size - bytes_len in
  b <- fio_read (Z.to_nat value_size) ;;
  values_len <- lift (unpack Big value_fmt b) ;;
  let file_size := file_size - value_size in
  request can_alloc (values_len * value_size) ;;;
  b <- fio_read (Z.to_nat (values_len * value_size)) ;;
  values <- lift (unpack_all Big value_fmt (Z.to_nat values_len) b) ;;
  let file_size := file_size - values_len * value_size in
  ret (file_size, dict_set index key values).

(** The [while] loop, driven by [fuel]; [None] when the fuel runs out
    ([load_loop_total]: it never does from [load]). *)
Fixpoint load_loop (can_alloc : Z -> bool) (fuel : nat) (value_fmt : fmt)
    (value_size : Z) (file_size : Z) (index : index_t) (s : bytes)
  : option (result index_t * bytes) :=
  if file_size >? 0 then
    match fuel with
    | O => None
    | S fuel' =>
        match load_record can_alloc value_fmt value_size file_size index s
        with
        | (Ok (file_size', index'), s') =>
            load_loop can_alloc fuel' value_fmt value_size file_size'
              index' s'
        | (Raise e, s') => Some (Raise e, s')
        end
    end
  else Some (Ok index, s).

(** [load(filepath)], [file] being what [filepath] holds. *)
Definition load (can_alloc : Z -> bool) (sys_byteorder : byteorder)
    (file : option bytes) : option (result index_t) :=
  match file with
  | None => Some (Raise FileNotFoundError)
  | Some content =>
      let file_size := len content in
      match (b <- fio_read 4 ;; lift (unpack sys_byteorder FmtI b)) content
      with
      | (Raise e, _) => Some (Raise e)
      | (Ok max_value, s) =>
          let file_size := file_size - 4 in
          let value_fmt := if max_value <? 65535 then FmtH else FmtI in
          let value_size := if max_value <? 65535 then 2 else 4 in
          option_map fst
            (load_loop can_alloc (List.length content) value_fmt value_size
               file_size [] s)
      end
  end.

End StructStoragePolicy.

(** The abstract class [StoragePolicy]: a [dump] and a [load]. *)
Class StoragePolicy : Type := {
  policy_dump : option bytes -> index_t -> result unit * option bytes;
  policy_load : option bytes -> option (result index_t)
}.

(** [StructStoragePolicy()] on a machine of the given memory and byte
    order. *)
Definition StructPolicy (can_alloc : Z -> bool) (sys_byteorder : byteorder)
  : StoragePolicy :=
  {| policy_dump := StructStoragePolicy.dump sys_byteorder;
     policy_load := StructStoragePolicy.load can_alloc sys_byteorder |}.

(** ** InvertedIndex *)

Record InvertedIndex : Type := { _index : index_t }.

Module InvertedIndex.

(** The [for word in words] loop of [query] with the accumulator [tmp]
    ([None] is Python's [None]); after the loop, [list(tmp)], which is a
    [TypeError] on [None]. *)
Fixpoint query_loop (index : index_t) (tmp : option (set Z))
    (words : list str) : result (list Z) :=
  match words with
  | [] =>
      match tmp with
      | None => Raise TypeError
      | Some t => Ok (py_list t)
      end
  | word :: rest =>
      if dict_mem index word then
        rbind (dict_item index word) (fun postings =>
        match tmp with
        | None => query_loop index (Some (py_set postings)) rest
        | Some t =>
            query_loop index
              (Some (set_inter Z.eq_dec t (py_set postings))) rest
        end)
      else Ok []
  end.

(** [self.query(words)] *)
Definition query (self : InvertedIndex) (words : list str)
  : result (list Z) :=
  query_loop (_index self) None words.

(** [self.dump(policy, filepath)] *)
Definition dump (self : InvertedIndex) (policy : StoragePolicy)
    (file : option bytes) : result unit * option bytes :=
  policy_dump file (_index self).

(** [InvertedIndex.load(policy, filepath)] *)
Definition load (policy : StoragePolicy) (file : option bytes)
  : option (result InvertedIndex) :=
  option_map (fun r => rbind r (fun index => Ok {| _index := index |}))
    (policy_load file).

End InvertedIndex.

(** ** query on a store

    The same [query], with Python's object identity: the dict and every
    posting list are objects in a heap, [tmp] is a reference, and
    [intersection_update] writes through it.  The store also records the
    key look-ups made on dicts. *)

Module Store.

Definition loc : Type := nat.

Inductive obj : Type :=
| PyList (items : list Z)
| PySet (elems : set Z)
| PyDict (entries : dict str loc).

(** [word in d] and [d[word]]. *)
Inductive event : Type :=
| Contains (d : loc) (word : str)
| GetItem (d : loc) (word : str).

Record store : Type := { heap : list obj; lookups : list event }.

Definition st (A : Type) : Type := stateM store A.

(** An [InvertedIndex] instance: its [_index] attribute is a reference. *)
Record instance : Type := { index_ref : loc }.

Definition alloc (o : obj) : st loc :=
  fun s =>
    (Ok (List.length (heap s)),
     {| heap := heap s ++ [o]; lookups := lookups s |}).

(** Reading through a reference.  A reference to no object does not occur
    in Python; it is a [TypeError] here, like an object of the wrong
    type. *)
Definition deref (l : loc) : st obj :=
  fun s =>
    match nth_error (heap s) l with
    | Some o => (Ok o, s)
    | None => (Raise TypeError, s)
    end.

Fixpoint replace_nth (l : loc) (o : obj) (h : list obj) : list obj :=
  match h, l with
  | [], _ => []
  | _ :: rest, O => o :: rest
  | o' :: rest, S l' => o' :: replace_nth l' o rest
  end.

Definition assign (l : loc) (o : obj) : st unit :=
  fun s =>
    (Ok tt, {| heap := replace_nth l o (heap s); lookups := lookups s |}).

Definition log (e : event) : st unit :=
  fun s => (Ok tt, {| heap := heap s; lookups := lookups s ++ [e] |}).

(** [word in d] *)
Definition contains (d : loc) (word : str) : st bool :=
  o <- deref d ;;
  match o with
  | PyDict entries => log (Contains d word) ;;; ret (dict_mem entries word)
  | _ => lift (Raise TypeError)
  end.

(** [d[word]] *)
Definition getitem (d : loc) (word : str) : st loc :=
  o <- deref d ;;
  match o with
  | PyDict entries => log (GetItem d word) ;;; lift (dict_item entries word)
  | _ => lift (Raise TypeError)
  end.

(** [set(x)] for a list [x]: a new set object. *)
Definition set_of (x : loc) : st loc :=
  o <- deref x ;;
  match o with
  | PyList items => alloc (PySet (py_set items))
  | _ => lift (Raise TypeError)
  end.

(** [t.intersection_update(s)]: [t] is updated in place. *)
Definition intersection_update (t s : loc) : st unit :=
  a <- deref t ;;
  b <- deref s ;;
  match a, b with
  | PySet x, PySet y => assign t (PySet (set_inter Z.eq_dec x y))
  | _, _ => lift (Raise TypeError)
  end.

(** [list(tmp)]: a new list object; [TypeError] when [tmp] is [None]. *)
Definition list_of (tmp : option loc) : st loc :=
  match tmp with
  | None => lift (Raise TypeError)
  | Some t =>
      o <- deref t ;;
      match o with
      | PySet x => alloc (PyList (py_list x))
      | _ => lift (Raise TypeError)
      end
  end.

Fixpoint query_loop (self_index : loc) (tmp : option loc)
    (words : list str) : st loc :=
  match words with
  | [] => list_of tmp
  | word :: rest =>
      found <- contains self_index word ;;
      if found : bool then
        match tmp with
        | None =>
            p <- getitem self_index word ;;
            t <- set_of p ;;
            query_loop self_index (Some t) rest
        | Some t =>
            p <- getitem self_index word ;;
            s <- set_of p ;;
            intersection_update t s ;;;
            query_loop self_index (Some t) rest
        end
      else alloc (PyList [])
  end.

(** [self.query(words)]: a reference to the list returned. *)
Definition query (self : instance) (words : list str) : st loc :=
  query_loop (index_ref self) None words.

(** The values a store holds. *)
Definition read_list (h : list obj) (l : loc) : option (list Z) :=
  match nth_error h l with
  | Some (PyList items) => Some items
  | _ => None
  end.

Fixpoint read_entries (h : list obj) (entries : dict str loc)
  : option index_t :=
  match entries with
  | [] => Some []
  | (k, l) :: rest =>
      match read_list h l, read_entries h rest with
      | Some items, Some r => Some ((k, items) :: r)
      | _, _ => None
      end
  end.

Definition read_index (h : list obj) (d : loc) : option index_t :=
  match nth_error h d with
  | Some (PyDict entries) => read_entries h entries
  | _ => None
  end.

(** Putting an index into a store: one list object per posting list, then
    the dict, then the instance ([InvertedIndex(index)]). *)
Fixpoint alloc_entries (index : index_t) : st (dict str loc) :=
  match index with
  | [] => ret []
  | (k, v) :: rest =>
      l <- alloc (PyList v) ;;
      r <- alloc_entries rest ;;
      ret ((k, l) :: r)
  end.

Definition new_instance (index : index_t) : st instance :=
  entries <- alloc_entries index ;;
  d <- alloc (PyDict entries) ;;
  ret {| index_ref := d |}.

Definition empty : store := {| heap := []; lookups := [] |}.

End Store.

(** ** load_documents *)

(** The body of [for row in fin].  The right-hand side of the assignment
    is evaluated before [int(row[0])].  [int] is Python's [int] on a
    [str]: [None] stands for its [ValueError]. *)
Definition load_row (int : str -> option Z) (documents : dict Z str)
    (row : str) : result (dict Z str) :=
  let row := split (strip row) in
  let text := join (py " ") (tl row) in
  match row with
  | [] => Raise IndexError
  | tok :: _ =>
      match int tok with
      | None => Raise ValueError
      | Some doc_id => Ok (dict_set documents doc_id text)
      end
  end.

Fixpoint load_rows (int : str -> option Z) (documents : dict Z str)
    (rows : list str) : result (dict Z str) :=
  match rows with
  | [] => Ok documents
  | row :: rest =>
      rbind (load_row int documents row) (fun documents' =>
      load_rows int documents' rest)
  end.

(** [load_documents(filepath)]; [file] is the sequence of lines the text
    file at [filepath] yields ([None]: no such file). *)
Definition load_documents (int : str -> option Z) (file : option (list str))
  : result (dict Z str) :=
  match file with
  | None => Raise FileNotFoundError
  | Some rows => load_rows int [] rows
  end.

(** The ASCII decimal fragment of [int]: an optional sign and one or more
    digits.  Used for the examples only; the statements about
    [load_documents] hold for every [int]. *)
Fixpoint digits_value (acc : Z) (s : str) : option Z :=
  match s with
  | [] => Some acc
  | c :: s' =>
      if (48 <=? c) && (c <=? 57) then digits_value (10 * acc + (c - 48)) s'
      else None
  end.

Definition int_ascii (s : str) : option Z :=
  match s with
  | [] => None
  | c :: s' =>
      if c =? 45 then
        match s' with [] => None | _ => option_map Z.opp (digits_value 0 s') end
      else if c =? 43 then
        match s' with [] => None | _ => digits_value 0 s' end
      else digits_value 0 s
  end.

(** ** build_inverted_index *)

(** [index[word].add(doc_id)] on a [defaultdict(set)]. *)
Definition index_add (index : dict str (set Z)) (word : str) (doc_id : Z)
  : dict str (set Z) :=
  match dict_get index word with
  | Some s => dict_set index word (set_add Z.eq_dec doc_id s)
  | None => dict_set index word (set_add Z.eq_dec doc_id (empty_set Z))
  end.

(** [for word in doc_text.split(): index[word].add(doc_id)] *)
Definition add_document (index : dict str (set Z)) (doc : Z * str)
  : dict str (set Z) :=
  let '(doc_id, doc_text) := doc in
  fold_left (fun index word => index_add index word doc_id)
    (split doc_text) index.

Definition build_inverted_index (documents : dict Z str) : InvertedIndex :=
  let index := fold_left add_document documents [] in
  let index := map (fun '(k, v) => (k, py_list v)) index in
  {| _index := index |}.

(** ** The tests' corpus

    [DATASET_TINY_STR] of the test module, as the lines the file yields:
    the id, a tab, the text, a newline. *)

Definition tiny_row (doc_id text : string) : str :=
  py doc_id ++ [9] ++ py text ++ [10].

Definition DATASET_TINY : list str :=
  [ tiny_row "123" "Show must go on!";
    tiny_row "321" "Still loving you";
    tiny_row "547" "The Adventures of Rain Dance Maggie";
    tiny_row "645" "The House of Rising Son";
    tiny_row "789" "A A B" ].

Definition ETALON_TINY_INDEX : index_t :=
  [ (py "Show", [123]); (py "must", [123]); (py "go", [123]);
    (py "on!", [123]); (py "Still", [321]); (py "loving", [321]);
    (py "you", [321]); (py "The", [547; 645]); (py "Adventures", [547]);
    (py "of", [547; 645]); (py "Rain", [547]); (py "Dance", [547]);
    (py "Maggie", [547]); (py "House", [645]); (py "Rising", [645]);
    (py "Son", [645]); (py "A", [789]); (py "B", [789]) ].

(** ** The file format

    The byte layout of the design document, section 6, against which
    [dump] and [load] are compared. *)

(** The bytes [pack_all] produces when every value is in range. *)
Definition all_bytes (bo : byteorder) (f : fmt) (zs : list Z) : bytes :=
  flat_map (order_bytes bo (calcsize f)) zs.

(** The value width of a file whose header holds [max_id]. *)
Definition width_of (max_id : Z) : fmt :=
  if max_id <? 65535 then FmtH else FmtI.

(** [4 bytes] max_id *)
Definition header_bytes (sys_byteorder : byteorder) (max_id : Z) : bytes :=
  order_bytes sys_byteorder 4 max_id.

(** One record with value width [w]: term length (2 bytes), term,
    postings count ([w] bytes), posting ids ([w] bytes each). *)
Definition record_bytes (w : fmt) (kv : str * list Z) : bytes :=
  be_bytes 2 (len (utf8_bytes (fst kv))) ++ utf8_bytes (fst kv)
  ++ be_bytes (calcsize w) (len (snd kv)) ++ all_bytes Big w (snd kv).

Definition records_bytes (w : fmt) (index : index_t) : bytes :=
  flat_map (record_bytes w) index.

(** What a record needs to be representable with value width [w]. *)
Definition record_fits (w : fmt) (kv : str * list Z) : Prop :=
  forallb encodable (fst kv) = true
  /\ len (utf8_bytes (fst kv)) < 65536
  /\ len (snd kv) < 256 ^ Z.of_nat (calcsize w)
  /\ Forall (fun z => 0 <= z < 256 ^ Z.of_nat (calcsize w)) (snd kv).

(** [m] is the largest document id of [index]. *)
Definition is_max_id (index : index_t) (m : Z) : Prop :=
  (exists k v, In (k, v) index /\ In m v)
  /\ (forall k v x, In (k, v) index -> In x v -> x <= m).

(** The precondition of encoding: at least one term, no empty posting
    list. *)
Definition nonempty_index (index : index_t) : Prop :=
  index <> [] /\ Forall (fun kv => snd kv <> []) index.

(** What [dump] has written of an entry that does not fit, when it
    raises: nothing if the term cannot be encoded or its length does not
    fit in 2 bytes; the term length and the term if the count does not
    fit the width; these and the count if a document id does not.  The
    exception is [UnicodeEncodeError] for a term that cannot be encoded,
    [struct.error] otherwise. *)
Definition written_before_failure (w : fmt) (kv : str * list Z) : bytes :=
  let key_bytes := utf8_bytes (fst kv) in
  if forallb encodable (fst kv) && (len key_bytes <? 65536) then
    be_bytes 2 (len key_bytes) ++ key_bytes
    ++ (if len (snd kv) <? 256 ^ Z.of_nat (calcsize w)
        then be_bytes (calcsize w) (len (snd kv)) else [])
  else [].

Definition failure_of (kv : str * list Z) : exn :=
  if forallb encodable (fst kv) then StructError else UnicodeEncodeError.

(** Equality of posting lists as sets, and of indexes as mappings. *)
Definition same_set (a b : list Z) : Prop := forall x, In x a <-> In x b.

Definition index_equiv (a b : index_t) : Prop :=
  forall k,
    match dict_get a k, dict_get b k with
    | Some u, Some v => same_set u v
    | None, None => True
    | _, _ => False
    end.

(** [max([max(v) for v in index.values()])] *)
Definition index_max (index : index_t) : result Z :=
  rbind (comprehension py_max (values index)) py_max.

(** The dict [load] builds from the records of a file: [index[key] =
    values] for each, in file order. *)
Definition insert_all (index items : index_t) : index_t :=
  fold_left (fun d kv => dict_set d (fst kv) (snd kv)) items index.

(** [decode(encode(index))] exists and equals [index] as a mapping. *)
Definition roundtrips (can_alloc : Z -> bool) (sys_byteorder : byteorder)
    (index : index_t) : Prop :=
  exists bs index',
    StructStoragePolicy.dump sys_byteorder None index = (Ok tt, Some bs)
    /\ StructStoragePolicy.load can_alloc sys_byteorder (Some bs)
       = Some (Ok index')
    /\ index_equiv index' index.

(** The start of a record whose declared lengths reach past the end of
    the file: the term is shorter than its declared length [L], or the
    postings are shorter than the declared count [n] times the width. *)
Inductive reads_past_end (w : fmt) : bytes -> Prop :=
| term_past_end (L : Z) (t : bytes) :
    0 <= L < 65536 ->
    len t < L ->
    reads_past_end w (be_bytes 2 L ++ t)
| postings_past_end (L : Z) (t : bytes) (n : Z) (ps : bytes) :
    0 <= L < 65536 ->
    len t = L ->
    0 <= n < 256 ^ Z.of_nat (calcsize w) ->
    len ps < n * Z.of_nat (calcsize w) ->
    reads_past_end w (be_bytes 2 L ++ t ++ be_bytes (calcsize w) n ++ ps).

(** ** The corpus format

    The id and the text a corpus line stands for: its first token read as
    a number, and the remaining tokens joined by single spaces. *)
Definition row_entry (int : str -> option Z) (row : str) : option (Z * str) :=
  match split (strip row) with
  | [] => None
  | tok :: rest =>
      match int tok with
      | None => None
      | Some doc_id => Some (doc_id, join (py " ") rest)
      end
  end.

(** [d] is in the posting list of term [t]. *)
Definition posts (index : index_t) (t : str) (d : Z) : Prop :=
  exists l, dict_get index t = Some l /\ In d l.

(** ** Stores

    [h] holds every object of [h0] unchanged, and possibly new ones. *)
Definition extends (h0 h : list Store.obj) : Prop :=
  exists new, h = h0 ++ new.

(** The key look-ups [query] is to make on the dict at [d]: a membership
    test for each word up to and including the first absent one, and a
    subscription for each word found. *)
Fixpoint expected_lookups (index : index_t) (d : Store.loc)
    (words : list str) : list Store.event :=
  match words with
  | [] => []
  | word :: rest =>
      Store.Contains d word
      :: (if dict_mem index word
          then Store.GetItem d word :: expected_lookups index d rest
          else [])
  end.

(** A small store for examples: two posting lists, the dict and the
    instance whose [_index] it is. *)
Definition example_store : Store.store :=
  {| Store.heap := [Store.PyList [1; 2]; Store.PyList [2];
                    Store.PyDict [(py "a", 0%nat); (py "b", 1%nat)]];
     Store.lookups := [] |}.

Definition example_instance : Store.instance := {| Store.index_ref := 2%nat |}.

(** [tmp] on the store stands for the set [vtmp], and is an object
    allocated after [h0]. *)
Definition tmp_is (h0 h : list Store.obj) (tmp : option Store.loc)
    (vtmp : option (set Z)) : Prop :=
  match tmp, vtmp with
  | None, None => True
  | Some t, Some x =>
      (List.length h0 <= t)%nat /\ nth_error h t = Some (Store.PySet x)
  | _, _ => False
  end.

(** ** The command-line callbacks

    [callback_build] and [callback_query] on the files their arguments
    name: the corpus as the lines it yields, the index file as its bytes,
    the query file as its lines, and standard output as the text written
    to it. *)

(** [str(n)] for an int: decimal digits, with a minus sign below zero. *)
Definition str_of_int (z : Z) : str :=
  py (NilZero.string_of_int (Z.to_int z)).

(** [print(line)] *)
Definition print (line : str) : stateM str unit :=
  fun stdout => (Ok tt, stdout ++ line ++ [10]).

(** [print(",".join([str(var) for var in inverted_index.query(words)]))] *)
Definition print_query (inverted_index : InvertedIndex) (words : list str)
  : stateM str unit :=
  r <- lift (InvertedIndex.query inverted_index words) ;;
  print (join (py ",") (map str_of_int r)).

(** [callback_build(arguments)]: [load_path] and [store_path] are what
    the files of these names hold. *)
Definition callback_build (int : str -> option Z) (can_alloc : Z -> bool)
    (sys_byteorder : byteorder) (load_path : option (list str))
    (store_path : option bytes) : result unit * option bytes :=
  match load_documents int load_path with
  | Raise e => (Raise e, store_path)
  | Ok documents =>
      let inverted_index := build_inverted_index documents in
      InvertedIndex.dump inverted_index (StructPolicy can_alloc sys_byteorder)
        store_path
  end.

(** [for row in arguments.query_file: print(...)] *)
Fixpoint query_rows (inverted_index : InvertedIndex) (rows : list str)
  : stateM str unit :=
  match rows with
  | [] => ret tt
  | row :: rest =>
      print_query inverted_index (split (strip row)) ;;;
      query_rows inverted_index rest
  end.

(** [callback_query(arguments)].  [query] is [arguments.query] ([None]
    when the option is absent; [None] and the empty list are both false),
    [query_file] the lines of [arguments.query_file]; the state is
    standard output.  [None] only when [load] would run out of fuel
    ([load_total]: never). *)
Definition callback_query (can_alloc : Z -> bool) (sys_byteorder : byteorder)
    (index_path : option bytes) (query : option (list str))
    (query_file : list str) (stdout : str) : option (result unit * str) :=
  match InvertedIndex.load (StructPolicy can_alloc sys_byteorder) index_path
  with
  | None => None
  | Some (Raise e) => Some (Raise e, stdout)
  | Some (Ok inverted_index) =>
      match query with
      | Some (word :: words) =>
          Some (print_query inverted_index (word :: words) stdout)
      | _ => Some (query_rows inverted_index query_file stdout)
      end
  end.

(** Two machines for the examples: one grants every request for memory,
    the other none. *)
Definition ample_memory : Z -> bool := fun _ => true.

Definition no_memory : Z -> bool := fun _ => false.

(** A token: a non-empty string without whitespace. *)
Definition is_token (t : str) : Prop :=
  t <> [] /\ Forall (fun c => isspace c = false) t.

(** * Properties *)

(** ** Bytes and [struct] *)

Lemma Z_of_byte_range (b : byte) : 0 <= Z_of_byte b < 256.
Proof.
  unfold Z_of_byte. pose proof (Byte.to_N_bounded b). lia.
Qed.

Lemma Z_of_byte_of_Z (z : Z) : 0 <= z < 256 -> Z_of_byte (byte_of_Z z) = z.
Proof.
  intros Hz. unfold Z_of_byte, byte_of_Z.
  destruct (Byte.of_N (Z.to_N z)) as [b|] eqn:E.
  - apply Byte.to_of_N in E. rewrite E. lia.
  - apply Byte.of_N_None_iff in E. lia.
Qed.

Lemma le_bytes_length (n : nat) (z : Z) : List.length (le_bytes n z) = n.
Proof.
  revert z. induction n as [|n IH]; intros z; simpl; [reflexivity|].
  now rewrite IH.
Qed.

Lemma le_value_le_bytes (n : nat) (z : Z) :
  0 <= z < 256 ^ Z.of_nat n -> le_value (le_bytes n z) = z.
Proof.
  revert z. induction n as [|n IH]; intros z Hz.
  - simpl in *. lia.
  - rewrite Nat2Z.inj_succ, Z.pow_succ_r in Hz by lia.
    cbn [le_bytes le_value].
    rewrite Z_of_byte_of_Z by (apply Z.mod_pos_bound; lia).
    rewrite IH.
    + pose proof (Z.div_mod z 256). lia.
    + split.
      * apply Z.div_pos; lia.
      * apply Z.div_lt_upper_bound; lia.
Qed.

Lemma order_bytes_length bo n z : List.length (order_bytes bo n z) = n.
Proof.
  destruct bo; unfold order_bytes, be_bytes;
    rewrite ?length_rev; apply le_bytes_length.
Qed.

Lemma order_value_bytes bo n z :
  0 <= z < 256 ^ Z.of_nat n -> order_value bo (order_bytes bo n z) = z.
Proof.
  intros Hz. destruct bo; unfold order_value, order_bytes, be_value, be_bytes;
    rewrite ?rev_involutive; now apply le_value_le_bytes.
Qed.

Lemma pack_Ok bo f z b :
  pack bo f z = Ok b <->
  0 <= z < 256 ^ Z.of_nat (calcsize f) /\ b = order_bytes bo (calcsize f) z.
Proof.
  unfold pack.
  destruct ((0 <=? z) && (z <? 256 ^ Z.of_nat (calcsize f))) eqn:E.
  - apply andb_true_iff in E. destruct E as [E1 E2].
    apply Z.leb_le in E1. apply Z.ltb_lt in E2.
    split; [intros [= <-]; auto | intros [_ ->]; reflexivity].
  - split; [discriminate|]. intros [[H1 H2] _].
    apply Z.leb_le in H1. apply Z.ltb_lt in H2.
    rewrite H1, H2 in E. discriminate.
Qed.

Lemma pack_in_range bo f z :
  0 <= z < 256 ^ Z.of_nat (calcsize f) ->
  pack bo f z = Ok (order_bytes bo (calcsize f) z).
Proof. intros Hz. apply pack_Ok. auto. Qed.



Lemma unpack_pack bo f z b : pack bo f z = Ok b -> unpack bo f b = Ok z.
Proof.
  intros E. apply pack_Ok in E. destruct E as [Hz ->].
  unfold unpack. rewrite order_bytes_length, Nat.eqb_refl.
  now rewrite order_value_bytes.
Qed.

Lemma unpack_Ok bo f data z :
  unpack bo f data = Ok z ->
  List.length data = calcsize f /\ z = order_value bo data.
Proof.
  unfold unpack. destruct (Nat.eqb_spec (List.length data) (calcsize f));
    [intros [= <-]; auto | discriminate].
Qed.

Lemma unpack_short bo f data :
  List.length data <> calcsize f -> unpack bo f data = Raise StructError.
Proof.
  intros Hn. unfold unpack.
  now destruct (Nat.eqb_spec (List.length data) (calcsize f)).
Qed.

Lemma pack_all_Ok bo f zs b :
  pack_all bo f zs = Ok b <->
  Forall (fun z => 0 <= z < 256 ^ Z.of_nat (calcsize f)) zs
  /\ b = all_bytes bo f zs.
Proof.
  revert b. induction zs as [|z zs IH]; intros b; simpl.
  - split; [intros [= <-]; auto | intros [_ ->]; reflexivity].
  - destruct (pack bo f z) as [b1|e] eqn:E1; simpl.
    + apply pack_Ok in E1. destruct E1 as [Hz ->].
      destruct (pack_all bo f zs) as [b2|e] eqn:E2; simpl.
      * destruct (proj1 (IH b2) eq_refl) as [Hall ->].
        split; [intros [= <-]; auto | intros [_ ->]; reflexivity].
      * split; [discriminate|]. intros [Hall _].
        inversion Hall; subst.
        assert (Raise e = Ok (all_bytes bo f zs)) by (apply IH; auto).
        discriminate.
    + split; [discriminate|]. intros [Hall _]. inversion Hall; subst.
      rewrite pack_in_range in E1 by assumption. discriminate.
Qed.

Lemma all_bytes_length bo f zs :
  List.length (all_bytes bo f zs) = (List.length zs * calcsize f)%nat.
Proof.
  induction zs as [|z zs IH]; simpl; [reflexivity|].
  unfold all_bytes in *. simpl.
  rewrite length_app, order_bytes_length, IH. lia.
Qed.

Lemma chunks_all_bytes bo f zs :
  Forall (fun z => 0 <= z < 256 ^ Z.of_nat (calcsize f)) zs ->
  map (order_value bo)
    (chunks (calcsize f) (List.length zs) (all_bytes bo f zs)) = zs.
Proof.
  induction 1 as [|z zs Hz Hall IH]; simpl; [reflexivity|].
  unfold all_bytes in *. simpl.
  rewrite firstn_app, skipn_app, order_bytes_length, Nat.sub_diag.
  rewrite firstn_all2 by (rewrite order_bytes_length; lia).
  rewrite skipn_all2 by (rewrite order_bytes_length; lia).
  simpl. rewrite app_nil_r, order_value_bytes by assumption.
  now rewrite IH.
Qed.

Lemma unpack_all_pack_all bo f zs b :
  pack_all bo f zs = Ok b -> unpack_all bo f (List.length zs) b = Ok zs.
Proof.
  intros E. apply pack_all_Ok in E. destruct E as [Hall ->].
  unfold unpack_all. rewrite all_bytes_length, Nat.eqb_refl.
  now rewrite chunks_all_bytes.
Qed.

Lemma unpack_all_short bo f count data :
  List.length data <> (count * calcsize f)%nat ->
  unpack_all bo f count data = Raise StructError.
Proof.
  intros Hn. unfold unpack_all.
  now destruct (Nat.eqb_spec (List.length data) (count * calcsize f)).
Qed.

(** ** UTF-8 *)

Ltac decide_cmp :=
  repeat match goal with
    | |- context [Z.ltb ?a ?b] => destruct (Z.ltb_spec a b); try lia
    | |- context [Z.leb ?a ?b] => destruct (Z.leb_spec a b); try lia
    end.

Lemma encodable_range (c : Z) :
  encodable c = true <->
  0 <= c <= 0x10FFFF /\ ~ 0xD800 <= c <= 0xDFFF.
Proof.
  unfold encodable. split.
  - intros E. decide_cmp; simpl in E; try discriminate; lia.
  - intros [H1 H2]. decide_cmp; reflexivity.
Qed.

(** One character: the decoder reads back what the encoder wrote and goes
    on with the rest. *)
Lemma utf8_decode_char (c : Z) (rest : bytes) :
  encodable c = true ->
  utf8_decode (utf8_char c ++ rest)
  = rbind (utf8_decode rest) (fun s => Ok (c :: s)).
Proof.
  intros E. apply encodable_range in E. destruct E as [Hc Hs].
  unfold utf8_char.
  replace (c / 4096) with (c / 64 / 64)
    by (rewrite Z.div_div by lia; reflexivity).
  replace (c / 262144) with (c / 64 / 64 / 64)
    by (rewrite !Z.div_div by lia; reflexivity).
  pose proof (Z.div_mod c 64) as D1.
  pose proof (Z.mod_pos_bound c 64) as B1.
  pose proof (Z.div_mod (c / 64) 64) as D2.
  pose proof (Z.mod_pos_bound (c / 64) 64) as B2.
  pose proof (Z.div_mod (c / 64 / 64) 64) as D3.
  pose proof (Z.mod_pos_bound (c / 64 / 64) 64) as B3.
  set (r1 := c mod 64) in *. set (q1 := c / 64) in *.
  set (r2 := q1 mod 64) in *. set (q2 := q1 / 64) in *.
  set (r3 := q2 mod 64) in *. set (q3 := q2 / 64) in *.
  clearbody r1 q1 r2 q2 r3 q3.
  destruct (Z.ltb_spec c 0x80); [|destruct (Z.ltb_spec c 0x800);
    [|destruct (Z.ltb_spec c 0x10000)]].
  - cbn [app utf8_decode]. rewrite Z_of_byte_of_Z by lia.
    decide_cmp. reflexivity.
  - cbn [app utf8_decode]. rewrite !Z_of_byte_of_Z by lia.
    unfold is_cont.
    replace ((192 + q1 - 192) * 64 + (128 + r1 - 128)) with c by lia.
    decide_cmp; cbn [negb andb orb]; solve [reflexivity | lia].
  - cbn [app utf8_decode]. rewrite !Z_of_byte_of_Z by lia.
    unfold is_cont.
    replace ((224 + q2 - 224) * 4096 + (128 + r2 - 128) * 64
             + (128 + r1 - 128)) with c by lia.
    decide_cmp; cbn [negb andb orb]; solve [reflexivity | lia].
  - cbn [app utf8_decode]. rewrite !Z_of_byte_of_Z by lia.
    unfold is_cont.
    replace ((240 + q3 - 240) * 262144 + (128 + r3 - 128) * 4096
             + (128 + r2 - 128) * 64 + (128 + r1 - 128)) with c by lia.
    decide_cmp; cbn [negb andb orb]; solve [reflexivity | lia].
Qed.

Lemma utf8_decode_bytes (s : str) :
  forallb encodable s = true -> utf8_decode (utf8_bytes s) = Ok s.
Proof.
  induction s as [|c s IH]; simpl; [reflexivity|].
  intros E. apply andb_true_iff in E. destruct E as [Ec Es].
  unfold utf8_bytes in *. simpl.
  rewrite utf8_decode_char by assumption. now rewrite IH.
Qed.

Lemma utf8_decode_encode (s : str) (b : bytes) :
  utf8_encode s = Ok b -> utf8_decode b = Ok s.
Proof.
  unfold utf8_encode. destruct (forallb encodable s) eqn:E; [|discriminate].
  intros [= <-]. now apply utf8_decode_bytes.
Qed.

(** ** Dictionaries *)

Section DictFacts.
Context {K V : Type} `{Key K}.

Lemma key_eqb_refl (k : K) : key_eqb k k = true.
Proof. now apply key_eqb_eq. Qed.

Lemma key_eqb_neq (a b : K) : a <> b -> key_eqb a b = false.
Proof.
  intros Hn. destruct (key_eqb a b) eqn:E; [|reflexivity].
  apply key_eqb_eq in E. contradiction.
Qed.

Lemma key_eqb_spec (a b : K) : reflect (a = b) (key_eqb a b).
Proof.
  destruct (key_eqb a b) eqn:E; constructor.
  - now apply key_eqb_eq.
  - intros ->. rewrite key_eqb_refl in E. discriminate.
Qed.

Lemma dict_get_None (d : dict K V) (k : K) :
  dict_get d k = None <-> ~ In k (keys d).
Proof.
  induction d as [|[k' v'] d IH]; simpl.
  - tauto.
  - destruct (key_eqb_spec k' k) as [->|Hn].
    + split; [discriminate | intros Hf; exfalso; auto].
    + rewrite IH. tauto.
Qed.

Lemma dict_get_Some_In (d : dict K V) (k : K) (v : V) :
  dict_get d k = Some v -> In (k, v) d.
Proof.
  induction d as [|[k' v'] d IH]; simpl; [discriminate|].
  destruct (key_eqb_spec k' k) as [->|Hn].
  - intros [= ->]. now left.
  - intros E. right. auto.
Qed.

Lemma In_dict_get (d : dict K V) (k : K) (v : V) :
  dict_wf d -> In (k, v) d -> dict_get d k = Some v.
Proof.
  unfold dict_wf. induction d as [|[k' v'] d IH]; simpl; [tauto|].
  intros Hwf [E|Hin]; inversion Hwf as [|? ? Hnot Hwf']; subst.
  - inversion E; subst. now rewrite key_eqb_refl.
  - destruct (key_eqb_spec k' k) as [->|Hn].
    + exfalso. apply Hnot. unfold keys.
      change k with (fst (k, v)). now apply in_map.
    + auto.
Qed.

Lemma dict_mem_In (d : dict K V) (k : K) :
  dict_mem d k = true <-> In k (keys d).
Proof.
  unfold dict_mem. destruct (dict_get d k) eqn:E.
  - split; [intros _|reflexivity].
    apply dict_get_Some_In in E. unfold keys.
    change k with (fst (k, v)). now apply in_map.
  - apply dict_get_None in E. split; [discriminate | tauto].
Qed.

Lemma dict_set_fresh (d : dict K V) (k : K) (v : V) :
  ~ In k (keys d) -> dict_set d k v = d ++ [(k, v)].
Proof.
  induction d as [|[k' v'] d IH]; simpl; [reflexivity|].
  intros Hn. destruct (key_eqb_spec k' k) as [->|Hne].
  - exfalso. auto.
  - rewrite IH by tauto. reflexivity.
Qed.

Lemma dict_get_set (d : dict K V) (k k' : K) (v : V) :
  dict_get (dict_set d k v) k'
  = if key_eqb k k' then Some v else dict_get d k'.
Proof.
  induction d as [|[k0 v0] d IH]; simpl.
  - reflexivity.
  - destruct (key_eqb_spec k0 k) as [->|Hne]; simpl.
    + destruct (key_eqb_spec k k'); reflexivity.
    + destruct (key_eqb_spec k0 k') as [->|Hne'].
      * now rewrite key_eqb_neq by congruence.
      * apply IH.
Qed.

Lemma keys_dict_set (d : dict K V) (k : K) (v : V) :
  keys (dict_set d k v) = if dict_mem d k then keys d else keys d ++ [k].
Proof.
  unfold dict_mem. induction d as [|[k0 v0] d IH]; simpl; [reflexivity|].
  destruct (key_eqb_spec k0 k) as [->|Hne]; simpl; [reflexivity|].
  rewrite IH. now destruct (dict_get d k).
Qed.

Lemma dict_set_wf (d : dict K V) (k : K) (v : V) :
  dict_wf d -> dict_wf (dict_set d k v).
Proof.
  unfold dict_wf. intros Hwf. rewrite keys_dict_set.
  destruct (dict_mem d k) eqn:E; [assumption|].
  assert (Hn : ~ In k (keys d)).
  { intros Hin. apply dict_mem_In in Hin. congruence. }
  apply NoDup_app; [assumption | repeat constructor; simpl; tauto |].
  intros x Hx [<-|[]]. contradiction.
Qed.

End DictFacts.

(** ** The state monad *)

Lemma bind_Ok {S A B} (m : stateM S A) (k : A -> stateM S B) s a s' :
  m s = (Ok a, s') -> bind m k s = k a s'.
Proof. unfold bind. now intros ->. Qed.

(** ** [dump] writes the file format *)

Lemma pow_FmtH : 256 ^ Z.of_nat (calcsize FmtH) = 65536.
Proof. reflexivity. Qed.

Lemma pow_FmtI : 256 ^ Z.of_nat (calcsize FmtI) = 4294967296.
Proof. reflexivity. Qed.

Lemma calcsize_pos w : (0 < calcsize w)%nat.
Proof. destruct w; simpl; lia. Qed.

Lemma len_nonneg {A} (l : list A) : 0 <= len l.
Proof. unfold len. lia. Qed.

Lemma to_nat_len {A} (l : list A) : Z.to_nat (len l) = List.length l.
Proof. unfold len. apply Nat2Z.id. Qed.

Lemma to_nat_len_mul {A} (l : list A) (n : nat) :
  Z.to_nat (len l * Z.of_nat n) = (List.length l * n)%nat.
Proof. unfold len. rewrite <- Nat2Z.inj_mul. apply Nat2Z.id. Qed.

Lemma pack_all_in_range bo f zs :
  Forall (fun z => 0 <= z < 256 ^ Z.of_nat (calcsize f)) zs ->
  pack_all bo f zs = Ok (all_bytes bo f zs).
Proof. intros Hall. apply pack_all_Ok. auto. Qed.

Lemma dump_item_fits w k v s :
  record_fits w (k, v) ->
  StructStoragePolicy.dump_item w k v s = (Ok tt, s ++ record_bytes w (k, v)).
Proof.
  intros (E1 & E2 & E3 & E4). simpl in *.
  unfold StructStoragePolicy.dump_item, bind, lift, fio_write, utf8_encode.
  rewrite E1.
  rewrite pack_in_range
    by (rewrite pow_FmtH; pose proof (len_nonneg (utf8_bytes k)); lia).
  rewrite pack_in_range by (pose proof (len_nonneg v); lia).
  rewrite pack_all_in_range by assumption.
  unfold record_bytes. simpl. now rewrite <- !app_assoc.
Qed.

Lemma dump_item_Ok w k v s s' :
  StructStoragePolicy.dump_item w k v s = (Ok tt, s') ->
  record_fits w (k, v).
Proof.
  unfold StructStoragePolicy.dump_item, bind, lift, fio_write, utf8_encode,
    record_fits. simpl.
  destruct (forallb encodable k); [|discriminate].
  destruct (pack Big FmtH (len (utf8_bytes k))) as [b1|] eqn:P1;
    [|discriminate].
  destruct (pack Big w (len v)) as [b2|] eqn:P2; [|discriminate].
  destruct (pack_all Big w v) as [b3|] eqn:P3; [|discriminate].
  intros _. apply pack_Ok in P1, P2. apply pack_all_Ok in P3.
  rewrite pow_FmtH in P1. intuition.
Qed.


Lemma dump_items_fits w index s :
  Forall (record_fits w) index ->
  StructStoragePolicy.dump_items w index s
  = (Ok tt, s ++ records_bytes w index).
Proof.
  intros Hall. revert s. induction Hall as [|[k v] index Hkv Hall IH];
    intros s; simpl.
  - unfold ret. now rewrite app_nil_r.
  - erewrite bind_Ok by (now apply dump_item_fits).
    rewrite IH. unfold records_bytes. simpl. now rewrite <- app_assoc.
Qed.

Lemma dump_items_Ok w index s s' :
  StructStoragePolicy.dump_items w index s = (Ok tt, s') ->
  Forall (record_fits w) index.
Proof.
  revert s. induction index as [|[k v] index IH]; intros s; simpl.
  - constructor.
  - unfold bind.
    destruct (StructStoragePolicy.dump_item w k v s) as [[[]|e] s1] eqn:E;
      [|discriminate].
    intros E'. constructor; [eapply dump_item_Ok; eauto | eapply IH; eauto].
Qed.

(** ** [max] *)

Lemma fold_max_spec (l : list Z) (x : Z) :
  In (fold_left Z.max l x) (x :: l)
  /\ forall y, In y (x :: l) -> y <= fold_left Z.max l x.
Proof.
  revert x. induction l as [|a l IH]; intros x; simpl.
  - split; [now left | intros y [<-|[]]; lia].
  - destruct (IH (Z.max x a)) as [Hin Hle]. split.
    + destruct Hin as [E|Hin]; [|now right; right].
      rewrite <- E. destruct (Z.max_spec x a) as [[_ ->]|[_ ->]]; auto.
    + intros y Hy.
      assert (Z.max x a <= fold_left Z.max l (Z.max x a))
        by (apply Hle; now left).
      destruct Hy as [<-|[<-|Hy]]; [lia | lia | apply Hle; now right].
Qed.

Lemma py_max_Ok (l : list Z) (m : Z) :
  py_max l = Ok m <-> In m l /\ forall y, In y l -> y <= m.
Proof.
  destruct l as [|x l]; simpl.
  - split; [discriminate | intros [[] _]].
  - destruct (fold_max_spec l x) as [Hin Hle]. split.
    + intros [= <-]. auto.
    + intros [Hm Hall]. f_equal.
      assert (fold_left Z.max l x <= m) by (apply Hall; exact Hin).
      assert (m <= fold_left Z.max l x) by (apply Hle; exact Hm).
      lia.
Qed.

Lemma py_max_Raise (l : list Z) (e : exn) :
  py_max l = Raise e -> l = [] /\ e = ValueError.
Proof. destruct l; simpl; [intros [= <-]; auto | discriminate]. Qed.

Lemma comprehension_Ok {A B} (f : A -> result B) (l : list A) (ys : list B) :
  comprehension f l = Ok ys <-> Forall2 (fun x y => f x = Ok y) l ys.
Proof.
  revert ys. induction l as [|x l IH]; intros ys; simpl.
  - split; [intros [= <-]; constructor | intros HF; inversion HF; auto].
  - destruct (f x) as [y|e] eqn:E; simpl.
    + destruct (comprehension f l) as [ys'|e] eqn:E'; simpl.
      * split.
        -- intros [= <-]. constructor; [assumption | now apply IH].
        -- intros HF. inversion HF as [|? y' ? ys'' Hy Hys]; subst.
           apply IH in Hys. congruence.
      * split; [discriminate|].
        intros HF. inversion HF as [|? y' ? ys'' Hy Hys]; subst.
        apply IH in Hys. discriminate.
    + split; [discriminate|].
      intros HF. inversion HF; subst. congruence.
Qed.

Lemma comprehension_Raise {A B} (f : A -> result B) (l : list A) (e : exn) :
  comprehension f l = Raise e -> exists x, In x l /\ f x = Raise e.
Proof.
  induction l as [|x l IH]; simpl; [discriminate|].
  destruct (f x) as [y|e'] eqn:E; simpl.
  - destruct (comprehension f l) as [ys'|e''] eqn:E'; simpl; [discriminate|].
    intros [= ->]. destruct IH as (x' & Hin & Hx'); eauto.
  - intros [= ->]. eauto.
Qed.

Lemma Forall2_In_l {A B} (R : A -> B -> Prop) l l' x :
  Forall2 R l l' -> In x l -> exists y, In y l' /\ R x y.
Proof.
  induction 1 as [|a b l l' Hab HF IH]; simpl; [tauto|].
  intros [<-|Hin]; [eauto|]. destruct (IH Hin) as (y & Hy & HR); eauto.
Qed.

Lemma Forall2_In_r {A B} (R : A -> B -> Prop) l l' y :
  Forall2 R l l' -> In y l' -> exists x, In x l /\ R x y.
Proof.
  induction 1 as [|a b l l' Hab HF IH]; simpl; [tauto|].
  intros [<-|Hin]; [eauto|]. destruct (IH Hin) as (x & Hx & HR); eauto.
Qed.

Lemma In_values (index : index_t) (v : list Z) :
  In v (values index) <-> exists k, In (k, v) index.
Proof.
  unfold values. rewrite in_map_iff. split.
  - intros ([k v'] & <- & Hin). eauto.
  - intros (k & Hin). exists (k, v). auto.
Qed.

Lemma is_max_id_unique index m m' :
  is_max_id index m -> is_max_id index m' -> m = m'.
Proof.
  intros [(k & v & Hin & Hm) Hle] [(k' & v' & Hin' & Hm') Hle'].
  specialize (Hle _ _ _ Hin' Hm'). specialize (Hle' _ _ _ Hin Hm). lia.
Qed.

Lemma index_max_Ok_1 index m :
  index_max index = Ok m -> nonempty_index index /\ is_max_id index m.
Proof.
  unfold index_max.
  destruct (comprehension py_max (values index)) as [ms|e] eqn:E;
    [simpl | discriminate].
  apply comprehension_Ok in E. intros Hm. apply py_max_Ok in Hm.
  destruct Hm as [Hin Hle]. repeat split.
  - intros ->. inversion E; subst. contradiction.
  - apply Forall_forall. intros [k v] Hkv. simpl.
    destruct (Forall2_In_l _ _ _ v E) as (y & _ & Hy).
    { apply In_values. eauto. }
    apply py_max_Ok in Hy. intros ->. destruct Hy as [[] _].
  - destruct (Forall2_In_r _ _ _ m E Hin) as (v & Hv & Hy).
    apply In_values in Hv. destruct Hv as [k Hk].
    apply py_max_Ok in Hy. exists k, v. tauto.
  - intros k v x Hkv Hx.
    destruct (Forall2_In_l _ _ _ v E) as (y & Hy & Hmax).
    { apply In_values. eauto. }
    apply py_max_Ok in Hmax. destruct Hmax as [_ Hmax].
    specialize (Hmax x Hx). specialize (Hle y Hy). lia.
Qed.

Lemma index_max_Raise index e :
  index_max index = Raise e -> e = ValueError /\ ~ nonempty_index index.
Proof.
  unfold index_max.
  destruct (comprehension py_max (values index)) as [ms|e'] eqn:E; simpl.
  - intros Hm. apply py_max_Raise in Hm. destruct Hm as [-> ->].
    split; [reflexivity|]. intros [Hne _].
    apply comprehension_Ok in E. inversion E as [Hnil|]; subst.
    destruct index; [congruence | discriminate].
  - intros [= ->]. apply comprehension_Raise in E.
    destruct E as (v & Hv & Hmax). apply py_max_Raise in Hmax.
    destruct Hmax as [-> ->]. split; [reflexivity|].
    intros [_ Hall]. apply In_values in Hv. destruct Hv as [k Hk].
    rewrite Forall_forall in Hall. now apply (Hall _ Hk).
Qed.

Lemma index_max_Ok index m :
  index_max index = Ok m <-> nonempty_index index /\ is_max_id index m.
Proof.
  split; [apply index_max_Ok_1|].
  intros [Hne Hmax]. destruct (index_max index) as [m'|e] eqn:E.
  - apply index_max_Ok_1 in E. destruct E as [_ Hmax'].
    f_equal. eapply is_max_id_unique; eauto.
  - apply index_max_Raise in E. tauto.
Qed.

Lemma dump_Ok bo file index file' :
  StructStoragePolicy.dump bo file index = (Ok tt, file') <->
  exists m,
    index_max index = Ok m /\ 0 <= m < 4294967296
    /\ Forall (record_fits (width_of m)) index
    /\ file' = Some (header_bytes bo m ++ records_bytes (width_of m) index).
Proof.
  unfold StructStoragePolicy.dump. fold (index_max index).
  destruct (index_max index) as [m|e] eqn:E.
  - fold (width_of m). unfold bind at 1. unfold lift at 1.
    destruct (pack bo FmtI m) as [b|e] eqn:P.
    + apply pack_Ok in P. rewrite pow_FmtI in P. destruct P as [Hm ->].
      unfold bind at 1. unfold fio_write at 1. simpl app.
      destruct (StructStoragePolicy.dump_items _ _ _) as [r s'] eqn:D.
      unfold header_bytes. split.
      * intros [= -> <-]. exists m. pose proof D as D'.
        apply dump_items_Ok in D.
        rewrite dump_items_fits in D' by assumption.
        injection D' as <-. auto.
      * intros (m' & [= <-] & _ & Hfits & ->).
        rewrite dump_items_fits in D by assumption.
        injection D as <- <-. reflexivity.
    + split; [discriminate|].
      intros (m' & [= <-] & Hm & _).
      rewrite pack_in_range in P by (rewrite pow_FmtI; lia). discriminate.
  - split; [discriminate|]. intros (m' & [=] & _).
Qed.

Lemma dump_Raise_max bo file index e :
  index_max index = Raise e ->
  StructStoragePolicy.dump bo file index = (Raise e, file).
Proof.
  unfold StructStoragePolicy.dump. fold (index_max index). now intros ->.
Qed.

(** ** [load] reads the file format *)

Lemma firstn_exact {A} (n : nat) (a b : list A) :
  List.length a = n -> firstn n (a ++ b) = a.
Proof.
  intros <-. rewrite firstn_app, Nat.sub_diag, firstn_all. simpl.
  apply app_nil_r.
Qed.

Lemma skipn_exact {A} (n : nat) (a b : list A) :
  List.length a = n -> skipn n (a ++ b) = b.
Proof.
  intros <-. rewrite skipn_app, Nat.sub_diag, skipn_all. reflexivity.
Qed.

Lemma be_bytes_length n z : List.length (be_bytes n z) = n.
Proof. apply (order_bytes_length Big). Qed.

Lemma unpack_be_bytes f z :
  0 <= z < 256 ^ Z.of_nat (calcsize f) ->
  unpack Big f (be_bytes (calcsize f) z) = Ok z.
Proof.
  intros Hz. apply unpack_pack. now apply pack_in_range.
Qed.

Lemma record_bytes_len w k v :
  len (record_bytes w (k, v))
  = 2 + len (utf8_bytes k) + Z.of_nat (calcsize w)
    + len v * Z.of_nat (calcsize w).
Proof.
  unfold record_bytes, len. cbn [fst snd].
  rewrite !length_app, !be_bytes_length, all_bytes_length.
  rewrite !Nat2Z.inj_add, Nat2Z.inj_mul. lia.
Qed.

Lemma request_fits mem n (s : bytes) :
  n <= len s -> request mem n s = (Ok tt, s).
Proof.
  intros Hn. unfold request. apply Z.leb_le in Hn. now rewrite Hn.
Qed.

Lemma request_all_bytes mem w v (rest : bytes) :
  request mem (len v * Z.of_nat (calcsize w)) (all_bytes Big w v ++ rest)
  = (Ok tt, all_bytes Big w v ++ rest).
Proof.
  apply request_fits. unfold len.
  rewrite length_app, all_bytes_length, Nat2Z.inj_add, Nat2Z.inj_mul. lia.
Qed.

Lemma load_record_fits mem w k v fs index rest :
  record_fits w (k, v) ->
  StructStoragePolicy.load_record mem w (Z.of_nat (calcsize w)) fs index
    (record_bytes w (k, v) ++ rest)
  = (Ok (fs - len (record_bytes w (k, v)), dict_set index k v), rest).
Proof.
  intros (E1 & E2 & E3 & E4). cbn [fst snd] in *.
  rewrite record_bytes_len.
  unfold record_bytes. cbn [fst snd]. rewrite <- !app_assoc.
  unfold StructStoragePolicy.load_record, bind, lift, fio_read, ret.
  rewrite (firstn_exact 2), (skipn_exact 2) by apply be_bytes_length.
  rewrite (unpack_be_bytes FmtH)
    by (rewrite pow_FmtH; pose proof (len_nonneg (utf8_bytes k)); lia).
  rewrite !to_nat_len.
  rewrite firstn_exact, skipn_exact by reflexivity.
  rewrite utf8_decode_bytes by assumption.
  rewrite Nat2Z.id.
  rewrite firstn_exact, skipn_exact by apply be_bytes_length.
  rewrite unpack_be_bytes by (pose proof (len_nonneg v); lia).
  rewrite request_all_bytes.
  rewrite !to_nat_len_mul, to_nat_len.
  rewrite firstn_exact, skipn_exact by apply all_bytes_length.
  rewrite unpack_all_pack_all by (now apply pack_all_in_range).
  do 2 f_equal. f_equal. lia.
Qed.

Lemma load_loop_done mem fuel w sz fs index s :
  fs <= 0 ->
  StructStoragePolicy.load_loop mem fuel w sz fs index s = Some (Ok index, s).
Proof.
  intros Hfs.
  assert (E : (fs >? 0) = false).
  { destruct (fs >? 0) eqn:E; [|reflexivity]. apply Z.gtb_lt in E. lia. }
  destruct fuel; simpl; now rewrite E.
Qed.

Lemma load_loop_step mem fuel w sz fs index s :
  0 < fs ->
  StructStoragePolicy.load_loop mem (S fuel) w sz fs index s
  = match StructStoragePolicy.load_record mem w sz fs index s with
    | (Ok (fs', index'), s') =>
        StructStoragePolicy.load_loop mem fuel w sz fs' index' s'
    | (Raise e, s') => Some (Raise e, s')
    end.
Proof.
  intros Hfs. simpl.
  assert (E : (fs >? 0) = true) by (apply Z.gtb_lt; lia).
  now rewrite E.
Qed.

Lemma records_bytes_cons w kv items :
  records_bytes w (kv :: items) = record_bytes w kv ++ records_bytes w items.
Proof. reflexivity. Qed.

Lemma record_bytes_pos w kv : 0 < len (record_bytes w kv).
Proof.
  destruct kv as [k v]. rewrite record_bytes_len.
  pose proof (len_nonneg (utf8_bytes k)). pose proof (len_nonneg v).
  assert (0 < Z.of_nat (calcsize w)) by (destruct w; simpl; lia). nia.
Qed.

Lemma len_app {A} (a b : list A) : len (a ++ b) = len a + len b.
Proof. unfold len. rewrite length_app. lia. Qed.

Lemma records_bytes_length w items :
  (List.length items <= List.length (records_bytes w items))%nat.
Proof.
  induction items as [|kv items IH]; simpl; [lia|].
  rewrite length_app. pose proof (record_bytes_pos w kv). unfold len in *.
  lia.
Qed.

(** The loop consumes well-formed records one by one. *)
Lemma load_loop_records mem w items :
  Forall (record_fits w) items ->
  forall fuel fs index rest,
    0 <= fs ->
    (List.length items <= fuel)%nat ->
    StructStoragePolicy.load_loop mem fuel w (Z.of_nat (calcsize w))
      (len (records_bytes w items) + fs) index (records_bytes w items ++ rest)
    = StructStoragePolicy.load_loop mem (fuel - List.length items) w
        (Z.of_nat (calcsize w)) fs (insert_all index items) rest.
Proof.
  induction 1 as [|[k v] items Hkv Hall IH];
    intros fuel fs index rest Hfs Hfuel.
  - simpl. now rewrite Nat.sub_0_r.
  - destruct fuel as [|fuel]; [simpl in Hfuel; lia|].
    rewrite records_bytes_cons, len_app, <- app_assoc.
    pose proof (record_bytes_pos w (k, v)).
    pose proof (len_nonneg (records_bytes w items)).
    rewrite load_loop_step by lia.
    rewrite load_record_fits by assumption.
    replace (len (record_bytes w (k, v)) + len (records_bytes w items) + fs
             - len (record_bytes w (k, v)))
      with (len (records_bytes w items) + fs) by lia.
    rewrite IH by (simpl in Hfuel; lia). reflexivity.
Qed.

Lemma insert_all_fresh (index items : index_t) :
  NoDup (keys index ++ keys items) -> insert_all index items = index ++ items.
Proof.
  revert index. induction items as [|[k v] items IH]; intros index Hnd.
  - simpl. now rewrite app_nil_r.
  - simpl in *. rewrite dict_set_fresh.
    + rewrite IH.
      * now rewrite <- app_assoc.
      * unfold keys in *. rewrite map_app, <- app_assoc. exact Hnd.
    + apply NoDup_remove_2 in Hnd. intros Hin. apply Hnd.
      apply in_or_app. now left.
Qed.

Lemma insert_all_wf (items : index_t) :
  dict_wf items -> insert_all [] items = items.
Proof. intros Hwf. now rewrite insert_all_fresh. Qed.

Lemma value_size_width m :
  (if m <? 65535 then 2 else 4) = Z.of_nat (calcsize (width_of m)).
Proof. unfold width_of. now destruct (m <? 65535). Qed.

(** [load] on a file in the format: the header decides the width. *)
Lemma load_layout mem bo m index :
  0 <= m < 4294967296 ->
  Forall (record_fits (width_of m)) index ->
  StructStoragePolicy.load mem bo
    (Some (header_bytes bo m ++ records_bytes (width_of m) index))
  = Some (Ok (insert_all [] index)).
Proof.
  intros Hm Hfits. unfold StructStoragePolicy.load, bind, lift, fio_read.
  unfold header_bytes.
  rewrite firstn_exact, skipn_exact by apply order_bytes_length.
  erewrite unpack_pack by (apply pack_in_range; rewrite pow_FmtI; lia).
  fold (width_of m). rewrite value_size_width.
  rewrite len_app.
  replace (len (order_bytes bo 4 m)) with 4
    by (unfold len; now rewrite order_bytes_length).
  replace (4 + len (records_bytes (width_of m) index) - 4)
    with (len (records_bytes (width_of m) index) + 0) by lia.
  rewrite <- (app_nil_r (records_bytes (width_of m) index)) at 3.
  rewrite load_loop_records; try assumption; try lia.
  - now rewrite load_loop_done by lia.
  - rewrite length_app. pose proof (records_bytes_length (width_of m) index).
    lia.
Qed.

(** ** [load] terminates *)

Lemma le_value_nonneg (bs : bytes) : 0 <= le_value bs.
Proof.
  induction bs as [|b bs IH]; cbn [le_value]; [lia|].
  pose proof (Z_of_byte_range b). lia.
Qed.

Lemma order_value_nonneg bo (bs : bytes) : 0 <= order_value bo bs.
Proof. destruct bo; simpl; apply le_value_nonneg. Qed.

Lemma load_record_decreases mem w sz fs index s fs' index' s' :
  0 < sz ->
  StructStoragePolicy.load_record mem w sz fs index s
  = (Ok (fs', index'), s') ->
  fs' <= fs - 1.
Proof.
  intros Hsz.
  unfold StructStoragePolicy.load_record, bind, lift, fio_read, ret.
  destruct (unpack Big FmtH _) as [a|] eqn:U1; [|discriminate].
  destruct (utf8_decode _) as [key|]; [|discriminate].
  destruct (unpack Big w _) as [a1|] eqn:U2; [|discriminate].
  unfold request. destruct (_ || _); [|discriminate].
  destruct (unpack_all Big w _ _) as [vs|]; [|discriminate].
  intros [= <- _ _].
  apply unpack_Ok in U1, U2. destruct U1 as [_ ->], U2 as [_ ->].
  pose proof (order_value_nonneg Big (firstn 2 s)) as N1.
  match goal with
  | |- context [order_value Big ?x * sz] =>
      pose proof (order_value_nonneg Big x) as N2
  end.
  nia.
Qed.

Lemma load_loop_total mem fuel w sz fs index s :
  0 < sz -> fs <= Z.of_nat fuel ->
  exists r, StructStoragePolicy.load_loop mem fuel w sz fs index s = Some r.
Proof.
  intros Hsz. revert fs index s.
  induction fuel as [|fuel IH]; intros fs index s Hfs.
  - rewrite load_loop_done by lia. eauto.
  - destruct (Z_le_gt_dec fs 0) as [Hle|Hgt].
    + rewrite load_loop_done by lia. eauto.
    + rewrite load_loop_step by lia.
      destruct (StructStoragePolicy.load_record mem w sz fs index s)
        as [[[fs' index']|e] s'] eqn:E; [|eauto].
      apply load_record_decreases in E; [|assumption].
      apply IH. lia.
Qed.

(** [load] always returns: the fuel it gives the loop is enough. *)
Lemma load_total mem bo file :
  exists r, StructStoragePolicy.load mem bo file = Some r.
Proof.
  unfold StructStoragePolicy.load. destruct file as [content|]; [|eauto].
  destruct (bind _ _ content) as [[m|e] s]; [|eauto].
  edestruct (load_loop_total mem (List.length content)) as [r ->];
    [| |simpl; eauto].
  - destruct (m <? 65535); lia.
  - unfold len. lia.
Qed.

(** ** [load] accepts only files in the format *)

Lemma byte_of_Z_of_byte (b : byte) : byte_of_Z (Z_of_byte b) = b.
Proof.
  unfold byte_of_Z, Z_of_byte. now rewrite N2Z.id, Byte.of_to_N.
Qed.

Lemma le_value_bound (bs : bytes) :
  le_value bs < 256 ^ Z.of_nat (List.length bs).
Proof.
  induction bs as [|b bs IH]; cbn [le_value List.length]; [reflexivity|].
  rewrite Nat2Z.inj_succ, Z.pow_succ_r by lia.
  pose proof (Z_of_byte_range b). lia.
Qed.

Lemma le_bytes_le_value (bs : bytes) :
  le_bytes (List.length bs) (le_value bs) = bs.
Proof.
  induction bs as [|b bs IH]; cbn [le_value List.length le_bytes];
    [reflexivity|].
  pose proof (Z_of_byte_range b) as Hb.
  replace ((Z_of_byte b + 256 * le_value bs) mod 256) with (Z_of_byte b)
    by (apply Z.mod_unique_pos with (q := le_value bs); lia).
  replace ((Z_of_byte b + 256 * le_value bs) / 256) with (le_value bs)
    by (apply Z.div_unique_pos with (r := Z_of_byte b); lia).
  now rewrite byte_of_Z_of_byte, IH.
Qed.

Lemma order_bytes_value bo (bs : bytes) :
  order_bytes bo (List.length bs) (order_value bo bs) = bs.
Proof.
  destruct bo; unfold order_bytes, order_value, be_bytes, be_value.
  - apply le_bytes_le_value.
  - rewrite <- (length_rev bs), le_bytes_le_value. apply rev_involutive.
Qed.

Lemma order_value_bound bo (bs : bytes) :
  0 <= order_value bo bs < 256 ^ Z.of_nat (List.length bs).
Proof.
  split; [apply order_value_nonneg|].
  destruct bo; unfold order_value, be_value.
  - apply le_value_bound.
  - rewrite <- (length_rev bs). apply le_value_bound.
Qed.

Lemma unpack_inv bo f data z :
  unpack bo f data = Ok z ->
  0 <= z < 256 ^ Z.of_nat (calcsize f)
  /\ data = order_bytes bo (calcsize f) z.
Proof.
  intros U. apply unpack_Ok in U. destruct U as [Hlen ->].
  rewrite <- Hlen. split; [apply order_value_bound|].
  symmetry. apply order_bytes_value.
Qed.

Lemma chunks_inv bo f count :
  forall data,
    List.length data = (count * calcsize f)%nat ->
    let zs := map (order_value bo) (chunks (calcsize f) count data) in
    List.length zs = count
    /\ Forall (fun z => 0 <= z < 256 ^ Z.of_nat (calcsize f)) zs
    /\ all_bytes bo f zs = data.
Proof.
  induction count as [|count IH]; intros data Hlen; cbn zeta.
  - destruct data; [|discriminate]. repeat split. constructor.
  - cbn [chunks map]. simpl in Hlen.
    assert (Hfirst : List.length (firstn (calcsize f) data) = calcsize f)
      by (rewrite length_firstn; lia).
    destruct (IH (skipn (calcsize f) data)) as (H1 & H2 & H3).
    { rewrite length_skipn. lia. }
    cbn zeta in H1, H2, H3. split; [|split].
    + simpl. now rewrite H1.
    + constructor; [|assumption].
      pose proof (order_value_bound bo (firstn (calcsize f) data)) as B.
      now rewrite Hfirst in B.
    + unfold all_bytes in *. cbn [flat_map]. rewrite H3.
      pose proof (order_bytes_value bo (firstn (calcsize f) data)) as V.
      rewrite Hfirst in V. rewrite V. apply firstn_skipn.
Qed.

Lemma unpack_all_inv bo f count data zs :
  unpack_all bo f count data = Ok zs ->
  List.length zs = count
  /\ Forall (fun z => 0 <= z < 256 ^ Z.of_nat (calcsize f)) zs
  /\ data = all_bytes bo f zs.
Proof.
  unfold unpack_all.
  destruct (Nat.eqb_spec (List.length data) (count * calcsize f))
    as [Hlen|]; [|discriminate].
  intros [= <-]. destruct (chunks_inv bo f count data Hlen) as (H1 & H2 & H3).
  auto.
Qed.

Lemma utf8_char_1 (a : Z) : 0 <= a < 0x80 -> utf8_char a = [byte_of_Z a].
Proof. intros Ha. unfold utf8_char. decide_cmp. reflexivity. Qed.

Lemma utf8_char_2 (a b : Z) :
  0 <= a < 32 -> 0 <= b < 64 -> 0x80 <= 64 * a + b ->
  utf8_char (64 * a + b) = [byte_of_Z (0xC0 + a); byte_of_Z (0x80 + b)].
Proof.
  intros Ha Hb Hc. unfold utf8_char. decide_cmp.
  replace ((64 * a + b) / 64) with a
    by (apply Z.div_unique_pos with (r := b); lia).
  replace ((64 * a + b) mod 64) with b
    by (apply Z.mod_unique_pos with (q := a); lia).
  reflexivity.
Qed.

Lemma utf8_char_3 (a b d : Z) :
  0 <= a < 16 -> 0 <= b < 64 -> 0 <= d < 64 ->
  0x800 <= 4096 * a + 64 * b + d ->
  utf8_char (4096 * a + 64 * b + d)
  = [byte_of_Z (0xE0 + a); byte_of_Z (0x80 + b); byte_of_Z (0x80 + d)].
Proof.
  intros Ha Hb Hd Hc. unfold utf8_char. decide_cmp.
  replace ((4096 * a + 64 * b + d) / 4096) with a
    by (apply Z.div_unique_pos with (r := 64 * b + d); lia).
  replace ((4096 * a + 64 * b + d) / 64) with (64 * a + b)
    by (apply Z.div_unique_pos with (r := d); lia).
  replace ((64 * a + b) mod 64) with b
    by (apply Z.mod_unique_pos with (q := a); lia).
  replace ((4096 * a + 64 * b + d) mod 64) with d
    by (apply Z.mod_unique_pos with (q := 64 * a + b); lia).
  reflexivity.
Qed.

Lemma utf8_char_4 (a b d e : Z) :
  0 <= a < 8 -> 0 <= b < 64 -> 0 <= d < 64 -> 0 <= e < 64 ->
  0x10000 <= 262144 * a + 4096 * b + 64 * d + e ->
  utf8_char (262144 * a + 4096 * b + 64 * d + e)
  = [byte_of_Z (0xF0 + a); byte_of_Z (0x80 + b); byte_of_Z (0x80 + d);
     byte_of_Z (0x80 + e)].
Proof.
  intros Ha Hb Hd He Hc. unfold utf8_char. decide_cmp.
  replace ((262144 * a + 4096 * b + 64 * d + e) / 262144) with a
    by (apply Z.div_unique_pos with (r := 4096 * b + 64 * d + e); lia).
  replace ((262144 * a + 4096 * b + 64 * d + e) / 4096) with (64 * a + b)
    by (apply Z.div_unique_pos with (r := 64 * d + e); lia).
  replace ((262144 * a + 4096 * b + 64 * d + e) / 64)
    with (4096 * a + 64 * b + d)
    by (apply Z.div_unique_pos with (r := e); lia).
  replace ((64 * a + b) mod 64) with b
    by (apply Z.mod_unique_pos with (q := a); lia).
  replace ((4096 * a + 64 * b + d) mod 64) with d
    by (apply Z.mod_unique_pos with (q := 64 * a + b); lia).
  replace ((262144 * a + 4096 * b + 64 * d + e) mod 64) with e
    by (apply Z.mod_unique_pos with (q := 4096 * a + 64 * b + d); lia).
  reflexivity.
Qed.

Ltac bool_to_prop :=
  unfold is_cont in *;
  repeat match goal with
    | H : negb _ = false |- _ => apply negb_false_iff in H
    | H : negb _ = true |- _ => apply negb_true_iff in H
    | H : (_ && _) = true |- _ => apply andb_true_iff in H; destruct H
    | H : (_ || _) = false |- _ => apply orb_false_iff in H; destruct H
    | H : (_ && _) = false |- _ => apply andb_false_iff in H; destruct H
    | H : (_ <? _) = true |- _ => apply Z.ltb_lt in H
    | H : (_ <? _) = false |- _ => apply Z.ltb_ge in H
    | H : (_ <=? _) = true |- _ => apply Z.leb_le in H
    | H : (_ <=? _) = false |- _ => apply Z.leb_gt in H
    end.

(** The decoder accepts shortest-form UTF-8 only: what it decodes,
    [utf8_bytes] encodes back to the same bytes. *)
Lemma utf8_decode_inv_bounded (n : nat) :
  forall bs k,
    (List.length bs <= n)%nat ->
    utf8_decode bs = Ok k ->
    forallb encodable k = true /\ utf8_bytes k = bs.
Proof.
  induction n as [|n IH]; intros bs k Hlen.
  - destruct bs; [intros [= <-]; auto | simpl in Hlen; lia].
  - destruct bs as [|b0 r0]; [intros [= <-]; auto|].
    cbn [utf8_decode]. cbv zeta.
    pose proof (Z_of_byte_range b0) as R0.
    repeat match goal with
      | |- (if ?c then _ else _) = _ -> _ => destruct c eqn:?
      | |- match ?l with [] => _ | _ :: _ => _ end = _ -> _ =>
          let b := fresh "b" in
          destruct l as [|b l];
          [|pose proof (Z_of_byte_range b)]
      end;
      try (let HH := fresh in intros HH; discriminate HH);
      match goal with
      | |- rbind (utf8_decode ?r) _ = Ok _ -> _ =>
          let E := fresh "E" in
          destruct (utf8_decode r) as [s|] eqn:E; simpl rbind;
          [intros [= <-] | let HH := fresh in intros HH; discriminate HH];
          apply IH in E; [|simpl in Hlen |- *; lia];
          destruct E as [E1 E2]
      end;
      bool_to_prop;
      cbn [forallb]; rewrite E1, andb_true_r;
      unfold utf8_bytes in *; cbn [flat_map]; rewrite E2.
    + split; [apply encodable_range; lia|].
      rewrite utf8_char_1 by lia. now rewrite byte_of_Z_of_byte.
    + split; [apply encodable_range; lia|].
      match goal with
      | |- utf8_char ?c ++ _ = ?x0 :: ?x1 :: _ =>
          replace c with (64 * (Z_of_byte x0 - 192) + (Z_of_byte x1 - 128))
            by lia
      end.
      rewrite utf8_char_2 by lia.
      now rewrite !Zplus_minus, !byte_of_Z_of_byte.
    + split; [apply encodable_range; lia|].
      match goal with
      | |- utf8_char ?c ++ _ = ?x0 :: ?x1 :: ?x2 :: _ =>
          replace c with (4096 * (Z_of_byte x0 - 224)
                          + 64 * (Z_of_byte x1 - 128) + (Z_of_byte x2 - 128))
            by lia
      end.
      rewrite utf8_char_3 by lia.
      now rewrite !Zplus_minus, !byte_of_Z_of_byte.
    + split; [apply encodable_range; lia|].
      match goal with
      | |- utf8_char ?c ++ _ = ?x0 :: ?x1 :: ?x2 :: _ =>
          replace c with (4096 * (Z_of_byte x0 - 224)
                          + 64 * (Z_of_byte x1 - 128) + (Z_of_byte x2 - 128))
            by lia
      end.
      rewrite utf8_char_3 by lia.
      now rewrite !Zplus_minus, !byte_of_Z_of_byte.
    + split; [apply encodable_range; lia|].
      match goal with
      | |- utf8_char ?c ++ _ = ?x0 :: ?x1 :: ?x2 :: ?x3 :: _ =>
          replace c with (262144 * (Z_of_byte x0 - 240)
                          + 4096 * (Z_of_byte x1 - 128)
                          + 64 * (Z_of_byte x2 - 128) + (Z_of_byte x3 - 128))
            by lia
      end.
      rewrite utf8_char_4 by lia.
      now rewrite !Zplus_minus, !byte_of_Z_of_byte.
Qed.

Lemma utf8_decode_inv (bs : bytes) (k : str) :
  utf8_decode bs = Ok k -> forallb encodable k = true /\ utf8_bytes k = bs.
Proof. apply (utf8_decode_inv_bounded (List.length bs)). lia. Qed.

(** A turn of the loop that succeeds has read one whole record. *)
Lemma load_record_inv mem w fs index s fs' index' s' :
  StructStoragePolicy.load_record mem w (Z.of_nat (calcsize w)) fs index s
  = (Ok (fs', index'), s') ->
  exists k v,
    record_fits w (k, v)
    /\ s = record_bytes w (k, v) ++ s'
    /\ fs' = fs - len (record_bytes w (k, v))
    /\ index' = dict_set index k v.
Proof.
  unfold StructStoragePolicy.load_record, bind, lift, fio_read, ret.
  rewrite Nat2Z.id.
  set (s1 := skipn 2 s).
  destruct (unpack Big FmtH (firstn 2 s)) as [L|] eqn:U1; [|discriminate].
  set (s2 := skipn (Z.to_nat L) s1).
  destruct (utf8_decode (firstn (Z.to_nat L) s1)) as [k|] eqn:D;
    [|discriminate].
  set (s3 := skipn (calcsize w) s2).
  destruct (unpack Big w (firstn (calcsize w) s2)) as [n|] eqn:U2;
    [|discriminate].
  unfold request. destruct (_ || _); [|discriminate].
  destruct (unpack_all Big w (Z.to_nat n) _) as [v|] eqn:U3; [|discriminate].
  intros [= <- <- <-].
  apply unpack_inv in U1, U2. apply unpack_all_inv in U3.
  apply utf8_decode_inv in D.
  destruct U1 as [HL U1], U2 as [Hn U2], U3 as (Hv & Hall & U3), D as [Hk D].
  rewrite pow_FmtH in HL.
  (* the term was read whole: otherwise nothing is left for the count *)
  assert (Hs2 : List.length (firstn (calcsize w) s2) = calcsize w)
    by (rewrite U2; apply be_bytes_length).
  assert (HL' : List.length (firstn (Z.to_nat L) s1) = Z.to_nat L).
  { rewrite length_firstn in *. unfold s2 in Hs2. rewrite length_skipn in Hs2.
    pose proof (calcsize_pos w). lia. }
  assert (Hlen_k : len (utf8_bytes k) = L)
    by (unfold len; rewrite D, HL'; lia).
  assert (Hlen_v : len v = n) by (unfold len; rewrite Hv; lia).
  exists k, v. split; [|split; [|split]].
  - repeat split; cbn [fst snd]; [assumption | lia | lia | assumption].
  - unfold record_bytes. cbn [fst snd]. rewrite Hlen_k, Hlen_v.
    change (be_bytes 2 L) with (order_bytes Big (calcsize FmtH) L).
    change (be_bytes (calcsize w) n) with (order_bytes Big (calcsize w) n).
    rewrite <- U1, D, <- U2, <- U3, <- !app_assoc.
    rewrite (firstn_skipn _ s3). unfold s3.
    rewrite (firstn_skipn _ s2). unfold s2.
    rewrite (firstn_skipn _ s1). unfold s1.
    now rewrite firstn_skipn.
  - rewrite record_bytes_len, Hlen_k, Hlen_v. lia.
  - reflexivity.
Qed.

Lemma load_loop_inv mem fuel w :
  forall fs index s index' s',
    StructStoragePolicy.load_loop mem fuel w (Z.of_nat (calcsize w)) fs index s
    = Some (Ok index', s') ->
    exists items,
      Forall (record_fits w) items
      /\ s = records_bytes w items ++ s'
      /\ fs - len (records_bytes w items) <= 0
      /\ index' = insert_all index items.
Proof.
  induction fuel as [|fuel IH]; intros fs index s index' s'.
  - simpl. destruct (Z.gtb_spec fs 0); [discriminate|].
    intros [= <- <-]. exists []. repeat split; simpl; auto. unfold len. simpl.
    lia.
  - destruct (Z_le_gt_dec fs 0) as [Hle|Hgt].
    + rewrite load_loop_done by assumption. intros [= <- <-].
      exists []. repeat split; simpl; auto. unfold len. simpl. lia.
    + rewrite load_loop_step by lia.
      destruct (StructStoragePolicy.load_record mem _ _ _ _ _)
        as [[[fs1 index1]|e] s1] eqn:E; [|discriminate].
      apply load_record_inv in E.
      destruct E as (k & v & Hfits & -> & -> & ->).
      intros Hrest. apply IH in Hrest.
      destruct Hrest as (items & Hall & -> & Hfs & ->).
      exists ((k, v) :: items). split; [|split; [|split]].
      * now constructor.
      * rewrite records_bytes_cons. now rewrite <- app_assoc.
      * rewrite records_bytes_cons, len_app. lia.
      * reflexivity.
Qed.

(** [load] returns an index only for a file that is, from the first byte
    to the last, a header and whole records of the width the header
    selects; every other file is an error. *)
Lemma load_Ok_inv mem bo content index :
  StructStoragePolicy.load mem bo (Some content) = Some (Ok index) ->
  exists m items,
    0 <= m < 4294967296
    /\ Forall (record_fits (width_of m)) items
    /\ content = header_bytes bo m ++ records_bytes (width_of m) items
    /\ index = insert_all [] items.
Proof.
  unfold StructStoragePolicy.load, bind, lift, fio_read.
  destruct (unpack bo FmtI (firstn 4 content)) as [m|] eqn:U; [|discriminate].
  fold (width_of m). rewrite value_size_width.
  destruct (StructStoragePolicy.load_loop mem _ _ _ _ _ _) as [[r s']|] eqn:E;
    [|discriminate].
  simpl. intros [= ->]. apply load_loop_inv in E.
  destruct E as (items & Hall & Hs & Hfs & ->).
  apply unpack_inv in U. destruct U as [Hm U]. rewrite pow_FmtI in Hm.
  assert (Hcontent : content = header_bytes bo m ++ skipn 4 content).
  { unfold header_bytes.
    change 4%nat with (calcsize FmtI) at 1. rewrite <- U.
    symmetry. apply firstn_skipn. }
  assert (s' = []) as ->.
  { assert (Hlen : len content = 4 + len (skipn 4 content)).
    { rewrite Hcontent at 1. rewrite len_app. unfold header_bytes, len.
      now rewrite order_bytes_length. }
    rewrite Hs, len_app in Hlen.
    pose proof (len_nonneg s') as Hs'.
    assert (Hz : len s' = 0) by lia.
    destruct s' as [|b t]; [reflexivity|].
    unfold len in Hz. cbn [List.length] in Hz. lia. }
  rewrite app_nil_r in Hs. exists m, items.
  repeat split; try assumption; try lia. now rewrite <- Hs.
Qed.

(** ** Round trip *)

Lemma same_set_refl (a : list Z) : same_set a a.
Proof. intros x. tauto. Qed.

Lemma index_equiv_refl (a : index_t) : index_equiv a a.
Proof.
  intros k. destruct (dict_get a k); [apply same_set_refl | exact Logic.I].
Qed.

(** Whatever [dump] writes, [load] reads back as the same dict. *)
Lemma load_dump mem bo file index file' :
  dict_wf index ->
  StructStoragePolicy.dump bo file index = (Ok tt, file') ->
  StructStoragePolicy.load mem bo file' = Some (Ok index).
Proof.
  intros Hwf D. apply dump_Ok in D. destruct D as (m & _ & Hm & Hfits & ->).
  rewrite load_layout by assumption. now rewrite insert_all_wf.
Qed.

Lemma nonempty_index_max index :
  nonempty_index index -> exists m, index_max index = Ok m.
Proof.
  intros Hne. destruct (index_max index) as [m|e] eqn:E; [eauto|].
  apply index_max_Raise in E. tauto.
Qed.

(** The representable indexes: what the fixed-width fields can hold. *)
Lemma dump_representable bo file index :
  nonempty_index index ->
  (forall k v x, In (k, v) index -> In x v -> 0 <= x < 4294967296) ->
  (forall k v, In (k, v) index ->
     forallb encodable k = true /\ len (utf8_bytes k) < 65536) ->
  (forall m k v, is_max_id index m -> In (k, v) index ->
     len v < 256 ^ Z.of_nat (calcsize (width_of m))) ->
  exists m,
    is_max_id index m
    /\ StructStoragePolicy.dump bo file index
       = (Ok tt, Some (header_bytes bo m ++ records_bytes (width_of m) index)).
Proof.
  intros Hne Hids Hterms Hcounts.
  destruct (nonempty_index_max index Hne) as [m E].
  pose proof E as E'. apply index_max_Ok in E'. destruct E' as [_ Hmax].
  exists m. split; [assumption|]. apply dump_Ok. exists m.
  destruct Hmax as [(k0 & v0 & Hin0 & Hm0) Hle].
  repeat split; try assumption; try (now apply (Hids k0 v0 m)).
  apply Forall_forall. intros [k v] Hkv.
  destruct (Hterms k v Hkv) as [Henc Hlen].
  repeat split; try assumption.
  - apply (Hcounts m k v); [|assumption]. split; eauto.
  - simpl. apply Forall_forall. intros x Hx.
    specialize (Hids k v x Hkv Hx). specialize (Hle k v x Hkv Hx).
    unfold width_of. destruct (Z.ltb_spec m 65535).
    + rewrite pow_FmtH. lia.
    + rewrite pow_FmtI. lia.
Qed.

(** Conversely, [dump] returns only for such indexes. *)
Lemma dump_Ok_representable bo file index file' :
  StructStoragePolicy.dump bo file index = (Ok tt, file') ->
  nonempty_index index
  /\ (forall k v x, In (k, v) index -> In x v -> 0 <= x < 4294967296)
  /\ (forall k v, In (k, v) index ->
        forallb encodable k = true /\ len (utf8_bytes k) < 65536)
  /\ (forall m k v, is_max_id index m -> In (k, v) index ->
        len v < 256 ^ Z.of_nat (calcsize (width_of m))).
Proof.
  intros D. apply dump_Ok in D. destruct D as (m & E & Hm & Hfits & _).
  apply index_max_Ok in E. destruct E as [Hne Hmax].
  rewrite Forall_forall in Hfits.
  split; [assumption|]. split; [|split].
  - intros k v x Hkv Hx.
    destruct (Hfits _ Hkv) as (_ & _ & _ & Hall). cbn [snd] in Hall.
    rewrite Forall_forall in Hall. specialize (Hall x Hx).
    destruct Hmax as [_ Hle]. specialize (Hle k v x Hkv Hx). lia.
  - intros k v Hkv. destruct (Hfits _ Hkv) as (H1 & H2 & _). auto.
  - intros m' k v Hmax' Hkv.
    assert (m' = m) as -> by (eapply is_max_id_unique; eauto).
    destruct (Hfits _ Hkv) as (_ & _ & H3 & _). exact H3.
Qed.

Ltac solve_dict_wf :=
  unfold dict_wf, keys; simpl;
  repeat (constructor; [simpl; intuition discriminate|]); constructor.

(** C1, as amended.  For every inverted index that has at least one term,
    in which every posting list is non-empty, and which the fixed-width
    fields can hold (every document id between 0 and 2^32 - 1; every term
    encodable in UTF-8 in at most 65535 bytes; every posting list shorter
    than [256 ^ width], the width being 2 when the largest id is below
    65535 and 4 otherwise), encoding produces bytes, and decoding those
    bytes yields a mapping equal to the original index, posting lists
    compared as sets. *)
Theorem decode_encode_roundtrip mem bo index :
  dict_wf index ->
  nonempty_index index ->
  (forall k v x, In (k, v) index -> In x v -> 0 <= x < 4294967296) ->
  (forall k v, In (k, v) index ->
     forallb encodable k = true /\ len (utf8_bytes k) < 65536) ->
  (forall m k v, is_max_id index m -> In (k, v) index ->
     len v < 256 ^ Z.of_nat (calcsize (width_of m))) ->
  roundtrips mem bo index.
Proof.
  intros Hwf Hne Hids Hterms Hcounts.
  destruct (dump_representable bo None index Hne Hids Hterms Hcounts)
    as (m & Hmax & D).
  unfold roundtrips. eexists. exists index. split; [exact D|]. split.
  - eapply load_dump; eauto.
  - apply index_equiv_refl.
Qed.

Lemma decode_encode_roundtrip_witness :
  roundtrips ample_memory Little [(py "ab", [1; 2]); (py "c", [65535])].
Proof.
  apply decode_encode_roundtrip.
  - solve_dict_wf.
  - split; [discriminate|]. repeat constructor; discriminate.
  - intros k v x [E|[E|[]]]; inversion E; subst; simpl; intuition lia.
  - intros k v [E|[E|[]]]; inversion E; subst; split;
      solve [reflexivity | vm_compute; reflexivity].
  - intros m k v _ [E|[E|[]]]; inversion E; subst;
      unfold width_of; destruct (m <? 65535); vm_compute; reflexivity.
Defined.

(** C1, as stated, fails: an index with one term and one posting whose
    id does not fit in 32 bits meets the stated precondition and is not
    encoded at all ([struct.error]), so there is nothing to decode. *)
Lemma roundtrip_fails_beyond_uint32 :
  let index : index_t := [(py "a", [4294967296])] in
  dict_wf index /\ nonempty_index index
  /\ StructStoragePolicy.dump Little None index = (Raise StructError, Some [])
  /\ forall can_alloc, ~ roundtrips can_alloc Little index.
Proof.
  assert (D : StructStoragePolicy.dump Little None [(py "a", [4294967296])]
              = (Raise StructError, Some [])) by (vm_compute; reflexivity).
  cbv zeta. split; [|split; [|split]].
  - solve_dict_wf.
  - split; [discriminate|]. repeat constructor; discriminate.
  - exact D.
  - intros can_alloc (bs & index' & D' & _). rewrite D in D'. discriminate.
Qed.

(** ** Width selection *)

(** C3, as amended.  For an index the format can hold (at least one
    term, no empty posting list, every document id between 0 and 2^32 - 1,
    every term encodable in UTF-8 in at most 65535 bytes, every posting
    list shorter than [256 ^ width]), the width of the count and posting
    fields is chosen by the strict test [max_id < 65535]: with [m] the
    largest document id, [dump] returns and the file is the 4-byte header
    holding [m] followed by the records laid out with 2-byte fields if
    [m < 65535] (so for [m = 65534]) and with 4-byte fields if
    [65535 <= m]; and [load], given a file whose header holds [m], reads
    any records laid out with the width chosen by the same test. *)
Theorem value_width_boundary mem bo file index m :
  nonempty_index index ->
  is_max_id index m ->
  (forall k v x, In (k, v) index -> In x v -> 0 <= x < 4294967296) ->
  (forall k v, In (k, v) index ->
     forallb encodable k = true /\ len (utf8_bytes k) < 65536) ->
  (forall k v, In (k, v) index ->
     len v < 256 ^ Z.of_nat (calcsize (width_of m))) ->
  List.length (header_bytes bo m) = 4%nat
  /\ (m < 65535 ->
      StructStoragePolicy.dump bo file index
      = (Ok tt, Some (header_bytes bo m ++ records_bytes FmtH index))
      /\ calcsize FmtH = 2%nat)
  /\ (65535 <= m ->
      StructStoragePolicy.dump bo file index
      = (Ok tt, Some (header_bytes bo m ++ records_bytes FmtI index))
      /\ calcsize FmtI = 4%nat)
  /\ (forall w k v,
        List.length (record_bytes w (k, v))
        = (2 + List.length (utf8_bytes k) + calcsize w
           + List.length v * calcsize w)%nat)
  /\ (forall items,
        Forall (record_fits (if m <? 65535 then FmtH else FmtI)) items ->
        StructStoragePolicy.load mem bo
          (Some (header_bytes bo m
                 ++ records_bytes (if m <? 65535 then FmtH else FmtI) items))
        = Some (Ok (insert_all [] items))).
Proof.
  intros Hne Hmax Hids Hterms Hcounts.
  assert (Hm : 0 <= m < 4294967296).
  { destruct Hmax as [(k & v & Hkv & Hv) _]. eapply Hids; eauto. }
  destruct (dump_representable bo file index Hne Hids Hterms)
    as (m' & Hmax' & D).
  { intros m' k v Hm'. rewrite (is_max_id_unique _ _ _ Hm' Hmax).
    apply Hcounts. }
  rewrite (is_max_id_unique _ _ _ Hmax' Hmax) in D.
  split; [apply order_bytes_length|].
  unfold width_of in D. split; [|split; [|split]].
  - intros Hlt. destruct (Z.ltb_spec m 65535); [auto | lia].
  - intros Hge. destruct (Z.ltb_spec m 65535); [lia | auto].
  - intros w k v. unfold record_bytes. cbn [fst snd].
    rewrite !length_app, !be_bytes_length, all_bytes_length. lia.
  - intros items Hitems. now apply load_layout.
Qed.

Lemma value_width_boundary_witness :
  StructStoragePolicy.dump Little None [(py "c", [65534])]
  = (Ok tt,
     Some [xfe; xff; x00; x00; x00; x01; x63; x00; x01; xff; xfe])
  /\ StructStoragePolicy.dump Little None [(py "c", [65535])]
     = (Ok tt,
        Some [xff; xff; x00; x00; x00; x01; x63; x00; x00; x00; x01;
              x00; x00; xff; xff]).
Proof.
  assert (W : forall x : Z,
             0 <= x < 4294967296 ->
             nonempty_index [(py "c", [x])]
             /\ is_max_id [(py "c", [x])] x
             /\ (forall k v y, In (k, v) [(py "c", [x])] -> In y v ->
                   0 <= y < 4294967296)
             /\ (forall k v, In (k, v) [(py "c", [x])] ->
                   forallb encodable k = true /\ len (utf8_bytes k) < 65536)
             /\ (forall k v, In (k, v) [(py "c", [x])] ->
                   len v < 256 ^ Z.of_nat (calcsize (width_of x)))).
  { intros x Hx. split; [|split; [|split; [|split]]].
    - split; [discriminate|]. repeat constructor; discriminate.
    - split.
      + exists (py "c"), [x]. simpl. auto.
      + intros k v y [E|[]] Hy. inversion E; subst.
        destruct Hy as [<-|[]]. lia.
    - intros k v y [E|[]] Hy. inversion E; subst.
      destruct Hy as [<-|[]]. lia.
    - intros k v [E|[]]. inversion E; subst. split; vm_compute; reflexivity.
    - intros k v [E|[]]. inversion E; subst.
      unfold width_of. destruct (x <? 65535); vm_compute; reflexivity. }
  split.
  - destruct (W 65534) as (H1 & H2 & H3 & H4 & H5); [lia|].
    destruct (value_width_boundary ample_memory Little None
                [(py "c", [65534])] 65534 H1 H2 H3 H4 H5) as (_ & N & _).
    destruct N as [N _]; [lia|]. exact N.
  - destruct (W 65535) as (H1 & H2 & H3 & H4 & H5); [lia|].
    destruct (value_width_boundary ample_memory Little None
                [(py "c", [65535])] 65535 H1 H2 H3 H4 H5) as (_ & _ & N & _).
    destruct N as [N _]; [lia|]. exact N.
Defined.

(** C3, as stated, fails: an index whose largest document id is 2^32,
    which is [65535] or larger, is not serialized with 4-byte fields or
    at all, [dump] raises [struct.error] on the header and leaves an empty
    file; and an index whose largest id is 65534 and whose term is a lone
    surrogate is not serialized with 2-byte fields, [dump] raises
    [UnicodeEncodeError] after the header. *)
Lemma width_boundary_fails_beyond_uint32 :
  is_max_id [(py "a", [4294967296])] 4294967296
  /\ 65535 <= 4294967296
  /\ StructStoragePolicy.dump Little None [(py "a", [4294967296])]
     = (Raise StructError, Some [])
  /\ StructStoragePolicy.dump Big None [(py "a", [4294967296])]
     = (Raise StructError, Some [])
  /\ is_max_id [([55296], [65534])] 65534
  /\ StructStoragePolicy.dump Little None [([55296], [65534])]
     = (Raise UnicodeEncodeError, Some [xfe; xff; x00; x00]).
Proof.
  assert (M : forall (k : str) (x : Z), is_max_id [(k, [x])] x).
  { intros k x. split.
    - exists k, [x]. simpl. auto.
    - intros k' v y [E|[]] Hy. inversion E; subst.
      destruct Hy as [<-|[]]. lia. }
  split; [apply M|]. split; [lia|].
  split; [vm_compute; reflexivity|]. split; [vm_compute; reflexivity|].
  split; [apply M|]. vm_compute. reflexivity.
Qed.

(** ** The precondition of encoding *)

(** C6.  Encoding an index with no terms fails ([max] of an empty
    sequence: [ValueError]) and leaves the file alone; so does encoding an
    index with an empty posting list; and encoding succeeds only for an
    index with at least one term and no empty posting list. *)
Theorem dump_requires_nonempty bo file index :
  StructStoragePolicy.dump bo file [] = (Raise ValueError, file)
  /\ (~ nonempty_index index ->
      StructStoragePolicy.dump bo file index = (Raise ValueError, file))
  /\ (forall file',
        StructStoragePolicy.dump bo file index = (Ok tt, file') ->
        nonempty_index index).
Proof.
  split; [reflexivity|]. split.
  - intros Hn. destruct (index_max index) as [m|e] eqn:E.
    + apply index_max_Ok in E. tauto.
    + pose proof E as E'. apply index_max_Raise in E'. destruct E' as [-> _].
      now apply dump_Raise_max.
  - intros file' D. apply dump_Ok in D. destruct D as (m & E & _).
    apply index_max_Ok in E. tauto.
Qed.

Lemma dump_requires_nonempty_witness :
  StructStoragePolicy.dump Little (Some []) [(py "a", [])]
  = (Raise ValueError, Some [])
  /\ nonempty_index [(py "ab", [1; 2])].
Proof.
  split.
  - apply (dump_requires_nonempty Little (Some []) [(py "a", [])]).
    intros [_ Hall]. inversion Hall as [|? ? Hne _]; subst. now apply Hne.
  - apply (dump_requires_nonempty Little None [(py "ab", [1; 2])])
      with (file' := Some (header_bytes Little 2
                           ++ records_bytes FmtH [(py "ab", [1; 2])])).
    vm_compute. reflexivity.
Defined.

(** ** Truncated files *)

Lemma utf8_decode_Raise_bounded (n : nat) :
  forall bs e,
    (List.length bs <= n)%nat ->
    utf8_decode bs = Raise e -> e = UnicodeDecodeError.
Proof.
  induction n as [|n IH]; intros bs e Hlen.
  - destruct bs; [discriminate | simpl in Hlen; lia].
  - destruct bs as [|b0 r0]; [discriminate|]. cbn [utf8_decode].
    repeat match goal with
      | |- context [match ?l with [] => _ | _ :: _ => _ end] =>
          is_var l; destruct l
      | |- context [if ?c then _ else _] => destruct c
      end;
      try (intros [= <-]; reflexivity);
      match goal with
      | |- rbind (utf8_decode ?r) _ = Raise _ -> _ =>
          destruct (utf8_decode r) eqn:E; simpl;
          [discriminate | intros [= <-]; eapply IH; [|exact E];
                          simpl in Hlen |- *; lia]
      end.
Qed.

Lemma utf8_decode_Raise (bs : bytes) (e : exn) :
  utf8_decode bs = Raise e -> e = UnicodeDecodeError.
Proof. apply (utf8_decode_Raise_bounded (List.length bs)). lia. Qed.

Lemma reads_past_end_pos w tail : reads_past_end w tail -> 0 < len tail.
Proof.
  intros [L t HL Ht | L t n ps HL Ht Hn Hps]; rewrite len_app;
    unfold len at 1; rewrite be_bytes_length;
    match goal with |- context [len ?x] => pose proof (len_nonneg x) end;
    lia.
Qed.

(** A turn of the loop that starts on such a record raises:
    [MemoryError] if the machine refuses the objects the declared count
    asks for, [struct.error] on the short read otherwise. *)
Lemma load_record_past_end mem w fs index tail :
  reads_past_end w tail ->
  exists e s',
    StructStoragePolicy.load_record mem w (Z.of_nat (calcsize w)) fs index
      tail = (Raise e, s')
    /\ (e = StructError \/ e = UnicodeDecodeError
        \/ (e = MemoryError /\ exists n, mem n = false)).
Proof.
  pose proof (calcsize_pos w) as Hw.
  intros [L t HL Ht | L t n ps HL Ht Hn Hps];
    unfold StructStoragePolicy.load_record, bind, lift, fio_read, ret;
    rewrite (firstn_exact 2), (skipn_exact 2) by apply be_bytes_length;
    rewrite (unpack_be_bytes FmtH) by (rewrite pow_FmtH; lia).
  - rewrite firstn_all2, skipn_all2 by (unfold len in Ht; lia).
    destruct (utf8_decode t) as [key|e] eqn:E.
    + rewrite firstn_nil, unpack_short by (simpl; lia). eauto 10.
    + apply utf8_decode_Raise in E. subst e. eauto 10.
  - rewrite firstn_exact, skipn_exact by (unfold len in Ht; lia).
    destruct (utf8_decode t) as [key|e] eqn:E.
    + rewrite Nat2Z.id.
      rewrite firstn_exact, skipn_exact by apply be_bytes_length.
      rewrite unpack_be_bytes by assumption.
      unfold request.
      destruct ((n * Z.of_nat (calcsize w) <=? len ps)
                || mem (n * Z.of_nat (calcsize w))) eqn:R.
      * rewrite firstn_all2 by (unfold len in Hps; nia).
        rewrite unpack_all_short by (unfold len in Hps; nia). eauto 10.
      * apply orb_false_iff in R. destruct R as [_ R].
        do 2 eexists. split; [reflexivity|]. right. right.
        split; [reflexivity|]. now exists (n * Z.of_nat (calcsize w)).
    + apply utf8_decode_Raise in E. subst e. eauto 10.
Qed.

(** The loop, about to read such a record, raises, whatever it has read
    before. *)
Lemma load_loop_past_end mem fuel w fs index tail :
  0 < fs ->
  reads_past_end w tail ->
  exists e s',
    StructStoragePolicy.load_loop mem (S fuel) w (Z.of_nat (calcsize w)) fs
      index tail = Some (Raise e, s')
    /\ (e = StructError \/ e = UnicodeDecodeError
        \/ (e = MemoryError /\ exists n, mem n = false)).
Proof.
  intros Hfs Htail. rewrite load_loop_step by assumption.
  destruct (load_record_past_end mem w fs index tail Htail)
    as (e & s' & -> & He).
  eauto.
Qed.

(** C8.  A file that, after its header and any number of well-formed
    records, holds a record whose declared term length, or whose declared
    postings count times the value width, reaches past the end of the
    file is not decoded: [load] raises, and so returns no index, partial
    or otherwise.  The exception is [struct.error] on the short read,
    [UnicodeDecodeError] when the cut leaves the term malformed, or
    [MemoryError] when the machine refuses the objects the declared count
    asks for, which happens only on a machine that refuses some
    request. *)
Theorem load_truncated mem bo m items tail :
  0 <= m < 4294967296 ->
  Forall (record_fits (width_of m)) items ->
  reads_past_end (width_of m) tail ->
  exists e,
    StructStoragePolicy.load mem bo
      (Some (header_bytes bo m ++ records_bytes (width_of m) items ++ tail))
    = Some (Raise e)
    /\ (e = StructError \/ e = UnicodeDecodeError
        \/ (e = MemoryError /\ exists n, mem n = false)).
Proof.
  intros Hm Hfits Htail.
  pose proof (reads_past_end_pos _ _ Htail) as Hpos.
  unfold StructStoragePolicy.load, bind, lift, fio_read.
  unfold header_bytes.
  rewrite firstn_exact, skipn_exact by apply order_bytes_length.
  erewrite unpack_pack by (apply pack_in_range; rewrite pow_FmtI; lia).
  fold (width_of m). rewrite value_size_width.
  rewrite !len_app.
  replace (len (order_bytes bo 4 m)) with 4
    by (unfold len; now rewrite order_bytes_length).
  replace (4 + (len (records_bytes (width_of m) items) + len tail) - 4)
    with (len (records_bytes (width_of m) items) + len tail) by lia.
  pose proof (records_bytes_length (width_of m) items) as Hrec.
  rewrite load_loop_records; try assumption; try lia;
    [|rewrite !length_app; lia].
  rewrite !length_app, order_bytes_length.
  destruct (4 + (List.length (records_bytes (width_of m) items)
                 + List.length tail) - List.length items)%nat
    as [|fuel] eqn:F; [unfold len in Hpos; lia|].
  destruct (load_loop_past_end mem fuel (width_of m) (len tail)
              (insert_all [] items) tail Hpos Htail) as (e & s' & -> & He).
  simpl. eauto.
Qed.

Lemma load_truncated_witness :
  exists e,
    StructStoragePolicy.load no_memory Little
      (Some ([xff; xff; x00; x00] ++ []
             ++ [x00; x00; xff; xff; xff; xff; x00]))
    = Some (Raise e)
    /\ (e = StructError \/ e = UnicodeDecodeError
        \/ (e = MemoryError /\ exists n, no_memory n = false)).
Proof.
  apply (load_truncated no_memory Little 65535 []
           (be_bytes 2 0 ++ [] ++ be_bytes 4 4294967295 ++ [x00])).
  - lia.
  - constructor.
  - apply (postings_past_end FmtI 0 [] 4294967295 [x00]);
      [lia | reflexivity | vm_compute; split; [discriminate | reflexivity]
      | vm_compute; reflexivity].
Defined.

(** The same 11-byte file, whose one record declares 2^32 - 1 postings
    and holds one byte of them: [MemoryError] on a machine that refuses
    the request, [struct.error] on one that grants it; and a record cut
    inside its term is [struct.error] on either. *)
Example load_declared_count_beyond_file :
  StructStoragePolicy.load no_memory Little
    (Some [xff; xff; x00; x00; x00; x00; xff; xff; xff; xff; x00])
  = Some (Raise MemoryError)
  /\ StructStoragePolicy.load ample_memory Little
       (Some [xff; xff; x00; x00; x00; x00; xff; xff; xff; xff; x00])
     = Some (Raise StructError)
  /\ StructStoragePolicy.load no_memory Little
       (Some [x05; x00; x00; x00; x00; x03; x61])
     = Some (Raise StructError).
Proof. repeat split; vm_compute; reflexivity. Qed.

(** ** load_documents *)

Section LoadDocuments.
Variable int : str -> option Z.

Lemma load_row_entry documents row doc_id text :
  row_entry int row = Some (doc_id, text) ->
  load_row int documents row = Ok (dict_set documents doc_id text).
Proof.
  unfold row_entry, load_row.
  destruct (split (strip row)) as [|tok rest]; [discriminate|].
  destruct (int tok); [|discriminate]. now intros [= <- <-].
Qed.

Lemma load_row_Ok documents row documents' :
  load_row int documents row = Ok documents' ->
  exists doc_id text,
    row_entry int row = Some (doc_id, text)
    /\ documents' = dict_set documents doc_id text.
Proof.
  unfold row_entry, load_row.
  destruct (split (strip row)) as [|tok rest]; [discriminate|].
  destruct (int tok); [|discriminate]. intros [= <-]. eauto.
Qed.

Lemma load_rows_app documents a b :
  load_rows int documents (a ++ b)
  = rbind (load_rows int documents a) (fun d => load_rows int d b).
Proof.
  revert documents. induction a as [|row a IH]; intros documents; simpl.
  - reflexivity.
  - destruct (load_row int documents row); simpl; [apply IH | reflexivity].
Qed.

Lemma load_rows_well_formed documents rows :
  (forall r, In r rows -> row_entry int r <> None) ->
  exists documents', load_rows int documents rows = Ok documents'.
Proof.
  revert documents. induction rows as [|row rows IH]; intros documents Hwf.
  - simpl. eauto.
  - simpl. destruct (row_entry int row) as [[doc_id text]|] eqn:E.
    + erewrite load_row_entry by eassumption. simpl.
      apply IH. intros r Hr. apply Hwf. now right.
    + exfalso. apply (Hwf row); [now left | assumption].
Qed.

Lemma load_rows_other documents rows documents' doc_id :
  load_rows int documents rows = Ok documents' ->
  (forall r t, In r rows -> row_entry int r <> Some (doc_id, t)) ->
  dict_get documents' doc_id = dict_get documents doc_id.
Proof.
  revert documents. induction rows as [|row rows IH]; intros documents; simpl.
  - now intros [= <-].
  - destruct (load_row int documents row) as [d1|] eqn:E; simpl;
      [|discriminate].
    intros Hrest Hother. apply load_row_Ok in E.
    destruct E as (id' & text' & Hentry & ->).
    rewrite (IH _ Hrest) by (intros r t Hr; apply Hother; now right).
    rewrite dict_get_set. destruct (key_eqb_spec id' doc_id) as [->|Hne].
    + exfalso. apply (Hother row text'); [now left | assumption].
    + reflexivity.
Qed.

Lemma load_rows_wf documents rows documents' :
  dict_wf documents ->
  load_rows int documents rows = Ok documents' ->
  dict_wf documents'.
Proof.
  revert documents. induction rows as [|row rows IH]; intros documents Hwf;
    simpl.
  - now intros [= <-].
  - destruct (load_row int documents row) as [d1|] eqn:E; simpl;
      [|discriminate].
    apply load_row_Ok in E. destruct E as (doc_id & text & _ & ->).
    apply IH. now apply dict_set_wf.
Qed.

(** The mapping [load_documents] returns has each id once. *)
Lemma load_documents_wf file documents :
  load_documents int file = Ok documents -> dict_wf documents.
Proof.
  destruct file as [rows|]; simpl; [|discriminate].
  apply load_rows_wf. constructor.
Qed.

(** C9.  When the same id is on several lines of the corpus, loading
    does not fail because of it (it returns a mapping whenever every line
    has an id and parses), and the mapping sends the id to the text of
    the last line that bears it. *)
Theorem load_documents_last_write_wins pre row post doc_id text :
  (forall r, In r (pre ++ row :: post) -> row_entry int r <> None) ->
  row_entry int row = Some (doc_id, text) ->
  (forall r t, In r post -> row_entry int r <> Some (doc_id, t)) ->
  exists documents,
    load_documents int (Some (pre ++ row :: post)) = Ok documents
    /\ dict_get documents doc_id = Some text.
Proof.
  intros Hwf Hrow Hlast. unfold load_documents.
  destruct (load_rows_well_formed [] _ Hwf) as [documents E].
  exists documents. split; [assumption|].
  rewrite load_rows_app in E.
  destruct (load_rows int [] pre) as [d1|] eqn:E1; simpl in E;
    [|discriminate].
  rewrite (load_row_entry _ _ _ _ Hrow) in E. simpl in E.
  rewrite (load_rows_other _ _ _ doc_id E Hlast).
  rewrite dict_get_set. now rewrite key_eqb_refl.
Qed.

(** C7, as amended.  A corpus line whose first token does not parse as
    an integer makes the load fail ([ValueError]) at the first such line,
    whatever follows it, and no mapping is produced; so does a line with
    no token at all ([IndexError]).  A line that has an id and no further
    token does not fail: it maps the id to the empty text. *)
Theorem load_documents_malformed pre row post :
  (forall r, In r pre -> row_entry int r <> None) ->
  (forall tok rest,
     split (strip row) = tok :: rest -> int tok = None ->
     load_documents int (Some (pre ++ row :: post)) = Raise ValueError)
  /\ (split (strip row) = [] ->
      load_documents int (Some (pre ++ row :: post)) = Raise IndexError)
  /\ (forall tok doc_id,
        split (strip row) = [tok] -> int tok = Some doc_id ->
        exists documents,
          load_documents int (Some (pre ++ [row])) = Ok documents
          /\ dict_get documents doc_id = Some []).
Proof.
  intros Hpre. unfold load_documents.
  destruct (load_rows_well_formed [] _ Hpre) as [d1 E1].
  rewrite !load_rows_app, E1. simpl. unfold load_row.
  split; [|split].
  - intros tok rest -> ->. reflexivity.
  - intros ->. reflexivity.
  - intros tok doc_id -> ->. simpl. eexists. split; [reflexivity|].
    rewrite dict_get_set. now rewrite key_eqb_refl.
Qed.

End LoadDocuments.

Lemma load_documents_last_write_wins_witness :
  exists documents,
    load_documents int_ascii (Some [py "1 a"; py "1 c d"; py "2 b"])
    = Ok documents
    /\ dict_get documents 1 = Some (py "c d").
Proof.
  apply (load_documents_last_write_wins int_ascii
           [py "1 a"] (py "1 c d") [py "2 b"] 1 (py "c d")).
  - intros r [<-|[<-|[<-|[]]]]; vm_compute; discriminate.
  - vm_compute. reflexivity.
  - intros r t [<-|[]]. vm_compute. discriminate.
Defined.

Lemma load_documents_malformed_witness :
  load_documents int_ascii (Some [py "1 a"; py "x y"; py "2 b"])
  = Raise ValueError.
Proof.
  assert (Hpre : forall r, In r [py "1 a"] -> row_entry int_ascii r <> None).
  { intros r [<-|[]]. vm_compute. discriminate. }
  apply (proj1 (load_documents_malformed int_ascii
                  [py "1 a"] (py "x y") [py "2 b"] Hpre)
           (py "x") [py "y"]); vm_compute; reflexivity.
Defined.

(** C7, as stated, fails: a line that holds an id and nothing else is
    loaded, as a document with an empty text. *)
Lemma id_only_line_is_loaded :
  let row := py "123" ++ [10] in
  split (strip row) = [py "123"]
  /\ int_ascii (py "123") = Some 123
  /\ load_documents int_ascii (Some [row]) = Ok [(123, [])].
Proof. cbv zeta. repeat split. Qed.

(** ** build_inverted_index *)

Lemma In_fold_set_add (l : list Z) (acc : set Z) (x : Z) :
  In x (fold_left (fun s y => set_add Z.eq_dec y s) l acc)
  <-> In x l \/ In x acc.
Proof.
  revert acc. induction l as [|y l IH]; intros acc; simpl.
  - tauto.
  - rewrite IH, set_add_iff. intuition congruence.
Qed.

Lemma In_py_set (l : list Z) (x : Z) : In x (py_set l) <-> In x l.
Proof.
  unfold py_set. rewrite In_fold_set_add. simpl. tauto.
Qed.

Lemma posts_index_add index w d w' d' :
  posts (index_add index w d) w' d' <-> (w' = w /\ d' = d) \/ posts index w' d'.
Proof.
  unfold index_add, posts. unfold set in *.
  destruct (dict_get index w) as [s|] eqn:E; setoid_rewrite dict_get_set;
    destruct (key_eqb_spec w w') as [<-|Hne].
  - rewrite E. split.
    + intros (l & [= <-] & Hin). apply set_add_iff in Hin.
      destruct Hin as [->|Hin]; eauto.
    + intros [[_ ->]|(l & [= <-] & Hin)]; eexists; split; try reflexivity;
        apply set_add_iff; auto.
  - split; [auto | intros [[-> _]|]; [congruence | auto]].
  - rewrite E. split.
    + intros (l & [= <-] & Hin). simpl in Hin.
      destruct Hin as [<-|[]]; eauto.
    + intros [[_ ->]|(l & [=] & _)]. eexists; split; [reflexivity|].
      simpl. auto.
  - split; [auto | intros [[-> _]|]; [congruence | auto]].
Qed.

Lemma posts_add_words doc_id words index w d :
  posts (fold_left (fun index word => index_add index word doc_id)
           words index) w d
  <-> (d = doc_id /\ In w words) \/ posts index w d.
Proof.
  revert index. induction words as [|word words IH]; intros index; simpl.
  - tauto.
  - rewrite IH, posts_index_add. intuition congruence.
Qed.

Lemma posts_add_documents (documents : dict Z str) index w d :
  posts (fold_left add_document documents index) w d
  <-> (exists text, In (d, text) documents /\ In w (split text))
      \/ posts index w d.
Proof.
  revert index. induction documents as [|[doc_id text] documents IH];
    intros index; simpl.
  - split; [tauto | intros [(t & [] & _)|]; assumption].
  - rewrite IH, posts_add_words. split.
    + intros [(t & Hin & Hw)|[[-> Hw]|Hp]]; eauto 6.
    + intros [(t & [[= <- <-]|Hin] & Hw)|Hp]; eauto 6.
Qed.

Lemma map_py_list (index : dict str (set Z)) :
  map (fun '(k, v) => (k, py_list v)) index = index.
Proof.
  induction index as [|[k v] index IH]; simpl; [reflexivity|].
  now rewrite IH.
Qed.

Lemma index_add_wf index w d : dict_wf index -> dict_wf (index_add index w d).
Proof.
  intros Hwf. unfold index_add.
  destruct (dict_get index w); now apply dict_set_wf.
Qed.

Lemma add_document_wf index doc :
  dict_wf index -> dict_wf (add_document index doc).
Proof.
  destruct doc as [doc_id text]. unfold add_document.
  generalize (split text). intros words. revert index.
  induction words as [|w words IH]; intros index Hwf; simpl; [assumption|].
  apply IH. now apply index_add_wf.
Qed.

(** The built index has each term once. *)
Lemma build_inverted_index_wf (documents : dict Z str) :
  dict_wf (_index (build_inverted_index documents)).
Proof.
  unfold build_inverted_index. cbn [_index]. rewrite map_py_list.
  assert (G : forall index : dict str (set Z),
             dict_wf index -> dict_wf (fold_left add_document documents index)).
  { induction documents as [|doc documents IH]; intros index Hwf; simpl;
      [assumption|].
    apply IH. now apply add_document_wf. }
  apply G. constructor.
Qed.

(** The built index posts [d] under [w] exactly when [w] is a token of a
    document with id [d]. *)
Lemma posts_build (documents : dict Z str) w d :
  posts (_index (build_inverted_index documents)) w d
  <-> exists text, In (d, text) documents /\ In w (split text).
Proof.
  unfold build_inverted_index. cbn [_index]. rewrite map_py_list.
  rewrite posts_add_documents. split; [|auto].
  intros [H|(l & [=] & _)]. exact H.
Qed.

(** ** query *)

Lemma query_loop_Some index words :
  forall t,
  exists r,
    InvertedIndex.query_loop index (Some t) words = Ok r
    /\ forall d, In d r <-> In d t /\ forall w, In w words -> posts index w d.
Proof.
  induction words as [|word words IH]; intros t; simpl.
  - exists t. split; [reflexivity|]. intros d. unfold py_list.
    split; [intros Hd; split; [assumption | intros w []] | tauto].
  - unfold dict_mem, dict_item.
    destruct (dict_get index word) as [l|] eqn:E; simpl.
    + destruct (IH (set_inter Z.eq_dec t (py_set l))) as (r & -> & Hr).
      exists r. split; [reflexivity|]. intros d.
      rewrite Hr, set_inter_iff, In_py_set. split.
      * intros [[Ht Hl] Hrest]. split; [assumption|].
        intros w [<-|Hw]; [exists l; auto | auto].
      * intros [Ht Hall]. repeat split; [assumption | | auto].
        destruct (Hall word) as (l' & E' & Hl'); [auto|]. congruence.
    + exists []. split; [reflexivity|]. intros d. split; [intros []|].
      intros [_ Hall]. destruct (Hall word) as (l' & E' & _); [auto|].
      congruence.
Qed.

Lemma query_loop_None index word words :
  exists r,
    InvertedIndex.query_loop index None (word :: words) = Ok r
    /\ forall d, In d r <-> forall w, In w (word :: words) -> posts index w d.
Proof.
  simpl. unfold dict_mem, dict_item.
  destruct (dict_get index word) as [l|] eqn:E; simpl.
  - destruct (query_loop_Some index words (py_set l)) as (r & -> & Hr).
    exists r. split; [reflexivity|]. intros d.
    rewrite Hr, In_py_set. split.
    + intros [Hl Hrest] w [<-|Hw]; [exists l; auto | auto].
    + intros Hall. split; [|auto].
      destruct (Hall word) as (l' & E' & Hl'); [auto|]. congruence.
  - exists []. split; [reflexivity|]. intros d. split; [intros []|].
    intros Hall. destruct (Hall word) as (l' & E' & _); [auto|].
    congruence.
Qed.

(** C2, as amended.  For every documents mapping, every document id [d]
    in it and every non-empty term list [T], [query(T)] on the index
    built from the mapping returns a list, and [d] is in it if and only
    if the whitespace-split token list of [d]'s text contains every term
    of [T]. *)
Theorem query_intersection_correct (documents : dict Z str) d text T :
  dict_wf documents ->
  dict_get documents d = Some text ->
  T <> [] ->
  exists r,
    InvertedIndex.query (build_inverted_index documents) T = Ok r
    /\ (In d r <-> forall t, In t T -> In t (split text)).
Proof.
  intros Hwf Hd HT. destruct T as [|word words]; [congruence|].
  unfold InvertedIndex.query.
  destruct (query_loop_None (_index (build_inverted_index documents))
              word words) as (r & -> & Hr).
  exists r. split; [reflexivity|]. rewrite Hr. split.
  - intros Hall t Ht. apply Hall, posts_build in Ht.
    destruct Ht as (text' & Hin & Hw).
    apply (In_dict_get _ _ _ Hwf) in Hin. congruence.
  - intros Hall w Hw. apply posts_build. exists text.
    split; [now apply dict_get_Some_In | auto].
Qed.

Lemma query_intersection_correct_witness :
  exists r,
    InvertedIndex.query
      (build_inverted_index [(547, py "The Adventures"); (645, py "The House")])
      [py "The"; py "House"] = Ok r
    /\ (In 645 r <->
        forall t, In t [py "The"; py "House"] -> In t (split (py "The House"))).
Proof.
  apply query_intersection_correct.
  - solve_dict_wf.
  - reflexivity.
  - discriminate.
Defined.

(** C2, as stated, fails for the empty term list: every document
    contains "every term" of it, and [query([])] has no members, for it
    returns no list at all ([TypeError]). *)
Lemma query_no_terms_counterexample :
  let documents : dict Z str := [(1, py "a")] in
  dict_wf documents
  /\ dict_get documents 1 = Some (py "a")
  /\ (forall t, In t [] -> In t (split (py "a")))
  /\ InvertedIndex.query (build_inverted_index documents) []
     = Raise TypeError
  /\ ~ (exists r,
         InvertedIndex.query (build_inverted_index documents) [] = Ok r
         /\ (In 1 r <-> forall t, In t [] -> In t (split (py "a")))).
Proof.
  cbv zeta. split; [solve_dict_wf|]. split; [reflexivity|].
  split; [intros t []|]. split; [reflexivity|].
  intros (r & E & _). discriminate.
Qed.

(** C5: the code does not return the empty result for an empty term
    list.  The loop body never runs, [tmp] is still [None], and
    [list(None)] raises [TypeError]; on the store, nothing is allocated
    and no key is looked up. *)
Theorem query_empty_terms_raises (self : InvertedIndex)
    (instance : Store.instance) (s : Store.store) :
  InvertedIndex.query self [] = Raise TypeError
  /\ Store.query instance [] s = (Raise TypeError, s).
Proof. split; reflexivity. Qed.

(** ** query on a store *)

Module StoreFacts.
Import Store.

Lemma extends_refl h : extends h h.
Proof. exists []. now rewrite app_nil_r. Qed.

Lemma extends_alloc h0 h o : extends h0 h -> extends h0 (h ++ [o]).
Proof. intros [new ->]. exists (new ++ [o]). now rewrite app_assoc. Qed.


Lemma replace_nth_app_r l o h0 new :
  (List.length h0 <= l)%nat ->
  replace_nth l o (h0 ++ new)
  = h0 ++ replace_nth (l - List.length h0)%nat o new.
Proof.
  revert l. induction h0 as [|o' h0 IH]; intros l Hl; simpl.
  - now rewrite Nat.sub_0_r.
  - destruct l as [|l]; [simpl in Hl; lia|].
    simpl. rewrite IH by (simpl in Hl; lia). reflexivity.
Qed.

Lemma extends_assign h0 h l o :
  (List.length h0 <= l)%nat -> extends h0 h -> extends h0 (replace_nth l o h).
Proof.
  intros Hl [new ->]. rewrite replace_nth_app_r by assumption. eexists.
  reflexivity.
Qed.

Lemma nth_error_replace_nth_same l o h :
  (l < List.length h)%nat -> nth_error (replace_nth l o h) l = Some o.
Proof.
  revert l. induction h as [|o' h IH]; intros [|l] Hl; simpl in *;
    try lia; [reflexivity | apply IH; lia].
Qed.


Lemma extends_nth_error h0 h l o :
  extends h0 h -> nth_error h0 l = Some o -> nth_error h l = Some o.
Proof.
  intros [new ->] E. rewrite nth_error_app1; [assumption|].
  apply (nth_error_Some h0 l). congruence.
Qed.

Lemma nth_error_alloc (h : list obj) l o o' :
  nth_error h l = Some o -> nth_error (h ++ [o']) l = Some o.
Proof. apply extends_nth_error. now exists [o']. Qed.

Create HintDb store.
#[local] Hint Resolve extends_refl extends_alloc extends_assign
  extends_nth_error nth_error_alloc : store.

(** *** What each operation does to the heap *)

Lemma contains_heap d w s : heap (snd (contains d w s)) = heap s.
Proof.
  unfold contains, bind, deref, log, ret, lift.
  destruct (nth_error (heap s) d) as [[]|]; reflexivity.
Qed.

Lemma getitem_heap d w s : heap (snd (getitem d w s)) = heap s.
Proof.
  unfold getitem, bind, deref, log, ret, lift.
  destruct (nth_error (heap s) d) as [[]|]; reflexivity.
Qed.

Lemma set_of_heap x s :
  (exists e, fst (set_of x s) = Raise e /\ heap (snd (set_of x s)) = heap s)
  \/ (exists o, fst (set_of x s) = Ok (List.length (heap s))
               /\ heap (snd (set_of x s)) = heap s ++ [o]).
Proof.
  unfold set_of, bind, deref, alloc, lift.
  destruct (nth_error (heap s) x) as [[]|]; simpl; eauto.
Qed.

Lemma intersection_update_heap t u s :
  heap (snd (intersection_update t u s)) = heap s
  \/ exists o, heap (snd (intersection_update t u s))
               = replace_nth t o (heap s).
Proof.
  unfold intersection_update, bind, deref, assign, lift.
  destruct (nth_error (heap s) t) as [[]|]; simpl; auto;
    destruct (nth_error (heap s) u) as [[]|]; simpl; eauto.
Qed.

Lemma list_of_heap tmp s :
  heap (snd (list_of tmp s)) = heap s
  \/ exists o, heap (snd (list_of tmp s)) = heap s ++ [o].
Proof.
  unfold list_of, bind, deref, alloc, lift.
  destruct tmp as [t|]; simpl; auto.
  destruct (nth_error (heap s) t) as [[]|]; simpl; eauto.
Qed.

(** The loop writes only to objects it has allocated itself. *)
Lemma query_loop_frame h0 self_index words :
  forall tmp s,
    extends h0 (heap s) ->
    (forall t, tmp = Some t -> (List.length h0 <= t)%nat) ->
    extends h0 (heap (snd (query_loop self_index tmp words s))).
Proof.
  induction words as [|word words IH]; intros tmp s Hext Htmp.
  - simpl. destruct (list_of_heap tmp s) as [->|[o ->]];
      auto with store.
  - cbn [query_loop]. unfold bind at 1.
    pose proof (contains_heap self_index word s) as Hc.
    destruct (contains self_index word s) as [[found|e] s1]; simpl in Hc;
      [|simpl; now rewrite Hc].
    assert (Hext1 : extends h0 (heap s1)) by now rewrite Hc.
    destruct found.
    + assert (Hstep : forall (k : loc -> st loc),
                 (forall u s3, extends h0 (heap s3) ->
                    (List.length h0 <= u)%nat ->
                    (List.length (heap s3) = S u) ->
                    extends h0 (heap (snd (k u s3)))) ->
                 extends h0
                   (heap (snd ((p <- getitem self_index word ;;
                                u <- set_of p ;; k u) s1)))).
      { intros k Hk. unfold bind at 1.
        pose proof (getitem_heap self_index word s1) as Hg.
        destruct (getitem self_index word s1) as [[p|e] s2]; simpl in Hg;
          [|simpl; now rewrite Hg].
        assert (Hext2 : extends h0 (heap s2)) by now rewrite Hg.
        unfold bind at 1.
        destruct (set_of_heap p s2) as [(e & Hr & Hh)|(o & Hr & Hh)];
          destruct (set_of p s2) as [r s3]; simpl in Hr, Hh; subst r.
        - simpl. now rewrite Hh.
        - apply Hk.
          + rewrite Hh. auto with store.
          + destruct Hext2 as [new ->]. rewrite length_app. lia.
          + rewrite Hh, length_app. simpl. lia. }
      destruct tmp as [t|].
      * apply Hstep. intros u s3 Hext3 Hu Hlen. unfold bind at 1.
        destruct (intersection_update_heap t u s3) as [Hh|[o Hh]];
          destruct (intersection_update t u s3) as [[[]|e] s4];
          simpl in Hh; try (simpl; now rewrite Hh).
        -- apply IH; [now rewrite Hh | assumption].
        -- apply IH; [|assumption]. rewrite Hh. auto with store.
        -- simpl. rewrite Hh. auto with store.
      * apply Hstep. intros u s3 Hext3 Hu Hlen.
        apply IH; [assumption|]. now intros t [= <-].
    + simpl. auto with store.
Qed.

(** *** What each operation returns on well-typed references *)

Lemma contains_ok (d : loc) w s entries :
  nth_error (heap s) d = Some (PyDict entries) ->
  contains d w s
  = (Ok (dict_mem entries w),
     {| heap := heap s; lookups := lookups s ++ [Contains d w] |}).
Proof. unfold contains, bind, deref. now intros ->. Qed.

Lemma getitem_ok (d : loc) w s entries (p : loc) :
  nth_error (heap s) d = Some (PyDict entries) ->
  dict_get entries w = Some p ->
  getitem d w s
  = (Ok p, {| heap := heap s; lookups := lookups s ++ [GetItem d w] |}).
Proof.
  unfold getitem, bind, deref, dict_item, log, lift. intros -> E. simpl.
  now rewrite E.
Qed.

Lemma set_of_ok (x : loc) s items :
  nth_error (heap s) x = Some (PyList items) ->
  set_of x s
  = (Ok (List.length (heap s)),
     {| heap := heap s ++ [PySet (py_set items)]; lookups := lookups s |}).
Proof. unfold set_of, bind, deref. now intros ->. Qed.

Lemma intersection_update_ok (t u : loc) s x y :
  nth_error (heap s) t = Some (PySet x) ->
  nth_error (heap s) u = Some (PySet y) ->
  intersection_update t u s
  = (Ok tt,
     {| heap := replace_nth t (PySet (set_inter Z.eq_dec x y)) (heap s);
        lookups := lookups s |}).
Proof. unfold intersection_update, bind, deref. now intros -> ->. Qed.

Lemma list_of_ok (t : loc) s x :
  nth_error (heap s) t = Some (PySet x) ->
  list_of (Some t) s
  = (Ok (List.length (heap s)),
     {| heap := heap s ++ [PyList (py_list x)]; lookups := lookups s |}).
Proof. unfold list_of, bind, deref. now intros ->. Qed.

Lemma nth_error_last (h : list obj) o :
  nth_error (h ++ [o]) (List.length h) = Some o.
Proof. rewrite nth_error_app2, Nat.sub_diag by lia. reflexivity. Qed.

Lemma read_entries_get h entries index w :
  read_entries h entries = Some index ->
  match dict_get entries w with
  | Some p =>
      exists l, nth_error h p = Some (PyList l) /\ dict_get index w = Some l
  | None => dict_get index w = None
  end.
Proof.
  revert index. induction entries as [|[k p] entries IH]; intros index;
    cbn [read_entries dict_get].
  - now intros [= <-].
  - unfold read_list.
    destruct (nth_error h p) as [[l| |]|] eqn:E; try discriminate.
    destruct (read_entries h entries) as [r|]; [|discriminate].
    intros [= <-]. cbn [dict_get].
    destruct (key_eqb k w); [eauto | now apply IH].
Qed.

Lemma read_entries_mem h entries index w :
  read_entries h entries = Some index ->
  dict_mem entries w = dict_mem index w.
Proof.
  intros Hr. apply (read_entries_get _ _ _ w) in Hr. unfold dict_mem.
  destruct (dict_get entries w) as [p|].
  - destruct Hr as (l & _ & ->). reflexivity.
  - now rewrite Hr.
Qed.

Lemma read_entries_extends h0 h entries index :
  extends h0 h ->
  read_entries h0 entries = Some index -> read_entries h entries = Some index.
Proof.
  intros Hext. revert index.
  induction entries as [|[k p] entries IH]; intros index; simpl; [auto|].
  unfold read_list.
  destruct (nth_error h0 p) as [[l| |]|] eqn:E; try discriminate.
  rewrite (extends_nth_error _ _ _ _ Hext E).
  destruct (read_entries h0 entries) as [r|]; [|discriminate].
  now rewrite (IH r eq_refl).
Qed.

Lemma read_index_extends h0 h d index :
  extends h0 h -> read_index h0 d = Some index -> read_index h d = Some index.
Proof.
  intros Hext. unfold read_index.
  destruct (nth_error h0 d) as [[| |entries]|] eqn:E; try discriminate.
  rewrite (extends_nth_error _ _ _ _ Hext E).
  now apply read_entries_extends.
Qed.

(** *** The loop on a store against the loop on values *)

Section Refinement.
Variables (h0 : list obj) (d : loc) (entries : dict str loc) (index : index_t).
Hypothesis Hdict : nth_error h0 d = Some (PyDict entries).
Hypothesis Hentries : read_entries h0 entries = Some index.

Lemma query_loop_refines words :
  forall tmp vtmp s,
    extends h0 (heap s) ->
    tmp_is h0 (heap s) tmp vtmp ->
    lookups (snd (query_loop d tmp words s))
    = lookups s ++ expected_lookups index d words
    /\ match fst (query_loop d tmp words s) with
       | Ok p =>
           exists l,
             read_list (heap (snd (query_loop d tmp words s))) p = Some l
             /\ InvertedIndex.query_loop index vtmp words = Ok l
       | Raise e => InvertedIndex.query_loop index vtmp words = Raise e
       end.
Proof.
  induction words as [|word words IH]; intros tmp vtmp s Hext Htmp.
  - cbn [query_loop expected_lookups InvertedIndex.query_loop].
    rewrite app_nil_r.
    destruct tmp as [t|], vtmp as [x|]; simpl in Htmp; try contradiction.
    + destruct Htmp as [_ Ht]. rewrite (list_of_ok _ _ _ Ht). simpl.
      split; [reflexivity|]. exists (py_list x). unfold read_list.
      now rewrite nth_error_last.
    + simpl. auto.
  - pose proof (extends_nth_error _ _ _ _ Hext Hdict) as Hd.
    cbn [query_loop expected_lookups InvertedIndex.query_loop].
    erewrite bind_Ok by (apply contains_ok; exact Hd).
    rewrite (read_entries_mem _ _ _ word Hentries).
    pose proof (read_entries_get _ _ _ word Hentries) as Hget.
    unfold dict_mem, dict_item in *.
    destruct (dict_get index word) as [l|] eqn:E.
    + destruct (dict_get entries word) as [p|] eqn:Ep;
        [|congruence].
      destruct Hget as (l' & Hp & [= <-]).
      pose proof (extends_nth_error _ _ _ _ Hext Hp) as Hp'.
      cbn [rbind].
      destruct tmp as [t|], vtmp as [x|]; simpl in Htmp; try contradiction.
      * destruct Htmp as [Hlen Ht].
        erewrite bind_Ok by (eapply getitem_ok; [exact Hd | exact Ep]).
        erewrite bind_Ok by (apply set_of_ok; exact Hp').
        erewrite bind_Ok
          by (eapply intersection_update_ok; cbn [heap];
              [apply nth_error_alloc; exact Ht | apply nth_error_last]).
        match goal with
        | |- context [query_loop d (Some t) words ?s4] =>
            destruct (IH (Some t) (Some (set_inter Z.eq_dec x (py_set l))) s4)
              as [IHl IHr]
        end.
        { cbn [heap]. apply extends_assign; [assumption|].
          now apply extends_alloc. }
        { cbn [heap tmp_is]. split; [assumption|].
          apply nth_error_replace_nth_same. rewrite length_app.
          assert (t < List.length (heap s))%nat
            by (apply nth_error_Some; congruence).
          lia. }
        split; [|exact IHr].
        rewrite IHl. cbn [lookups]. now rewrite <- !app_assoc.
      * erewrite bind_Ok by (eapply getitem_ok; [exact Hd | exact Ep]).
        erewrite bind_Ok by (apply set_of_ok; exact Hp').
        match goal with
        | |- context [query_loop d ?tmp words ?s3] =>
            destruct (IH tmp (Some (py_set l)) s3) as [IHl IHr]
        end.
        { cbn [heap]. now apply extends_alloc. }
        { cbn [heap tmp_is]. split; [|apply nth_error_last].
          destruct Hext as [new ->]. rewrite length_app. lia. }
        split; [|exact IHr].
        rewrite IHl. cbn [lookups]. now rewrite <- !app_assoc.
    + unfold alloc. cbn [fst snd heap lookups].
      split; [reflexivity|]. exists []. unfold read_list.
      now rewrite nth_error_last.
Qed.

End Refinement.

(** [query] on a store computes what [query] on values computes, and
    makes the expected look-ups. *)
Lemma query_refines (self : instance) (index : index_t) words s :
  read_index (heap s) (index_ref self) = Some index ->
  lookups (snd (query self words s))
  = lookups s ++ expected_lookups index (index_ref self) words
  /\ match fst (query self words s) with
     | Ok p =>
         exists l,
           read_list (heap (snd (query self words s))) p = Some l
           /\ InvertedIndex.query {| _index := index |} words = Ok l
     | Raise e => InvertedIndex.query {| _index := index |} words = Raise e
     end.
Proof.
  unfold read_index, query, InvertedIndex.query. cbn [_index].
  destruct (nth_error (heap s) (index_ref self)) as [[| |entries]|] eqn:E;
    try discriminate.
  intros Hentries.
  apply (query_loop_refines (heap s) (index_ref self) entries index E Hentries
           words None None s); [apply extends_refl | exact Logic.I].
Qed.

End StoreFacts.

(** ** Short circuit *)

Lemma first_absent (index : index_t) (T : list str) (t : str) :
  In t T -> dict_mem index t = false ->
  exists pre w post,
    T = pre ++ w :: post
    /\ (forall x, In x pre -> dict_mem index x = true)
    /\ dict_mem index w = false.
Proof.
  induction T as [|a T IH]; simpl; [tauto|].
  intros Hin Ht. destruct (dict_mem index a) eqn:Ea.
  - destruct Hin as [->|Hin]; [congruence|].
    destruct (IH Hin Ht) as (pre & w & post & -> & Hpre & Hw).
    exists (a :: pre), w, post. repeat split; [|assumption].
    intros x [<-|Hx]; auto.
  - exists [], a, T. repeat split; [|assumption]. intros x [].
Qed.

Lemma query_loop_absent (index : index_t) pre w post :
  (forall x, In x pre -> dict_mem index x = true) ->
  dict_mem index w = false ->
  forall tmp,
    InvertedIndex.query_loop index tmp (pre ++ w :: post) = Ok [].
Proof.
  intros Hpre Hw. induction pre as [|a pre IH]; intros tmp; simpl.
  - now rewrite Hw.
  - rewrite Hpre by now left. unfold dict_item.
    assert (Ha : dict_mem index a = true) by (apply Hpre; now left).
    unfold dict_mem in Ha. destruct (dict_get index a); [|discriminate].
    simpl. destruct tmp; apply IH; intros x Hx; apply Hpre; now right.
Qed.

Lemma expected_lookups_absent (index : index_t) d pre w post :
  (forall x, In x pre -> dict_mem index x = true) ->
  dict_mem index w = false ->
  expected_lookups index d (pre ++ w :: post)
  = flat_map (fun x => [Store.Contains d x; Store.GetItem d x]) pre
    ++ [Store.Contains d w].
Proof.
  intros Hpre Hw. induction pre as [|a pre IH]; simpl.
  - now rewrite Hw.
  - rewrite Hpre by now left. rewrite IH; [reflexivity|].
    intros x Hx. apply Hpre. now right.
Qed.

(** C4.  When some term of [T] is not a key of the index, [query(T)]
    returns the empty list whatever the other terms are; and the only
    look-ups made are those of the terms before the first absent one and
    the membership test of that one: no term after it is looked up. *)
Theorem query_short_circuit (self : Store.instance) (s : Store.store)
    (index : index_t) (T : list str) (t : str) :
  Store.read_index (Store.heap s) (Store.index_ref self) = Some index ->
  In t T ->
  dict_mem index t = false ->
  InvertedIndex.query {| _index := index |} T = Ok []
  /\ exists pre w post,
       T = pre ++ w :: post
       /\ (forall x, In x pre -> dict_mem index x = true)
       /\ dict_mem index w = false
       /\ (exists p,
             fst (Store.query self T s) = Ok p
             /\ Store.read_list (Store.heap (snd (Store.query self T s))) p
                = Some [])
       /\ Store.lookups (snd (Store.query self T s))
          = Store.lookups s
            ++ flat_map (fun x => [Store.Contains (Store.index_ref self) x;
                                   Store.GetItem (Store.index_ref self) x])
                 pre
            ++ [Store.Contains (Store.index_ref self) w].
Proof.
  intros Hindex Hin Ht.
  destruct (first_absent index T t Hin Ht) as (pre & w & post & -> & Hpre & Hw).
  assert (Hq : InvertedIndex.query {| _index := index |} (pre ++ w :: post)
               = Ok []) by (now apply query_loop_absent).
  split; [exact Hq|]. exists pre, w, post.
  destruct (StoreFacts.query_refines self index (pre ++ w :: post) s Hindex)
    as [Hl Hr].
  repeat split; try assumption.
  - destruct (fst (Store.query self (pre ++ w :: post) s)) as [p|e].
    + destruct Hr as (l & Hread & Hl'). rewrite Hq in Hl'.
      injection Hl' as <-. eauto.
    + rewrite Hq in Hr. discriminate.
  - rewrite Hl. now rewrite expected_lookups_absent.
Qed.

Lemma query_short_circuit_witness :
  InvertedIndex.query {| _index := [(py "a", [1; 2]); (py "b", [2])] |}
    [py "a"; py "zz"; py "b"] = Ok []
  /\ Store.lookups
       (snd (Store.query example_instance [py "a"; py "zz"; py "b"]
               example_store))
     = [Store.Contains 2%nat (py "a"); Store.GetItem 2%nat (py "a");
        Store.Contains 2%nat (py "zz")].
Proof.
  destruct (query_short_circuit example_instance example_store
              [(py "a", [1; 2]); (py "b", [2])]
              [py "a"; py "zz"; py "b"] (py "zz"))
    as [Hq _].
  - reflexivity.
  - simpl. auto.
  - reflexivity.
  - split; [exact Hq | reflexivity].
Defined.

(** ** query does not write to the index *)

(** C10.  Evaluating [query] leaves every object that existed before the
    call as it was: the heap is only extended.  In particular the dict of
    the index and each of its posting lists are unchanged, and the index
    holds the same mapping after the call. *)
Theorem query_leaves_index_unchanged (self : Store.instance)
    (words : list str) (s : Store.store) (index : index_t) :
  Store.read_index (Store.heap s) (Store.index_ref self) = Some index ->
  extends (Store.heap s) (Store.heap (snd (Store.query self words s)))
  /\ (forall l o,
        nth_error (Store.heap s) l = Some o ->
        nth_error (Store.heap (snd (Store.query self words s))) l = Some o)
  /\ Store.read_index (Store.heap (snd (Store.query self words s)))
       (Store.index_ref self) = Some index.
Proof.
  intros Hindex.
  assert (Hext : extends (Store.heap s)
                   (Store.heap (snd (Store.query self words s)))).
  { apply StoreFacts.query_loop_frame; [apply StoreFacts.extends_refl|].
    discriminate. }
  split; [exact Hext|]. split.
  - intros l o. now apply StoreFacts.extends_nth_error.
  - now apply (StoreFacts.read_index_extends (Store.heap s)).
Qed.

Lemma query_leaves_index_unchanged_witness :
  Store.read_index
    (Store.heap (snd (Store.query example_instance [py "a"; py "b"]
                        example_store))) 2%nat
  = Some [(py "a", [1; 2]); (py "b", [2])].
Proof.
  apply (query_leaves_index_unchanged example_instance [py "a"; py "b"]
           example_store [(py "a", [1; 2]); (py "b", [2])]).
  reflexivity.
Defined.

(** * Further properties of the module *)

(** ** What [dump] raises and what it leaves in the file *)

Lemma bind_Raise {S A B} (m : stateM S A) (k : A -> stateM S B) s e s' :
  m s = (Raise e, s') -> bind m k s = (Raise e, s').
Proof. unfold bind. now intros ->. Qed.

Lemma pack_Raise bo f z e : pack bo f z = Raise e -> e = StructError.
Proof. unfold pack. destruct (_ && _); [discriminate | now intros [= <-]]. Qed.

Lemma pack_all_Raise bo f zs e :
  pack_all bo f zs = Raise e -> e = StructError.
Proof.
  induction zs as [|z zs IH]; simpl; [discriminate|].
  destruct (pack bo f z) as [b|e1] eqn:P; simpl.
  - destruct (pack_all bo f zs) as [bs|e2]; simpl; [discriminate|].
    intros [= <-]. now apply IH.
  - intros [= <-]. now apply pack_Raise in P.
Qed.

Lemma unpack_Raise bo f data e : unpack bo f data = Raise e -> e = StructError.
Proof.
  unfold unpack. destruct (Nat.eqb _ _); [discriminate | now intros [= <-]].
Qed.

Lemma unpack_all_Raise bo f count data e :
  unpack_all bo f count data = Raise e -> e = StructError.
Proof.
  unfold unpack_all.
  destruct (Nat.eqb _ _); [discriminate | now intros [= <-]].
Qed.

(** X1.  Whenever [self.dump(policy, path)] returns, for an index that
    holds each term once, [InvertedIndex.load(policy, path)] returns an
    instance with the very same dict: same terms in the same order, same
    posting lists in the same order, whatever the file held before. *)
Theorem dump_then_load_same_index mem bo (self : InvertedIndex) file file' :
  dict_wf (_index self) ->
  InvertedIndex.dump self (StructPolicy mem bo) file = (Ok tt, file') ->
  InvertedIndex.load (StructPolicy mem bo) file' = Some (Ok self).
Proof.
  intros Hwf D. unfold InvertedIndex.dump, InvertedIndex.load in *.
  cbn [policy_dump policy_load StructPolicy] in *.
  rewrite (load_dump mem bo file (_index self) file' Hwf D). simpl.
  now destruct self.
Qed.

Lemma dump_then_load_same_index_witness :
  InvertedIndex.load (StructPolicy ample_memory Big)
    (Some [x00; x00; x00; x07; x00; x01; x61; x00; x02; x00; x07; x00; x03])
  = Some (Ok {| _index := [(py "a", [7; 3])] |}).
Proof.
  apply (dump_then_load_same_index ample_memory Big
           {| _index := [(py "a", [7; 3])] |}
           (Some [xff])).
  - solve_dict_wf.
  - vm_compute. reflexivity.
Defined.

(** X2.  [dump] returns normally exactly for the indexes the format can
    hold: at least one term, no empty posting list, every id between 0
    and 2^32 - 1, every term encodable in UTF-8 in at most 65535 bytes,
    every posting list shorter than [256 ^ width]; for every other index
    it raises. *)
Theorem dump_returns_iff bo file index :
  (exists file', StructStoragePolicy.dump bo file index = (Ok tt, file'))
  <-> nonempty_index index
      /\ (forall k v x, In (k, v) index -> In x v -> 0 <= x < 4294967296)
      /\ (forall k v, In (k, v) index ->
            forallb encodable k = true /\ len (utf8_bytes k) < 65536)
      /\ (forall m k v, is_max_id index m -> In (k, v) index ->
            len v < 256 ^ Z.of_nat (calcsize (width_of m))).
Proof.
  split.
  - intros [file' D]. eapply dump_Ok_representable; eauto.
  - intros (Hne & Hids & Hterms & Hcounts).
    destruct (dump_representable bo file index Hne Hids Hterms Hcounts)
      as (m & _ & D).
    eauto.
Qed.

Lemma dump_returns_iff_witness :
  exists file',
    StructStoragePolicy.dump Little None [(py "a", [7; 3])] = (Ok tt, file').
Proof.
  apply (proj2 (dump_returns_iff Little None [(py "a", [7; 3])])).
  split; [|split; [|split]].
  - split; [discriminate|]. repeat constructor; discriminate.
  - intros k v x [E|[]]; inversion E; subst; simpl; intuition lia.
  - intros k v [E|[]]; inversion E; subst; split;
      solve [reflexivity | vm_compute; reflexivity].
  - intros m k v _ [E|[]]; inversion E; subst;
      unfold width_of; destruct (m <? 65535); vm_compute; reflexivity.
Defined.

Lemma pack_Raise_range bo f z e :
  pack bo f z = Raise e -> ~ 0 <= z < 256 ^ Z.of_nat (calcsize f).
Proof.
  intros P Hz. rewrite (pack_in_range bo f z Hz) in P. discriminate.
Qed.

(** When [dump_item] raises, the entry does not fit the format, and the
    fields before the one that fails have been written. *)
Lemma dump_item_Raise w k v s e s' :
  StructStoragePolicy.dump_item w k v s = (Raise e, s') ->
  ~ record_fits w (k, v)
  /\ e = failure_of (k, v)
  /\ s' = s ++ written_before_failure w (k, v).
Proof.
  unfold StructStoragePolicy.dump_item, bind, lift, fio_write, utf8_encode,
    record_fits, failure_of, written_before_failure. cbn [fst snd].
  pose proof (len_nonneg (utf8_bytes k)) as Hk.
  pose proof (len_nonneg v) as Hv.
  destruct (forallb encodable k) eqn:Enc; cbn [andb].
  2:{ intros [= <- <-]. rewrite app_nil_r.
      split; [intros [H _]; discriminate | auto]. }
  destruct (pack Big FmtH (len (utf8_bytes k))) as [b1|e1] eqn:P1.
  2:{ intros [= <- <-]. pose proof (pack_Raise _ _ _ _ P1) as ->.
      apply pack_Raise_range in P1. rewrite pow_FmtH in P1.
      destruct (Z.ltb_spec (len (utf8_bytes k)) 65536); [lia|].
      rewrite app_nil_r. split; [intros (_ & H' & _); lia | auto]. }
  apply pack_Ok in P1. rewrite pow_FmtH in P1. destruct P1 as [Hk' ->].
  destruct (Z.ltb_spec (len (utf8_bytes k)) 65536); [|lia].
  change (order_bytes Big (calcsize FmtH) (len (utf8_bytes k)))
    with (be_bytes 2 (len (utf8_bytes k))).
  destruct (pack Big w (len v)) as [b2|e2] eqn:P2.
  2:{ intros [= <- <-]. pose proof (pack_Raise _ _ _ _ P2) as ->.
      apply pack_Raise_range in P2.
      destruct (Z.ltb_spec (len v) (256 ^ Z.of_nat (calcsize w))); [lia|].
      rewrite app_nil_r, <- !app_assoc.
      split; [intros (_ & _ & H' & _); lia | auto]. }
  apply pack_Ok in P2. destruct P2 as [Hv' ->].
  destruct (Z.ltb_spec (len v) (256 ^ Z.of_nat (calcsize w))); [|lia].
  change (order_bytes Big (calcsize w) (len v))
    with (be_bytes (calcsize w) (len v)).
  destruct (pack_all Big w v) as [b3|e3] eqn:P3; [discriminate|].
  intros [= <- <-]. pose proof (pack_all_Raise _ _ _ _ P3) as ->.
  rewrite <- !app_assoc. split; [|auto].
  intros (_ & _ & _ & Hall).
  rewrite (pack_all_in_range Big w v Hall) in P3. discriminate.
Qed.

(** When the loop of [dump] raises, it has written the records of the
    entries before the first that does not fit, and the first fields of
    that one. *)
Lemma dump_items_Raise w index :
  forall s e s',
    StructStoragePolicy.dump_items w index s = (Raise e, s') ->
    exists pre kv post,
      index = pre ++ kv :: post
      /\ Forall (record_fits w) pre
      /\ ~ record_fits w kv
      /\ e = failure_of kv
      /\ s' = s ++ records_bytes w pre ++ written_before_failure w kv.
Proof.
  induction index as [|[k v] index IH]; intros s e s';
    cbn [StructStoragePolicy.dump_items]; [discriminate|].
  destruct (StructStoragePolicy.dump_item w k v s) as [[[]|e1] s1] eqn:E.
  - rewrite (bind_Ok _ _ _ _ _ E). intros D.
    pose proof (dump_item_Ok _ _ _ _ _ E) as Hfits.
    rewrite (dump_item_fits w k v s Hfits) in E. injection E as <-.
    destruct (IH _ _ _ D) as (pre & kv & post & -> & Hpre & Hkv & He & ->).
    exists ((k, v) :: pre), kv, post.
    split; [reflexivity|]. split; [now constructor|].
    split; [assumption|]. split; [assumption|].
    rewrite records_bytes_cons, <- !app_assoc. reflexivity.
  - rewrite (bind_Raise _ _ _ _ _ E). intros [= <- <-].
    destruct (dump_item_Raise _ _ _ _ _ _ E) as (Hkv & He & Hs).
    exists [], (k, v), index. cbn [app].
    split; [reflexivity|]. split; [constructor|].
    split; [assumption|]. split; [assumption|]. exact Hs.
Qed.

(** X3.  When [dump] raises, the file is left in one of three states.
    The [ValueError] of [max], on an index without terms or with an empty
    posting list, leaves it untouched.  [struct.error] on a largest id
    that does not fit in 32 bits leaves it empty.  Otherwise the file
    holds exactly the header, the whole records of the entries before the
    first one that does not fit the format, and of that entry the fields
    before the one that fails ([written_before_failure]); the exception
    is [UnicodeEncodeError] if its term cannot be encoded and
    [struct.error] if not. *)
Theorem dump_failure_file bo file index e file' :
  StructStoragePolicy.dump bo file index = (Raise e, file') ->
  (e = ValueError /\ file' = file /\ ~ nonempty_index index)
  \/ (exists m,
        is_max_id index m /\ ~ 0 <= m < 4294967296
        /\ e = StructError /\ file' = Some [])
  \/ (exists m pre kv post,
        is_max_id index m /\ 0 <= m < 4294967296
        /\ index = pre ++ kv :: post
        /\ Forall (record_fits (width_of m)) pre
        /\ ~ record_fits (width_of m) kv
        /\ e = failure_of kv
        /\ file' = Some (header_bytes bo m
                         ++ records_bytes (width_of m) pre
                         ++ written_before_failure (width_of m) kv)).
Proof.
  unfold StructStoragePolicy.dump. fold (index_max index).
  destruct (index_max index) as [m|e'] eqn:E.
  - fold (width_of m). intros D. right.
    apply index_max_Ok in E. destruct E as [_ Hmax].
    destruct (pack bo FmtI m) as [b|e1] eqn:P.
    + right. cbv beta iota delta [bind lift fio_write] in D. cbn [app] in D.
      apply pack_Ok in P. rewrite pow_FmtI in P. destruct P as [Hm ->].
      destruct (StructStoragePolicy.dump_items _ _ _) as [r s'] eqn:DI.
      injection D as -> <-.
      destruct (dump_items_Raise _ _ _ _ _ DI)
        as (pre & kv & post & Hidx & Hpre & Hkv & He & ->).
      exists m, pre, kv, post. unfold header_bytes. auto 10.
    + left. cbv beta iota delta [bind lift fio_write] in D.
      injection D as <- <-. pose proof (pack_Raise _ _ _ _ P) as ->.
      apply pack_Raise_range in P. rewrite pow_FmtI in P.
      exists m. auto.
  - intros [= <- <-]. left. apply index_max_Raise in E. tauto.
Qed.

Lemma dump_failure_file_witness :
  (StructError = ValueError
   /\ Some [x02; x00; x00; x00; x00; x01; x61; x00; x02] = Some [xff]
   /\ ~ nonempty_index [(py "a", [-1; 2])])
  \/ (exists m,
        is_max_id [(py "a", [-1; 2])] m /\ ~ 0 <= m < 4294967296
        /\ StructError = StructError
        /\ Some [x02; x00; x00; x00; x00; x01; x61; x00; x02] = Some [])
  \/ (exists m pre kv post,
        is_max_id [(py "a", [-1; 2])] m /\ 0 <= m < 4294967296
        /\ [(py "a", [-1; 2])] = pre ++ kv :: post
        /\ Forall (record_fits (width_of m)) pre
        /\ ~ record_fits (width_of m) kv
        /\ StructError = failure_of kv
        /\ Some [x02; x00; x00; x00; x00; x01; x61; x00; x02]
           = Some (header_bytes Little m
                   ++ records_bytes (width_of m) pre
                   ++ written_before_failure (width_of m) kv)).
Proof.
  apply (dump_failure_file Little (Some [xff]) [(py "a", [-1; 2])]).
  vm_compute. reflexivity.
Defined.

Lemma dump_items_app w a b s :
  StructStoragePolicy.dump_items w (a ++ b) s
  = (StructStoragePolicy.dump_items w a ;;;
     StructStoragePolicy.dump_items w b) s.
Proof.
  revert s. induction a as [|[k v] a IH]; intros s; simpl.
  - reflexivity.
  - unfold bind in *.
    destruct (StructStoragePolicy.dump_item w k v s) as [[[]|e] s1];
      [apply IH | reflexivity].
Qed.

Lemma dump_item_unwritable w k v s :
  ~ (forallb encodable k = true /\ len (utf8_bytes k) < 65536) ->
  exists e, StructStoragePolicy.dump_item w k v s = (Raise e, s).
Proof.
  intros Hn.
  unfold StructStoragePolicy.dump_item, bind, lift, fio_write, utf8_encode.
  destruct (forallb encodable k); [|eauto].
  destruct (pack Big FmtH (len (utf8_bytes k))) as [b|e] eqn:P; [|eauto].
  apply pack_Ok in P. rewrite pow_FmtH in P. exfalso. apply Hn. split; [auto|].
  lia.
Qed.

(** X4.  In an index with at least one term, no empty posting list and
    a largest document id that fits in 32 bits, let a term be one that
    cannot be written (it does not encode in UTF-8, or takes more than
    65535 bytes), every entry before it fitting the format.  Then [dump]
    raises on reaching it and leaves a file that holds the header and the
    records of the entries before it, nothing of this term or the later
    ones; [load] reads that file without error, as the dict of the
    earlier entries only. *)
Theorem dump_unwritable_term mem bo file pre k v post m :
  nonempty_index (pre ++ (k, v) :: post) ->
  is_max_id (pre ++ (k, v) :: post) m ->
  0 <= m < 4294967296 ->
  Forall (record_fits (width_of m)) pre ->
  ~ (forallb encodable k = true /\ len (utf8_bytes k) < 65536) ->
  exists e,
    StructStoragePolicy.dump bo file (pre ++ (k, v) :: post)
    = (Raise e,
       Some (header_bytes bo m ++ records_bytes (width_of m) pre))
    /\ StructStoragePolicy.load mem bo
         (Some (header_bytes bo m ++ records_bytes (width_of m) pre))
       = Some (Ok (insert_all [] pre)).
Proof.
  intros Hne Hmax Hm Hpre Hk.
  assert (E : index_max (pre ++ (k, v) :: post) = Ok m)
    by (apply index_max_Ok; auto).
  destruct (dump_item_unwritable (width_of m) k v
              (header_bytes bo m ++ records_bytes (width_of m) pre) Hk)
    as [e He].
  exists e. split; [|now apply load_layout].
  unfold StructStoragePolicy.dump. fold (index_max (pre ++ (k, v) :: post)).
  rewrite E. fold (width_of m).
  erewrite bind_Ok
    by (unfold lift; rewrite pack_in_range by (rewrite pow_FmtI; lia);
        reflexivity).
  erewrite bind_Ok by reflexivity. cbn [app].
  rewrite dump_items_app.
  erewrite bind_Ok by (apply dump_items_fits; exact Hpre).
  cbn [StructStoragePolicy.dump_items].
  erewrite bind_Raise by exact He. reflexivity.
Qed.

Lemma dump_unwritable_term_witness :
  exists e,
    StructStoragePolicy.dump Little None
      ([(py "a", [1])] ++ ([55296], [2]) :: [(py "b", [1])])
    = (Raise e,
       Some (header_bytes Little 2
             ++ records_bytes (width_of 2) [(py "a", [1])]))
    /\ StructStoragePolicy.load ample_memory Little
         (Some (header_bytes Little 2
                ++ records_bytes (width_of 2) [(py "a", [1])]))
       = Some (Ok (insert_all [] [(py "a", [1])])).
Proof.
  apply dump_unwritable_term.
  - split; [discriminate|]. repeat constructor; discriminate.
  - split.
    + exists [55296], [2]. simpl. auto.
    + intros k v x [E|[E|[E|[]]]] Hx; inversion E; subst;
        destruct Hx as [<-|[]]; lia.
  - lia.
  - repeat constructor; simpl; lia.
  - intros [H _]. vm_compute in H. discriminate.
Defined.

(** ** What [load] accepts, returns and raises *)

(** X5.  [load] returns an index exactly for the files that are, from
    the first byte to the last, a 4-byte header and whole records laid
    out with the width the header selects; the index is then the records
    inserted in file order.  A file with bytes missing or bytes left over
    is never read as an index. *)
Theorem load_accepts_exactly_format mem bo content index :
  StructStoragePolicy.load mem bo (Some content) = Some (Ok index)
  <-> exists m items,
        0 <= m < 4294967296
        /\ Forall (record_fits (width_of m)) items
        /\ content = header_bytes bo m ++ records_bytes (width_of m) items
        /\ index = insert_all [] items.
Proof.
  split.
  - apply load_Ok_inv.
  - intros (m & items & Hm & Hfits & -> & ->). now apply load_layout.
Qed.

Lemma load_accepts_exactly_format_witness :
  exists m items,
    0 <= m < 4294967296
    /\ Forall (record_fits (width_of m)) items
    /\ [x09; x00; x00; x00; x00; x01; x61; x00; x01; x00; x07]
       = header_bytes Little m ++ records_bytes (width_of m) items
    /\ [(py "a", [7])] = insert_all [] items.
Proof.
  apply (proj1 (load_accepts_exactly_format ample_memory Little
                  [x09; x00; x00; x00; x00; x01; x61; x00; x01; x00; x07]
                  [(py "a", [7])])).
  vm_compute. reflexivity.
Defined.

Lemma load_record_Raise mem w sz fs index s e s' :
  StructStoragePolicy.load_record mem w sz fs index s = (Raise e, s') ->
  e = StructError \/ e = UnicodeDecodeError
  \/ (e = MemoryError /\ exists n, mem n = false).
Proof.
  unfold StructStoragePolicy.load_record, bind, lift, fio_read, ret.
  destruct (unpack Big FmtH _) as [L|e1] eqn:U1;
    [|intros [= <- _]; apply unpack_Raise in U1; auto].
  destruct (utf8_decode _) as [k|e2] eqn:D;
    [|intros [= <- _]; apply utf8_decode_Raise in D; auto].
  destruct (unpack Big w _) as [n|e3] eqn:U2;
    [|intros [= <- _]; apply unpack_Raise in U2; auto].
  unfold request.
  destruct ((n * sz <=? len _) || mem (n * sz)) eqn:R.
  - destruct (unpack_all Big w _ _) as [v|e4] eqn:U3;
      [discriminate | intros [= <- _]; apply unpack_all_Raise in U3; auto].
  - apply orb_false_iff in R. destruct R as [_ R].
    intros [= <- _]. right. right. split; [reflexivity|]. eauto.
Qed.

Lemma load_loop_Raise mem fuel w sz :
  forall fs index s e s',
    StructStoragePolicy.load_loop mem fuel w sz fs index s
    = Some (Raise e, s') ->
    e = StructError \/ e = UnicodeDecodeError
    \/ (e = MemoryError /\ exists n, mem n = false).
Proof.
  induction fuel as [|fuel IH]; intros fs index s e s'; simpl;
    destruct (fs >? 0); try discriminate.
  destruct (StructStoragePolicy.load_record mem w sz fs index s)
    as [[[fs1 index1]|e1] s1] eqn:E.
  - apply IH.
  - intros [= <- _]. now apply load_record_Raise in E.
Qed.

(** X6.  [load] ends on every file, whatever its bytes.  It returns an
    index or raises one of [FileNotFoundError] (exactly when there is no
    file), [struct.error], [UnicodeDecodeError] and [MemoryError],
    nothing else; [MemoryError] only on a machine that refuses some
    request for memory. *)
Theorem load_returns_or_raises mem bo file :
  exists r,
    StructStoragePolicy.load mem bo file = Some r
    /\ match r with
       | Ok _ => file <> None
       | Raise e =>
           (e = FileNotFoundError /\ file = None)
           \/ (file <> None
               /\ (e = StructError \/ e = UnicodeDecodeError
                   \/ (e = MemoryError /\ exists n, mem n = false)))
       end.
Proof.
  destruct (load_total mem bo file) as [r Hr]. exists r. split; [assumption|].
  unfold StructStoragePolicy.load in Hr. destruct file as [content|].
  - unfold bind, lift, fio_read in Hr.
    destruct (unpack bo FmtI (firstn 4 content)) as [m|e1] eqn:U.
    + destruct (StructStoragePolicy.load_loop mem _ _ _ _ _ _)
        as [[r' s']|] eqn:E; [|discriminate].
      simpl in Hr. injection Hr as <-.
      destruct r' as [index|e]; [discriminate|].
      right. split; [discriminate|]. now apply load_loop_Raise in E.
    + injection Hr as <-. apply unpack_Raise in U.
      right. split; [discriminate | auto].
  - injection Hr as <-. left. auto.
Qed.

Lemma dict_get_app {K V} `{Key K} (a b : dict K V) (k : K) :
  dict_get (a ++ b) k
  = match dict_get a k with Some v => Some v | None => dict_get b k end.
Proof.
  induction a as [|[k' v'] a IH]; simpl; [reflexivity|].
  destruct (key_eqb k' k); [reflexivity | apply IH].
Qed.

Lemma dict_get_insert_all (index items : index_t) (k : str) :
  dict_get (insert_all index items) k
  = match dict_get (rev items) k with
    | Some v => Some v
    | None => dict_get index k
    end.
Proof.
  revert index. induction items as [|[k' v'] items IH]; intros index.
  - reflexivity.
  - cbn [insert_all fold_left fst snd rev].
    fold (insert_all (dict_set index k' v') items).
    rewrite IH, dict_get_app, dict_get_set.
    destruct (dict_get (rev items) k); [reflexivity|].
    cbn [dict_get]. destruct (key_eqb k' k); reflexivity.
Qed.

Lemma insert_all_preserves_wf (index items : index_t) :
  dict_wf index -> dict_wf (insert_all index items).
Proof.
  revert index. induction items as [|[k v] items IH]; intros index Hwf;
    [assumption|].
  apply IH. now apply dict_set_wf.
Qed.

(** X7.  When a term has several records in a file, [load] keeps one
    entry for it, holding the postings of its last record: the dict it
    returns has each term once, and each term of the file maps to the
    postings of the last record that bears it. *)
Theorem load_last_record_wins mem bo m items :
  0 <= m < 4294967296 ->
  Forall (record_fits (width_of m)) items ->
  exists index,
    StructStoragePolicy.load mem bo
      (Some (header_bytes bo m ++ records_bytes (width_of m) items))
    = Some (Ok index)
    /\ dict_wf index
    /\ forall k, dict_get index k = dict_get (rev items) k.
Proof.
  intros Hm Hfits. exists (insert_all [] items).
  split; [now apply load_layout|]. split.
  - apply insert_all_preserves_wf. constructor.
  - intros k. rewrite dict_get_insert_all.
    now destruct (dict_get (rev items) k).
Qed.

Lemma load_last_record_wins_witness :
  exists index,
    StructStoragePolicy.load ample_memory Big
      (Some (header_bytes Big 9
             ++ records_bytes (width_of 9)
                  [(py "a", [1]); (py "b", [2]); (py "a", [9; 3])]))
    = Some (Ok index)
    /\ dict_wf index
    /\ forall k,
         dict_get index k
         = dict_get (rev [(py "a", [1]); (py "b", [2]); (py "a", [9; 3])]) k.
Proof.
  apply load_last_record_wins.
  - lia.
  - repeat constructor; simpl; lia.
Defined.

(** X8.  A file of fewer than 4 bytes, the empty file included, makes
    [load] raise [struct.error]; a file of exactly 4 bytes is read as the
    empty index, whatever the 4 bytes are. *)
Theorem load_short_files mem bo content :
  ((List.length content < 4)%nat ->
   StructStoragePolicy.load mem bo (Some content) = Some (Raise StructError))
  /\ (List.length content = 4%nat ->
      StructStoragePolicy.load mem bo (Some content) = Some (Ok [])).
Proof.
  unfold StructStoragePolicy.load, bind, lift, fio_read. split; intros Hlen.
  - rewrite firstn_all2 by lia. rewrite unpack_short; [reflexivity|].
    simpl. lia.
  - rewrite firstn_all2, skipn_all2 by lia.
    unfold unpack. rewrite Hlen. cbn [calcsize Nat.eqb].
    unfold len. rewrite Hlen. rewrite load_loop_done by lia. reflexivity.
Qed.

Lemma load_short_files_witness :
  StructStoragePolicy.load ample_memory Little (Some [x01; x02; x03])
  = Some (Raise StructError)
  /\ StructStoragePolicy.load ample_memory Little (Some [xff; xff; xff; xff])
     = Some (Ok []).
Proof.
  split.
  - apply (load_short_files ample_memory Little [x01; x02; x03]). simpl. lia.
  - apply (load_short_files ample_memory Little [xff; xff; xff; xff]).
    reflexivity.
Defined.

(** ** Tokens and whitespace *)

Lemma split_from_tokens (s : str) :
  forall cur,
    Forall (fun c => isspace c = false) cur ->
    Forall is_token (split_from cur s).
Proof.
  assert (Hcur : forall c cur,
             Forall (fun c => isspace c = false) (c :: cur) ->
             is_token (rev (c :: cur))).
  { intros c cur Hall. split.
    - simpl. intros E. apply app_eq_nil in E. destruct E as [_ E].
      discriminate.
    - now apply Forall_rev. }
  induction s as [|c s IH]; intros cur Hall; simpl.
  - destruct cur; [constructor | constructor; [now apply Hcur | constructor]].
  - destruct (isspace c) eqn:Ec.
    + destruct cur as [|c' cur].
      * apply IH. constructor.
      * constructor; [now apply Hcur | apply IH; constructor].
    + apply IH. now constructor.
Qed.

(** What [split] returns are tokens. *)
Lemma split_tokens (s : str) : Forall is_token (split s).
Proof. apply split_from_tokens. constructor. Qed.

Lemma split_from_nospace (t : str) :
  Forall (fun c => isspace c = false) t ->
  forall cur s, split_from cur (t ++ s) = split_from (rev t ++ cur) s.
Proof.
  induction 1 as [|c t Hc Ht IH]; intros cur s; simpl; [reflexivity|].
  rewrite Hc, IH, <- app_assoc. reflexivity.
Qed.

Lemma split_from_token (t : str) (s : str) :
  is_token t ->
  split_from [] (t ++ 32 :: s) = t :: split_from [] s
  /\ split_from [] t = [t].
Proof.
  intros [Hne Hall].
  assert (Hrev : exists c l, rev t = c :: l).
  { destruct (rev t) as [|c l] eqn:E; [|eauto].
    exfalso. apply Hne. rewrite <- (rev_involutive t), E. reflexivity. }
  destruct Hrev as (c & l & Hrev). split.
  - rewrite split_from_nospace by assumption. rewrite app_nil_r, Hrev.
    cbn [split_from]. change (isspace 32) with true. cbv iota.
    now rewrite <- Hrev, rev_involutive.
  - rewrite <- (app_nil_r t) at 1.
    rewrite split_from_nospace by assumption. rewrite app_nil_r, Hrev.
    cbn [split_from]. now rewrite <- Hrev, rev_involutive.
Qed.

(** Tokens joined by single spaces split into the same tokens. *)
Lemma split_join (toks : list str) :
  Forall is_token toks -> split (join (py " ") toks) = toks.
Proof.
  change (py " ") with [32]. unfold split.
  induction 1 as [|t toks Ht Htoks IH]; [reflexivity|].
  destruct toks as [|t' toks].
  - cbn [join]. now apply split_from_token.
  - change (join [32] (t :: t' :: toks))
      with (t ++ 32 :: join [32] (t' :: toks)).
    rewrite (proj1 (split_from_token t _ Ht)). now rewrite IH.
Qed.

Lemma split_lstrip (s : str) : split (lstrip s) = split s.
Proof.
  unfold split. induction s as [|c s IH]; simpl; [reflexivity|].
  destruct (isspace c) eqn:Ec; [assumption|].
  simpl. now rewrite Ec.
Qed.

Lemma split_from_trailing (sp : str) :
  Forall (fun c => isspace c = true) sp ->
  forall s cur, split_from cur (s ++ sp) = split_from cur s.
Proof.
  intros Hsp.
  assert (Hbase : forall cur, split_from cur sp = split_from cur []).
  { induction Hsp as [|c sp Hc Hsp IH]; intros cur; [reflexivity|].
    cbn [split_from]. rewrite Hc.
    destruct cur; rewrite IH; reflexivity. }
  induction s as [|c s IH]; intros cur; cbn [app split_from].
  - apply Hbase.
  - destruct (isspace c); [destruct cur|]; now rewrite IH.
Qed.

Lemma lstrip_decompose (s : str) :
  exists sp, Forall (fun c => isspace c = true) sp /\ s = sp ++ lstrip s.
Proof.
  induction s as [|c s (sp & Hsp & IH)]; simpl.
  - exists []. auto.
  - destruct (isspace c) eqn:Ec.
    + exists (c :: sp). split; [now constructor|]. simpl. now f_equal.
    + exists []. auto.
Qed.

(** [strip] before [split] changes nothing. *)
Lemma split_strip (s : str) : split (strip s) = split s.
Proof.
  unfold strip. rewrite <- (split_lstrip s).
  destruct (lstrip_decompose (rev (lstrip s))) as (sp & Hsp & E).
  apply (f_equal (@rev Z)) in E. rewrite rev_involutive, rev_app_distr in E.
  rewrite E at 2. unfold split.
  rewrite split_from_trailing; [reflexivity|]. now apply Forall_rev.
Qed.

(** ** Where the documents come from *)

Lemma load_row_tokens int documents row documents' :
  load_row int documents row = Ok documents' ->
  exists tok rest doc_id,
    split row = tok :: rest
    /\ int tok = Some doc_id
    /\ split (join (py " ") rest) = rest
    /\ documents' = dict_set documents doc_id (join (py " ") rest).
Proof.
  unfold load_row. rewrite split_strip.
  pose proof (split_tokens row) as Htok.
  destruct (split row) as [|tok rest]; [discriminate|].
  destruct (int tok) as [doc_id|] eqn:Hint; [|discriminate].
  intros [= <-]. exists tok, rest, doc_id.
  split; [reflexivity|]. split; [assumption|]. split; [|reflexivity].
  apply split_join. now inversion Htok.
Qed.

Lemma load_rows_provenance int rows :
  forall documents documents',
    load_rows int documents rows = Ok documents' ->
    forall doc_id text,
      dict_get documents' doc_id = Some text ->
      dict_get documents doc_id = Some text
      \/ exists row tok,
           In row rows
           /\ split row = tok :: split text
           /\ int tok = Some doc_id
           /\ text = join (py " ") (split text).
Proof.
  induction rows as [|row rows IH]; intros documents documents'; simpl.
  - intros [= <-]. auto.
  - destruct (load_row int documents row) as [d1|] eqn:E; simpl;
      [|discriminate].
    intros Hrest doc_id text Hget.
    destruct (IH _ _ Hrest _ _ Hget) as [H1|(r & tok & Hin & H2)].
    + apply load_row_tokens in E.
      destruct E as (tok & rest & id0 & Hsplit & Hint & Hjoin & ->).
      rewrite dict_get_set in H1.
      destruct (key_eqb_spec id0 doc_id) as [->|Hne]; [|auto].
      injection H1 as <-. right. exists row, tok. rewrite Hjoin. auto.
    + right. exists r, tok. tauto.
Qed.

(** X9.  Every document [load_documents] returns comes from a line of
    the corpus: a line whose first token reads as the document's id and
    whose other tokens are exactly the tokens of the stored text.  The
    stored text is normalised: its tokens separated by single spaces,
    whatever whitespace the line had. *)
Theorem load_documents_text_tokens int rows documents doc_id text :
  load_documents int (Some rows) = Ok documents ->
  dict_get documents doc_id = Some text ->
  exists row tok,
    In row rows
    /\ split row = tok :: split text
    /\ int tok = Some doc_id
    /\ text = join (py " ") (split text).
Proof.
  unfold load_documents. intros Hload Hget.
  destruct (load_rows_provenance int rows [] documents Hload doc_id text Hget)
    as [H|H]; [discriminate | exact H].
Qed.

Lemma load_documents_text_tokens_witness :
  exists row tok,
    In row [[32; 55; 9; 32] ++ py "a   b" ++ [9; 10]]
    /\ split row = tok :: split (py "a b")
    /\ int_ascii tok = Some 7
    /\ py "a b" = join (py " ") (split (py "a b")).
Proof.
  apply (load_documents_text_tokens int_ascii
           [[32; 55; 9; 32] ++ py "a   b" ++ [9; 10]] [(7, py "a b")]).
  - vm_compute. reflexivity.
  - reflexivity.
Defined.

(** ** The index [build_inverted_index] builds *)

Lemma Forall_dict_set {K V} `{Key K} (P : K * V -> Prop) (d : dict K V) k v :
  Forall P d -> P (k, v) -> Forall P (dict_set d k v).
Proof.
  intros Hd Hkv. induction Hd as [|[k' v'] d Hk' Hd IH]; simpl.
  - now constructor.
  - destruct (key_eqb_spec k' k) as [->|Hne]; now constructor.
Qed.

Lemma index_add_entries index w d :
  Forall (fun kv => is_token (fst kv) /\ snd kv <> [] /\ NoDup (snd kv))
    index ->
  is_token w ->
  Forall (fun kv => is_token (fst kv) /\ snd kv <> [] /\ NoDup (snd kv))
    (index_add index w d).
Proof.
  intros Hall Hw. unfold index_add. unfold set in *.
  destruct (dict_get index w) as [s|] eqn:E.
  - apply Forall_dict_set; [assumption|]. cbn [fst snd].
    apply dict_get_Some_In in E. rewrite Forall_forall in Hall.
    destruct (Hall _ E) as (_ & _ & Hnd). repeat split; try apply Hw.
    + apply set_add_not_empty.
    + now apply set_add_nodup.
  - apply Forall_dict_set; [assumption|]. cbn [fst snd].
    repeat split; try apply Hw; simpl; [discriminate|].
    repeat constructor. simpl. tauto.
Qed.

Lemma add_document_entries index doc :
  Forall (fun kv => is_token (fst kv) /\ snd kv <> [] /\ NoDup (snd kv))
    index ->
  Forall (fun kv => is_token (fst kv) /\ snd kv <> [] /\ NoDup (snd kv))
    (add_document index doc).
Proof.
  destruct doc as [doc_id text]. unfold add_document.
  pose proof (split_tokens text) as Htok. revert index.
  induction Htok as [|w words Hw Hwords IH]; intros index Hall; simpl;
    [assumption|].
  apply IH. now apply index_add_entries.
Qed.

(** X10.  The index [build_inverted_index] returns holds each term once;
    every term is a token (non-empty, without whitespace); every posting
    list is non-empty and holds each id once; and an id is posted under a
    term exactly when the term is a token of a document with that id. *)
Theorem build_inverted_index_invariant (documents : dict Z str) :
  dict_wf (_index (build_inverted_index documents))
  /\ Forall (fun kv => is_token (fst kv) /\ snd kv <> [] /\ NoDup (snd kv))
       (_index (build_inverted_index documents))
  /\ forall w d,
       posts (_index (build_inverted_index documents)) w d
       <-> exists text, In (d, text) documents /\ In w (split text).
Proof.
  split; [apply build_inverted_index_wf|]. split; [|apply posts_build].
  unfold build_inverted_index. cbn [_index]. rewrite map_py_list.
  assert (G : forall index : dict str (set Z),
             Forall (fun kv => is_token (fst kv) /\ snd kv <> []
                               /\ NoDup (snd kv)) index ->
             Forall (fun kv => is_token (fst kv) /\ snd kv <> []
                               /\ NoDup (snd kv))
               (fold_left add_document documents index)).
  { induction documents as [|doc documents IH]; intros index Hall; simpl;
      [assumption|].
    apply IH. now apply add_document_entries. }
  apply G. constructor.
Qed.

(** ** What [query] returns *)

Lemma NoDup_fold_set_add (l : list Z) (acc : set Z) :
  NoDup acc -> NoDup (fold_left (fun s y => set_add Z.eq_dec y s) l acc).
Proof.
  revert acc. induction l as [|y l IH]; intros acc Hacc; simpl;
    [assumption|].
  apply IH. now apply set_add_nodup.
Qed.

Lemma NoDup_py_set (l : list Z) : NoDup (py_set l).
Proof. apply NoDup_fold_set_add. constructor. Qed.

Lemma query_loop_NoDup (index : index_t) words :
  forall tmp r,
    (forall t, tmp = Some t -> NoDup t) ->
    InvertedIndex.query_loop index tmp words = Ok r ->
    NoDup r.
Proof.
  induction words as [|word words IH]; intros tmp r Htmp; simpl.
  - destruct tmp as [t|]; [|discriminate]. intros [= <-]. now apply Htmp.
  - destruct (dict_mem index word); [|intros [= <-]; constructor].
    destruct (dict_item index word) as [l|]; [|discriminate]. simpl.
    destruct tmp as [t|]; apply IH; intros t' [= <-].
    + apply set_inter_nodup; [now apply Htmp | apply NoDup_py_set].
    + apply NoDup_py_set.
Qed.

(** X11.  On any index, [query] with at least one word returns a list
    that holds no id twice (even if posting lists do), and an id is in it
    exactly when every word is a term of the index and has the id among
    its postings. *)
Theorem query_returns_intersection (self : InvertedIndex) (T : list str) :
  T <> [] ->
  exists r,
    InvertedIndex.query self T = Ok r
    /\ NoDup r
    /\ forall d, In d r <-> forall w, In w T -> posts (_index self) w d.
Proof.
  intros HT. destruct T as [|word words]; [congruence|].
  destruct (query_loop_None (_index self) word words) as (r & Hr & Hmem).
  exists r. split; [exact Hr|]. split; [|exact Hmem].
  apply (query_loop_NoDup (_index self) (word :: words) None r);
    [discriminate | exact Hr].
Qed.

Lemma query_returns_intersection_witness :
  exists r,
    InvertedIndex.query {| _index := [(py "a", [3; 1; 3]); (py "b", [3])] |}
      [py "a"; py "b"] = Ok r
    /\ NoDup r
    /\ forall d,
         In d r <->
         forall w, In w [py "a"; py "b"] ->
                   posts [(py "a", [3; 1; 3]); (py "b", [3])] w d.
Proof.
  apply (query_returns_intersection
           {| _index := [(py "a", [3; 1; 3]); (py "b", [3])] |}
           [py "a"; py "b"]).
  discriminate.
Defined.

(** X12.  The answer of [query] depends on the words as a set: two
    non-empty word lists with the same words, in any order and with any
    repetitions, give lists with the same ids. *)
Theorem query_words_as_set (self : InvertedIndex) (T T' : list str) :
  T <> [] -> T' <> [] ->
  (forall w, In w T <-> In w T') ->
  exists r r',
    InvertedIndex.query self T = Ok r
    /\ InvertedIndex.query self T' = Ok r'
    /\ forall d, In d r <-> In d r'.
Proof.
  intros HT HT' Hsame.
  destruct T as [|w ws]; [congruence|]. destruct T' as [|w' ws']; [congruence|].
  destruct (query_loop_None (_index self) w ws) as (r & Hr & Hmem).
  destruct (query_loop_None (_index self) w' ws') as (r' & Hr' & Hmem').
  exists r, r'. split; [exact Hr|]. split; [exact Hr'|].
  intros d. rewrite Hmem, Hmem'. split; intros Hall x Hx; apply Hall;
    now apply Hsame.
Qed.

Lemma query_words_as_set_witness :
  exists r r',
    InvertedIndex.query {| _index := ETALON_TINY_INDEX |}
      [py "The"; py "of"; py "The"] = Ok r
    /\ InvertedIndex.query {| _index := ETALON_TINY_INDEX |}
         [py "of"; py "The"] = Ok r'
    /\ forall d, In d r <-> In d r'.
Proof.
  apply query_words_as_set; try discriminate.
  intros w. simpl. tauto.
Defined.

(** ** The list [query] returns is a new object *)

Module StoreAlloc.
Import Store.

Lemma replace_nth_length l o h :
  List.length (replace_nth l o h) = List.length h.
Proof.
  revert l. induction h as [|o' h IH]; intros [|l]; simpl; auto.
Qed.

Lemma set_of_length x s :
  (List.length (heap s) <= List.length (heap (snd (set_of x s))))%nat.
Proof.
  destruct (StoreFacts.set_of_heap x s) as [(e & _ & ->)|(o & _ & ->)];
    [|rewrite length_app]; lia.
Qed.

Lemma intersection_update_length t u s :
  List.length (heap (snd (intersection_update t u s))) = List.length (heap s).
Proof.
  destruct (StoreFacts.intersection_update_heap t u s) as [->|[o ->]];
    [reflexivity | apply replace_nth_length].
Qed.

Lemma list_of_new tmp s (p : loc) :
  fst (list_of tmp s) = Ok p ->
  p = List.length (heap s)
  /\ exists items, heap (snd (list_of tmp s)) = heap s ++ [PyList items].
Proof.
  unfold list_of, bind, deref, alloc, lift. destruct tmp as [t|];
    [|discriminate].
  destruct (nth_error (heap s) t) as [[]|]; simpl; try discriminate.
  intros [= <-]. eauto.
Qed.

(** Every reference the loop returns is to a list it has just allocated,
    the last object of the heap. *)
Lemma query_loop_new self_index words :
  forall tmp s (p : loc),
    fst (query_loop self_index tmp words s) = Ok p ->
    (List.length (heap s) <= p)%nat
    /\ exists h items,
         heap (snd (query_loop self_index tmp words s)) = h ++ [PyList items]
         /\ p = List.length h.
Proof.
  induction words as [|word words IH]; intros tmp s p H.
  - cbn [query_loop] in *. destruct (list_of_new _ _ _ H) as (-> & items & Hh).
    split; [lia|]. now exists (heap s), items.
  - cbn [query_loop] in *. unfold bind at 1 in H. unfold bind at 1.
    pose proof (StoreFacts.contains_heap self_index word s) as Hc.
    destruct (contains self_index word s) as [[found|e] s1]; simpl in Hc;
      [|discriminate]. rewrite <- Hc.
    destruct found.
    + assert (Hstep : forall (k : loc -> st loc),
                 (forall u s3 (q : loc),
                    (List.length (heap s1) <= List.length (heap s3))%nat ->
                    fst (k u s3) = Ok q ->
                    (List.length (heap s1) <= q)%nat
                    /\ exists h items,
                         heap (snd (k u s3)) = h ++ [PyList items]
                         /\ q = List.length h) ->
                 fst ((q <- getitem self_index word ;;
                       u <- set_of q ;; k u) s1) = Ok p ->
                 (List.length (heap s1) <= p)%nat
                 /\ exists h items,
                      heap (snd ((q <- getitem self_index word ;;
                                  u <- set_of q ;; k u) s1))
                      = h ++ [PyList items]
                      /\ p = List.length h).
      { intros k Hk. unfold bind at 1 3.
        pose proof (StoreFacts.getitem_heap self_index word s1) as Hg.
        destruct (getitem self_index word s1) as [[q|e] s2]; simpl in Hg;
          [|discriminate].
        unfold bind at 1 2. pose proof (set_of_length q s2) as Hs.
        destruct (set_of q s2) as [[u|e] s3]; simpl in Hs; [|discriminate].
        apply Hk. rewrite <- Hg. exact Hs. }
      destruct tmp as [t|]; apply Hstep; [|exact H| |exact H];
        intros u s3 q Hle.
      * unfold bind at 1 2.
        pose proof (intersection_update_length t u s3) as Hi.
        destruct (intersection_update t u s3) as [[[]|e] s4]; simpl in Hi;
          [|discriminate].
        intros Hq. destruct (IH _ _ _ Hq) as [Hle' Hrest].
        split; [lia | exact Hrest].
      * intros Hq. destruct (IH _ _ _ Hq) as [Hle' Hrest].
        split; [lia | exact Hrest].
    + unfold alloc in *. simpl in *. injection H as <-.
      split; [lia|]. now exists (heap s1), [].
Qed.

End StoreAlloc.

(** X13.  Whenever [query] returns, what it returns is a list object
    allocated during the call: its reference is none of the references
    that existed before, so it is never one of the posting lists of the
    index (also when one word is asked for), and it is the last object
    allocated. *)
Theorem query_returns_new_list (self : Store.instance) (words : list str)
    (s : Store.store) (p : Store.loc) :
  fst (Store.query self words s) = Ok p ->
  (List.length (Store.heap s) <= p)%nat
  /\ nth_error (Store.heap s) p = None
  /\ exists h items,
       Store.heap (snd (Store.query self words s)) = h ++ [Store.PyList items]
       /\ p = List.length h.
Proof.
  intros H. destruct (StoreAlloc.query_loop_new _ _ _ _ _ H) as [Hle Hrest].
  split; [exact Hle|]. split; [|exact Hrest].
  now apply nth_error_None.
Qed.

Lemma query_returns_new_list_witness :
  (List.length (Store.heap example_store) <= 4)%nat
  /\ nth_error (Store.heap example_store) 4%nat = None
  /\ exists h items,
       Store.heap (snd (Store.query example_instance [py "a"] example_store))
       = h ++ [Store.PyList items]
       /\ 4%nat = List.length h.
Proof.
  apply (query_returns_new_list example_instance [py "a"] example_store 4%nat).
  reflexivity.
Defined.

(** ** The command-line callbacks *)

Lemma load_struct_policy mem bo file index :
  StructStoragePolicy.load mem bo file = Some (Ok index) ->
  InvertedIndex.load (StructPolicy mem bo) file
  = Some (Ok {| _index := index |}).
Proof.
  unfold InvertedIndex.load. cbn [policy_load StructPolicy]. now intros ->.
Qed.

Lemma print_query_Ok inverted_index words r stdout :
  InvertedIndex.query inverted_index words = Ok r ->
  print_query inverted_index words stdout
  = (Ok tt, stdout ++ join (py ",") (map str_of_int r) ++ [10]).
Proof. unfold print_query, bind, lift, print. now intros ->. Qed.

Lemma print_query_Raise inverted_index words e stdout :
  InvertedIndex.query inverted_index words = Raise e ->
  print_query inverted_index words stdout = (Raise e, stdout).
Proof. unfold print_query, bind, lift. now intros ->. Qed.

(** X14.  After a [build] that returns normally, a [query] command on the
    file it wrote, with words on the command line, prints one line: the
    ids, separated by commas and each once, of exactly the documents of the
    corpus whose text has every word among its tokens. *)
Theorem build_then_query mem (int : str -> option Z) (bo : byteorder)
    (load_path : option (list str)) (store_path file' : option bytes)
    (T : list str) (query_file : list str) (stdout : str) :
  callback_build int mem bo load_path store_path = (Ok tt, file') ->
  T <> [] ->
  exists documents r,
    load_documents int load_path = Ok documents
    /\ callback_query mem bo file' (Some T) query_file stdout
       = Some (Ok tt, stdout ++ join (py ",") (map str_of_int r) ++ [10])
    /\ NoDup r
    /\ forall d,
         In d r <->
         exists text, dict_get documents d = Some text
                      /\ forall w, In w T -> In w (split text).
Proof.
  intros B HT. unfold callback_build in B.
  destruct (load_documents int load_path) as [documents|e] eqn:L;
    [|discriminate].
  pose proof (load_documents_wf int _ _ L) as Hwf.
  unfold InvertedIndex.dump in B. cbn [policy_dump StructPolicy] in B.
  apply (load_dump mem) in B; [|apply build_inverted_index_wf].
  apply load_struct_policy in B.
  destruct T as [|word words]; [congruence|].
  destruct (query_loop_None (_index (build_inverted_index documents))
              word words) as (r & Hr & Hmem).
  exists documents, r. split; [reflexivity|]. split; [|split].
  - unfold callback_query. rewrite B. f_equal. now apply print_query_Ok.
  - eapply query_loop_NoDup; [|exact Hr]. discriminate.
  - intros d. rewrite Hmem. split.
    + intros Hall.
      destruct (proj1 (posts_build documents word d)
                  (Hall word (or_introl eq_refl))) as (text & Hin & _).
      exists text. split; [now apply In_dict_get|].
      intros w Hw.
      destruct (proj1 (posts_build documents w d) (Hall w Hw))
        as (text' & Hin' & Hw').
      apply (In_dict_get _ _ _ Hwf) in Hin, Hin'. congruence.
    + intros (text & Hget & Hall) w Hw. apply posts_build.
      exists text. split; [now apply dict_get_Some_In | now apply Hall].
Qed.

Lemma build_then_query_witness :
  exists documents r,
    load_documents int_ascii (Some [py "1 a b"; py "2 b"]) = Ok documents
    /\ callback_query ample_memory Little
         (snd (callback_build int_ascii ample_memory Little
                 (Some [py "1 a b"; py "2 b"])
                 None))
         (Some [py "b"]) [] []
       = Some (Ok tt, [] ++ join (py ",") (map str_of_int r) ++ [10])
    /\ NoDup r
    /\ forall d,
         In d r <->
         exists text, dict_get documents d = Some text
                      /\ forall w, In w [py "b"] -> In w (split text).
Proof.
  apply (build_then_query ample_memory int_ascii Little
           (Some [py "1 a b"; py "2 b"]) None).
  - vm_compute. reflexivity.
  - discriminate.
Defined.

Lemma query_rows_app inverted_index a b stdout :
  query_rows inverted_index (a ++ b) stdout
  = (query_rows inverted_index a ;;; query_rows inverted_index b) stdout.
Proof.
  revert stdout. induction a as [|row a IH]; intros stdout; simpl.
  - reflexivity.
  - unfold bind in *.
    destruct (print_query inverted_index (split (strip row)) stdout)
      as [[[]|e] out]; [apply IH | reflexivity].
Qed.

(** In query-file mode each row with at least one word prints one line:
    the ids of an answer to the words of the row, which holds each id
    once and exactly the ids posted under every word. *)
Lemma query_rows_lines inverted_index rows :
  Forall (fun row => split row <> []) rows ->
  forall stdout,
  exists answers,
    Forall2 (fun row r =>
               NoDup r
               /\ forall d,
                    In d r <->
                    forall w, In w (split row) ->
                              posts (_index inverted_index) w d)
      rows answers
    /\ query_rows inverted_index rows stdout
       = (Ok tt,
          stdout
          ++ List.concat
               (map (fun r => join (py ",") (map str_of_int r) ++ [10])
                  answers)).
Proof.
  induction 1 as [|row rows Hrow Hrows IH]; intros stdout.
  - exists []. split; [constructor|]. simpl. now rewrite app_nil_r.
  - destruct (split row) as [|word words] eqn:E; [congruence|].
    destruct (query_loop_None (_index inverted_index) word words)
      as (r & Hr & Hmem).
    destruct (IH (stdout ++ join (py ",") (map str_of_int r) ++ [10]))
      as (answers & Hanswers & Hout).
    exists (r :: answers). split.
    + constructor; [|exact Hanswers]. rewrite E. split; [|exact Hmem].
      eapply query_loop_NoDup; [|exact Hr]. discriminate.
    + cbn [query_rows]. rewrite split_strip, E.
      erewrite bind_Ok by (apply print_query_Ok; exact Hr).
      rewrite Hout. cbn [List.concat map]. now rewrite <- !app_assoc.
Qed.

(** X15.  A [query] command without words on the command line answers
    the query file row by row: while every row has at least one word, it
    returns normally and prints one line per row, in the order of the
    rows; the line of a row is the comma-separated ids, each once and in
    some order, of exactly the documents posted under every word of the
    row. *)
Theorem callback_query_file_rows mem (bo : byteorder)
    (index_path : option bytes) (inverted_index : InvertedIndex)
    (query : option (list str)) (query_file : list str) (stdout : str) :
  InvertedIndex.load (StructPolicy mem bo) index_path
  = Some (Ok inverted_index) ->
  query = None \/ query = Some [] ->
  Forall (fun row => split row <> []) query_file ->
  exists answers,
    Forall2 (fun row r =>
               NoDup r
               /\ forall d,
                    In d r <->
                    forall w, In w (split row) ->
                              posts (_index inverted_index) w d)
      query_file answers
    /\ callback_query mem bo index_path query query_file stdout
       = Some (Ok tt,
               stdout
               ++ List.concat
                    (map (fun r => join (py ",") (map str_of_int r) ++ [10])
                       answers)).
Proof.
  intros L Hq Hrows.
  destruct (query_rows_lines inverted_index query_file Hrows stdout)
    as (answers & Hanswers & Hout).
  exists answers. split; [exact Hanswers|].
  unfold callback_query. rewrite L. destruct Hq as [->| ->]; now rewrite Hout.
Qed.

Lemma callback_query_file_rows_witness :
  exists answers,
    Forall2 (fun row r =>
               NoDup r
               /\ forall d,
                    In d r <->
                    forall w, In w (split row) ->
                              posts [(py "a", [7; 3])] w d)
      [py " a "; py "b a"] answers
    /\ callback_query ample_memory Big
         (Some [x00; x00; x00; x07; x00; x01; x61; x00; x02; x00; x07;
                x00; x03])
         None [py " a "; py "b a"] (py ">")
       = Some (Ok tt,
               py ">"
               ++ List.concat
                    (map (fun r => join (py ",") (map str_of_int r) ++ [10])
                       answers)).
Proof.
  apply (callback_query_file_rows ample_memory Big _
           {| _index := [(py "a", [7; 3])] |}).
  - vm_compute. reflexivity.
  - now left.
  - repeat constructor; discriminate.
Defined.

(** X16.  In query-file mode a row without any word (an empty or blank
    line) stops the command with a [TypeError]: the lines for the rows
    before it have been printed, nothing is printed for it, and the rows
    after it are not answered. *)
Theorem callback_query_blank_row mem (bo : byteorder)
    (index_path : option bytes) (inverted_index : InvertedIndex)
    (query : option (list str)) (pre : list str) (blank : str)
    (post : list str) (stdout : str) :
  InvertedIndex.load (StructPolicy mem bo) index_path
  = Some (Ok inverted_index) ->
  query = None \/ query = Some [] ->
  Forall (fun row => split row <> []) pre ->
  split blank = [] ->
  exists out,
    callback_query mem bo index_path query pre stdout = Some (Ok tt, out)
    /\ callback_query mem bo index_path query (pre ++ blank :: post) stdout
       = Some (Raise TypeError, out).
Proof.
  intros L Hq Hpre Hblank.
  destruct (query_rows_lines inverted_index pre Hpre stdout)
    as (answers & _ & Hout).
  revert Hout. generalize (stdout
    ++ List.concat
         (map (fun r => join (py ",") (map str_of_int r) ++ [10]) answers)).
  intros out Hout. exists out.
  assert (Hrows : query_rows inverted_index (pre ++ blank :: post) stdout
                  = (Raise TypeError, out)).
  { rewrite query_rows_app. erewrite bind_Ok by exact Hout.
    cbn [query_rows]. rewrite split_strip, Hblank.
    erewrite bind_Raise; [reflexivity|].
    now apply print_query_Raise. }
  unfold callback_query. rewrite L.
  destruct Hq as [->| ->]; now rewrite Hout, Hrows.
Qed.

Lemma callback_query_blank_row_witness :
  exists out,
    callback_query ample_memory Big
      (Some [x00; x00; x00; x07; x00; x01; x61; x00; x02; x00; x07;
             x00; x03])
      None [py "a"] [] = Some (Ok tt, out)
    /\ callback_query ample_memory Big
         (Some [x00; x00; x00; x07; x00; x01; x61; x00; x02; x00; x07;
                x00; x03])
         None ([py "a"] ++ [10] :: [py "a"]) []
       = Some (Raise TypeError, out).
Proof.
  apply (callback_query_blank_row ample_memory Big _
           {| _index := [(py "a", [7; 3])] |}).
  - vm_compute. reflexivity.
  - now left.
  - repeat constructor; discriminate.
  - reflexivity.
Defined.

Lemma load_rows_textless (int : str -> option Z) rows :
  Forall (fun row => exists tok, split row = [tok] /\ int tok <> None) rows ->
  forall documents,
    Forall (fun kv : Z * str => snd kv = []) documents ->
    exists documents',
      load_rows int documents rows = Ok documents'
      /\ Forall (fun kv : Z * str => snd kv = []) documents'.
Proof.
  induction 1 as [|row rows (tok & Hrow & Hint) Hrows IH];
    intros documents Hdocs; simpl.
  - eauto.
  - unfold load_row. rewrite split_strip, Hrow.
    destruct (int tok) as [doc_id|]; [|congruence]. cbn [rbind tl join].
    apply IH. now apply Forall_dict_set.
Qed.

Lemma build_textless (documents : dict Z str) :
  Forall (fun kv : Z * str => snd kv = []) documents ->
  build_inverted_index documents = {| _index := [] |}.
Proof.
  intros Hdocs. unfold build_inverted_index.
  assert (G : forall index : dict str (set Z),
             fold_left add_document documents index = index).
  { induction Hdocs as [|[d text] documents Hd Hdocs IH]; intros index;
      simpl; [reflexivity|].
    simpl in Hd. subst text. apply IH. }
  now rewrite G.
Qed.

(** X17.  When no line of the corpus carries any text after its id (an
    empty corpus included), [build] raises [ValueError] and does not touch
    the output file: the index has no term, which [dump] refuses before
    opening the file. *)
Theorem callback_build_textless mem (int : str -> option Z) (bo : byteorder)
    (rows : list str) (store_path : option bytes) :
  Forall (fun row => exists tok, split row = [tok] /\ int tok <> None) rows ->
  callback_build int mem bo (Some rows) store_path
  = (Raise ValueError, store_path).
Proof.
  intros Hrows. unfold callback_build, load_documents.
  destruct (load_rows_textless int rows Hrows []) as (documents & -> & Hdocs);
    [constructor|].
  now rewrite (build_textless documents Hdocs).
Qed.

Lemma callback_build_textless_witness :
  callback_build int_ascii ample_memory Little (Some [py "1"; py " 2 "])
    (Some [xff])
  = (Raise ValueError, Some [xff]).
Proof.
  apply callback_build_textless.
  repeat constructor.
  - exists (py "1"). split; [reflexivity | discriminate].
  - exists (py "2"). split; [reflexivity | discriminate].
Defined.

(** ** The repository's tests *)

Example example_store_is_new_instance :
  Store.new_instance [(py "a", [1; 2]); (py "b", [2])] Store.empty
  = (Ok example_instance, example_store).
Proof. reflexivity. Qed.

Example test_load_documents_do_correct :
  load_documents int_ascii (Some DATASET_TINY)
  = Ok [ (123, py "Show must go on!"); (321, py "Still loving you");
         (547, py "The Adventures of Rain Dance Maggie");
         (645, py "The House of Rising Son"); (789, py "A A B") ].
Proof. vm_compute. reflexivity. Qed.

Example test_error_load_documents_wrong_filepath :
  load_documents int_ascii None = Raise FileNotFoundError.
Proof. reflexivity. Qed.

Example test_can_build_index_do_correct :
  option_map build_inverted_index
    (match load_documents int_ascii (Some DATASET_TINY) with
     | Ok documents => Some documents
     | Raise _ => None
     end)
  = Some {| _index := ETALON_TINY_INDEX |}.
Proof. vm_compute. reflexivity. Qed.

(** The test compares [sorted(answer)] with [sorted(query(...))]: the
    answers as sets. *)
Example test_query_return_right_answer :
  let inverted_index := {| _index := ETALON_TINY_INDEX |} in
  Forall (fun '(query, answer) =>
            exists r, InvertedIndex.query inverted_index query = Ok r
                      /\ same_set r answer)
    [ ([py "Show"], [123]);
      ([py "The"], [547; 645]);
      ([py "The"; py "Adventures"], [547]);
      ([py "Unforgiven"], []) ].
Proof.
  cbv zeta.
  repeat constructor;
    (eexists; split; [vm_compute; reflexivity | intros x; reflexivity]).
Qed.

Example test_inverted_index_can_dump_load_index :
  let inverted_index := {| _index := ETALON_TINY_INDEX |} in
  match
    InvertedIndex.dump inverted_index (StructPolicy ample_memory Little) None
  with
  | (Ok tt, file) =>
      InvertedIndex.load (StructPolicy ample_memory Little) file
  | (Raise e, _) => Some (Raise e)
  end = Some (Ok inverted_index).
Proof. vm_compute. reflexivity. Qed.

Example test_inverted_index_load_wrong_path :
  InvertedIndex.load (StructPolicy ample_memory Little) None
  = Some (Raise FileNotFoundError).
Proof. reflexivity. Qed.
